(** * LabelLoader: remapping and connected-component labeling of a label stack

    A shallow embedding of [src/LabelLoader.js] (ScrollSlabViewer).

    - JavaScript numbers that hold pixel values, coordinates and counters are
      integers in [Z].
    - A [Uint8Array] is a [list Z]; a read outside the array yields
      [undefined] ([None]), a write outside the array is dropped, and a
      stored value is reduced modulo 256.
    - [imgBufferArray] is a [list (list Z)], one buffer per image.  The source
      mutates the buffers in place through several aliases ([arr], [bufz],
      [bufzp], [imgBufferArray[seedZ]]); the embedding threads the one grid
      through every read and write, so each alias sees the latest contents.
    - [seeds] holds three numbers per voxel, pushed and popped three at a
      time; it is a list of triples whose head is the entry pushed last. *)

From Stdlib Require Import ZArith Lia.
From stdpp Require Import base decidable option list numbers relations strings.

Local Open Scope Z_scope.

(** ** Pixel buffers *)

Abbreviation Grid := (list (list Z)) (only parsing).
Abbreviation coord := (Z * Z * Z)%type (only parsing).   (* (x, y, z) *)

(* const unlabeled = 0, background = 1, foreground = 2, seedVal = 255; *)
Definition unlabeled : Z := 0.
Definition background : Z := 1.
Definition foreground : Z := 2.
Definition seedVal : Z := 255.

Definition toUint8 (v : Z) : Z := v mod 256.

(* arr[i] *)
Definition readPx (arr : list Z) (i : Z) : option Z :=
  if bool_decide (0 ≤ i) then arr !! Z.to_nat i else None.

(* arr[i] = v *)
Definition writePx (arr : list Z) (i v : Z) : list Z :=
  if bool_decide (0 ≤ i) then <[Z.to_nat i := toUint8 v]> arr else arr.

(* imgBufferArray[z] *)
Definition plane (g : Grid) (z : Z) : option (list Z) :=
  if bool_decide (0 ≤ z) then g !! Z.to_nat z else None.

(* imgBufferArray[z][y*imgWidth + x] *)
Definition getVoxel (imgWidth : Z) (g : Grid) (p : coord) : option Z :=
  let '(x, y, z) := p in
  match plane g z with
  | Some buf => readPx buf (y * imgWidth + x)
  | None => None
  end.

(* imgBufferArray[z][y*imgWidth + x] = v *)
Definition setVoxel (imgWidth : Z) (g : Grid) (p : coord) (v : Z) : Grid :=
  let '(x, y, z) := p in
  match plane g z with
  | Some buf => <[Z.to_nat z := writePx buf (y * imgWidth + x) v]> g
  | None => g
  end.

(* numImgs = ifds.length, which is the number of buffers once the loop over
   the images has run through *)
Definition numImgsOf (g : Grid) : Z := Z.of_nat (length g).

(** ** Remapping (lines 118-121) *)

(* (val == 2) ? unlabeled : (val == 1) ? foreground : (val == 0) ? background : val *)
Definition remap (val : Z) : Z :=
  if val =? 2 then unlabeled
  else if val =? 1 then foreground
  else if val =? 0 then background
  else val.

(* One iteration of the loop over j; an [undefined] read is written back
   unchanged, which a typed array drops. *)
Definition remapPixel (arr : list Z) (j : Z) : list Z :=
  match readPx arr j with
  | Some val => writePx arr j (remap val)
  | None => arr
  end.

(* for (let j=0; j<wh; j++) { ... } , with [n] iterations left from index [j] *)
Fixpoint remapLoop (n : nat) (j : Z) (arr : list Z) : list Z :=
  match n with
  | O => arr
  | S n' => remapLoop n' (j + 1) (remapPixel arr j)
  end.

Definition remapFrame (wh : Z) (arr : list Z) : list Z :=
  remapLoop (Z.to_nat wh) 0 arr.

(** ** Loops with an early exit *)

(* for (let i = lo; i < hi; i++) body, where the body either leaves the
   enclosing function ([inl]) or falls through to the next iteration. *)
Fixpoint forUpTo {S E : Type} (n : nat) (i : Z) (body : Z → S → E + S) (s : S)
  : E + S :=
  match n with
  | O => inr s
  | S n' =>
      match body i s with
      | inl e => inl e
      | inr s' => forUpTo n' (i + 1) body s'
      end
  end.

Definition forRange {S E : Type} (lo hi : Z) (body : Z → S → E + S) (s : S)
  : E + S :=
  forUpTo (Z.to_nat (hi - lo)) lo body s.

(** ** Flood fill of one component (lines 142-183) *)

Abbreviation FillState := (Grid * list coord)%type (only parsing).

(* if (bufzp[ypw + xp] == foreground) { seeds.push(xp, yp, zp); bufzp[ypw + xp] = seedVal; } *)
Definition probe (imgWidth : Z) (st : FillState) (xp yp zp : Z) : FillState :=
  let '(g, seeds) := st in
  if bool_decide (getVoxel imgWidth g (xp, yp, zp) = Some foreground)
  then (setVoxel imgWidth g (xp, yp, zp) seedVal, (xp, yp, zp) :: seeds)
  else st.

(* The unrolled inner loop (lines 160-180). *)
Definition visitRow (imgWidth : Z) (st : FillState) (seedX yp zp : Z) : FillState :=
  let st1 := if bool_decide (seedX - 1 >= 0) then probe imgWidth st (seedX - 1) yp zp else st in
  let st2 := probe imgWidth st1 seedX yp zp in
  if bool_decide (seedX + 1 < imgWidth) then probe imgWidth st2 (seedX + 1) yp zp else st2.

(* for (var dy=-1; dy<=1; dy++) *)
Definition visitPlane (imgWidth imgHeight : Z) (st : FillState) (seedX seedY zp : Z)
  : FillState :=
  foldl (fun st dy =>
           let yp := seedY + dy in
           if bool_decide (yp < 0 ∨ yp >= imgHeight) then st
           else visitRow imgWidth st seedX yp zp)
        st [-1; 0; 1].

(* for (var dz=-1; dz<=1; dz++) *)
Definition visitNeighbours (imgWidth imgHeight numImgs : Z) (st : FillState) (seed : coord)
  : FillState :=
  let '(seedX, seedY, seedZ) := seed in
  foldl (fun st dz =>
           let zp := seedZ + dz in
           if bool_decide (zp < 0 ∨ zp >= numImgs) then st
           else visitPlane imgWidth imgHeight st seedX seedY zp)
        st [-1; 0; 1].

(* The body of the while loop: pop, assign the component value, visit. *)
Definition fillStep (imgWidth imgHeight : Z) (compValue : Z) (g : Grid)
  (seed : coord) (rest : list coord) : FillState :=
  visitNeighbours imgWidth imgHeight (numImgsOf g)
    (setVoxel imgWidth g seed compValue, rest) seed.

(* while (seeds.length > 0) { ... }  The loop is bounded by [fuel]; [None]
   means the fuel ran out before the worklist did. *)
Fixpoint floodFill (fuel : nat) (imgWidth imgHeight compValue : Z) (st : FillState)
  : option FillState :=
  match st.2 with
  | [] => Some st
  | seed :: rest =>
      match fuel with
      | O => None
      | S fuel' =>
          floodFill fuel' imgWidth imgHeight compValue
            (fillStep imgWidth imgHeight compValue st.1 seed rest)
      end
  end.

(* The number of buffer entries that currently hold [foreground]. *)
Definition countFg (g : Grid) : nat :=
  sum_list (map (fun buf => length (filter (fun v => v = foreground) buf)) g).

(* Enough fuel for a fill that starts with one entry on the worklist. *)
Definition fillFuel (g : Grid) : nat := S (2 * countFg g).

(** ** The labeling scan (lines 132-194) *)

(* How the scan leaves the three loops early. *)
Inductive ScanExit : Type :=
| TooMany (g : Grid) (compValue : Z)   (* [compValue >= seedVal] held at line 185 *)
| FuelExhausted.

Abbreviation ScanState := (Grid * Z)%type (only parsing).   (* imgBufferArray, compValue *)

(* The body of the loop over x (lines 137-191). *)
Definition scanVoxel (imgWidth imgHeight : Z) (x y z : Z) (st : ScanState)
  : ScanExit + ScanState :=
  let '(g, compValue) := st in
  if bool_decide (getVoxel imgWidth g (x, y, z) ≠ Some foreground) then inr st
  else
    let g1 := setVoxel imgWidth g (x, y, z) seedVal in
    match floodFill (fillFuel g1) imgWidth imgHeight compValue (g1, [(x, y, z)]) with
    | None => inl FuelExhausted
    | Some (g2, _) =>
        let compValue' := compValue + 1 in
        if bool_decide (compValue' >= seedVal) then inl (TooMany g2 compValue')
        else inr (g2, compValue')
    end.

Definition scanRow (imgWidth imgHeight : Z) (y z : Z) : ScanState → ScanExit + ScanState :=
  forRange 0 imgWidth (fun x => scanVoxel imgWidth imgHeight x y z).

Definition scanImage (imgWidth imgHeight : Z) (z : Z) : ScanState → ScanExit + ScanState :=
  forRange 0 imgHeight (fun y => scanRow imgWidth imgHeight y z).

(* let compValue = 3; for z, for y, for x ... *)
Definition labelComponents (imgWidth imgHeight : Z) (g : Grid) : ScanExit + ScanState :=
  forRange 0 (numImgsOf g) (fun z => scanImage imgWidth imgHeight z) (g, 3).

(** ** The loader object and its observable effects *)

Inductive Item : Type :=
| File (name : string)
| FileSystemFileHandle (name : string)
| OtherItem (tag : string).          (* anything that is neither of the two *)

Inductive Callback : Type := Fn (id : nat).

(* The fields of [this] that the file reads or writes; the volume [vol] is
   an outside object and is kept in [Extern] below. *)
Record LabelLoader : Type := mkLoader {
  fileList : list Item;
  errors : option string;
  warnings : option string;
  done : bool;
  cancelled : bool;
  numLabelsFound : Z;
  loadCompleteCb : option Callback;
  loadProgressCb : option Callback
}.

Definition setErrors (e : option string) (this : LabelLoader) : LabelLoader :=
  mkLoader (fileList this) e (warnings this) (done this) (cancelled this)
    (numLabelsFound this) (loadCompleteCb this) (loadProgressCb this).
Definition setWarnings (w : option string) (this : LabelLoader) : LabelLoader :=
  mkLoader (fileList this) (errors this) w (done this) (cancelled this)
    (numLabelsFound this) (loadCompleteCb this) (loadProgressCb this).
Definition setDone (d : bool) (this : LabelLoader) : LabelLoader :=
  mkLoader (fileList this) (errors this) (warnings this) d (cancelled this)
    (numLabelsFound this) (loadCompleteCb this) (loadProgressCb this).
Definition setCancelled (c : bool) (this : LabelLoader) : LabelLoader :=
  mkLoader (fileList this) (errors this) (warnings this) (done this) c
    (numLabelsFound this) (loadCompleteCb this) (loadProgressCb this).
Definition setNumLabelsFound (n : Z) (this : LabelLoader) : LabelLoader :=
  mkLoader (fileList this) (errors this) (warnings this) (done this) (cancelled this)
    n (loadCompleteCb this) (loadProgressCb this).

(* What the code does to the outside, in the order it does it. *)
Inductive Event : Type :=
| CompleteCb (cb : Callback) (this : LabelLoader)   (* loadCompleteCb(this) *)
| ProgressCb (cb : Callback) (a b : Z)              (* loadProgressCb(a, b) *)
| GetFile (h : Item)                                (* fileList[0].getFile() *)
| ReadAsArrayBuffer (f : Item)                      (* fileReader.readAsArrayBuffer *)
| Pause (z : Z)                                     (* await ... setTimeout(r, 5), after image z *)
| VolLoadBegin (dims : list Z) (bpp : Z)            (* vol.loadBegin(dims, bpp, 'little') *)
| CopyImagesToTexture (startIndex endIndex : Z) (imgBuffers : Grid)
| VolLoadEnd.                                       (* vol.loadEnd() *)

(* What reaches [_onImageLoadingError]. *)
Inductive Thrown : Type :=
| Exception (message : string)      (* a thrown Error and its message *)
| ReaderArg (fileName : string).    (* the FileReader; "" when it has no fileName *)

(* One entry of the array that UTIF.decode returns, together with what
   UTIF.decodeImage does for it: it fills [data] or throws. *)
Record Ifd : Type := mkIfd {
  width : Z;
  height : Z;
  t258 : Z;                           (* t258[0], the bits per sample *)
  data : Thrown + list Z
}.

(* The file runs in strict mode ("use strict" heads the enclosing function),
   where an assignment to a name that was never declared throws a
   ReferenceError.  Its message text is the engine's. *)
Record Engine : Type := mkEngine {
  undeclaredAssignment : string → string
}.

Definition v8 : Engine := mkEngine (fun name => name +:+ " is not defined").

(* The collaborators outside this file: the volume and the inherited
   [_copyImagesToTexture], which may change the loader's fields. *)
Record Extern : Type := mkExtern {
  vol_loadBegin : list Z → Z → option string;
  copyImagesToTexture : Grid → LabelLoader → LabelLoader
}.

(* if (v) for a string-or-null value *)
Definition truthy (v : option string) : bool :=
  match v with
  | Some s => negb (bool_decide (s = ""))
  | None => false
  end.

(** ** A monad for the handler: loader state, trace, and control *)

Inductive Outcome (A : Type) : Type :=
| Next (a : A) (this : LabelLoader) (tr : list Event)       (* falls through *)
| Return (this : LabelLoader) (tr : list Event)             (* return; *)
| Throw (ex : Thrown) (this : LabelLoader) (tr : list Event)
| OutOfFuel.
Arguments Next {A} a this tr.
Arguments Return {A} this tr.
Arguments Throw {A} ex this tr.
Arguments OutOfFuel {A}.

Definition M (A : Type) : Type := LabelLoader → list Event → Outcome A.

Definition ret {A} (a : A) : M A := fun this tr => Next a this tr.
Definition bind {A B} (m : M A) (k : A → M B) : M B :=
  fun this tr =>
    match m this tr with
    | Next a this' tr' => k a this' tr'
    | Return this' tr' => Return this' tr'
    | Throw ex this' tr' => Throw ex this' tr'
    | OutOfFuel => OutOfFuel
    end.

Declare Scope handler_scope.
Delimit Scope handler_scope with H.
Notation "x <- m ;; k" := (bind m (fun x => k))
  (at level 20, m at level 99, k at level 200) : handler_scope.
Notation "m ;; k" := (bind m (fun _ => k))
  (at level 100, k at level 200, right associativity) : handler_scope.
Local Open Scope handler_scope.

Definition return_ {A} : M A := fun this tr => Return this tr.
Definition throw {A} (ex : Thrown) : M A := fun this tr => Throw ex this tr.
Definition outOfFuel {A} : M A := fun _ _ => OutOfFuel.
Definition get {A} (f : LabelLoader → A) : M A := fun this tr => Next (f this) this tr.
Definition modify (f : LabelLoader → LabelLoader) : M unit :=
  fun this tr => Next tt (f this) tr.
Definition emit (e : Event) : M unit := fun this tr => Next tt this (tr ++ [e]).

(* BigLime.Utils.SafeInvoke belongs to another library: it calls the function
   when one was supplied and does nothing otherwise. *)
Definition SafeInvoke_complete : M unit :=
  fun this tr =>
    match loadCompleteCb this with
    | Some cb => Next tt this (tr ++ [CompleteCb cb this])
    | None => Next tt this tr
    end.

Definition SafeInvoke_progress (a b : Z) : M unit :=
  fun this tr =>
    match loadProgressCb this with
    | Some cb => Next tt this (tr ++ [ProgressCb cb a b])
    | None => Next tt this tr
    end.

(* The awaited timeout after image z.  Other code runs meanwhile; the one
   interference modelled is a cancellation request, which [cancelAt z]
   tells (it also stands for a progress callback that cancels). *)
Definition pause (cancelAt : Z → bool) (z : Z) : M unit :=
  fun this tr =>
    Next tt (if cancelAt z then setCancelled true this else this) (tr ++ [Pause z]).

(* tooManyComponents = true;  in strict mode, with no such name declared *)
Definition assignUndeclared (js : Engine) (name : string) : M unit :=
  throw (Exception (undeclaredAssignment js name)).

(** ** _onImageLoadingError (lines 226-241) *)

Definition _onImageLoadingError (arg : Thrown) (this : LabelLoader) (tr : list Event)
  : LabelLoader * list Event :=
  if cancelled this || done this then (this, tr)
  else
    let this := setDone true this in
    let this :=
      match arg with
      | ReaderArg fileName => setErrors (Some ("Error loading image " +:+ fileName)) this
      | Exception message =>
          if bool_decide (message = "") then setErrors (Some "Error loading image.") this
          else setErrors (Some message) this
      end in
    match SafeInvoke_complete this tr with
    | Next _ this' tr' => (this', tr')
    | _ => (this, tr)
    end.

(** ** _handleMultiImageTiff (lines 89-218) *)

(* UTIF.decodeImage(fileBytes, ifds[z]) followed by a use of the image:
   an absent entry makes the use throw a TypeError. *)
Definition decodeImage (ifds : list Ifd) (z : Z) : M (Ifd * list Z) :=
  match (if bool_decide (0 ≤ z) then ifds !! Z.to_nat z else None) with
  | None => throw (Exception "Cannot read properties of undefined")
  | Some ifd =>
      match data ifd with
      | inl ex => throw ex
      | inr bytes => ret (ifd, bytes)
      end
  end.

(* Lines 123-128: "Maybe report progress". *)
Definition maybeReportProgress (cancelAt : Z → bool) (z numImgs : Z) : M unit :=
  progressCb <- get loadProgressCb ;;
  match progressCb with
  | Some _ =>
      SafeInvoke_progress z numImgs ;;
      pause cancelAt z ;;
      c <- get cancelled ;;
      if (c : bool) then return_ else ret tt
  | None => ret tt
  end.

(* The loop over z (lines 115-129), with [n] images left.  The array is
   created with numImgs empty slots and slot z is filled in pass z; here it
   grows by one buffer per pass. *)
Fixpoint remapImages (n : nat) (z : Z) (ifds : list Ifd) (numImgs wh : Z)
  (cancelAt : Z → bool) (imgBufferArray : Grid) : M Grid :=
  match n with
  | O => ret imgBufferArray
  | S n' =>
      d <- decodeImage ifds z ;;
      let arr := remapFrame wh d.2 in
      let imgBufferArray := imgBufferArray ++ [arr] in
      maybeReportProgress cancelAt z numImgs ;;
      remapImages n' (z + 1) ifds numImgs wh cancelAt imgBufferArray
  end.

(* Lines 131-195: the labeling pass.  The three scan loops are
   [labelComponents]; the block they run on leaving early at line 185 is
   written out here. *)
Definition labelPhase (js : Engine) (imgWidth imgHeight : Z) (imgBufferArray : Grid)
  : M Grid :=
  match labelComponents imgWidth imgHeight imgBufferArray with
  | inl FuelExhausted => outOfFuel
  | inl (TooMany _ _) =>
      assignUndeclared js "tooManyComponents" ;;
      modify (setErrors (Some "LabelLoader: Volume has too many connected components.")) ;;
      modify (setDone true) ;;
      SafeInvoke_complete ;;
      return_
  | inr (g, compValue) =>
      modify (setNumLabelsFound (compValue - 3)) ;;
      ret g
  end.

(* Lines 197-213: the copy to the volume. *)
Definition uploadPhase (ext : Extern) (imgWidth imgHeight numImgs bpp : Z)
  (imgBufferArray : Grid) : M unit :=
  let dims := [imgWidth; imgHeight; numImgs] in
  emit (VolLoadBegin dims bpp) ;;
  modify (setErrors (vol_loadBegin ext dims bpp)) ;;
  e <- get errors ;;
  if truthy e then
    modify (setDone true) ;;
    SafeInvoke_complete ;;
    return_
  else
    emit (CopyImagesToTexture 0 numImgs imgBufferArray) ;;
    modify (copyImagesToTexture ext imgBufferArray) ;;
    d <- get done ;;
    if negb d then
      modify (setDone true) ;;
      emit VolLoadEnd ;;
      SafeInvoke_complete ;;
      return_
    else ret tt.

(* The body of the try block (lines 98-213). *)
Definition tryBlock (js : Engine) (ext : Extern) (cancelAt : Z → bool)
  (ifds : list Ifd) : M unit :=
  d0 <- decodeImage ifds 0 ;;
  let imgWidth := width d0.1 in
  let imgHeight := height d0.1 in
  let numImgs := Z.of_nat (length ifds) in
  let bpp := t258 d0.1 in
  let wh := imgWidth * imgHeight in
  if bool_decide (bpp ≠ 8) then
    modify (setErrors (Some "LabelLoader: Only 8-bit images are supported.")) ;;
    modify (setDone true) ;;
    SafeInvoke_complete ;;
    return_
  else
    imgBufferArray <- remapImages (length ifds) 0 ifds numImgs wh cancelAt [] ;;
    imgBufferArray <- labelPhase js imgWidth imgHeight imgBufferArray ;;
    uploadPhase ext imgWidth imgHeight numImgs bpp imgBufferArray.

(* [decoded] is what UTIF.decode(fileReader.result) gives; when it throws,
   outside the try block, the handler ends there.  [None] is returned only
   if a flood fill ran out of fuel. *)
Definition _handleMultiImageTiff (js : Engine) (ext : Extern) (cancelAt : Z → bool)
  (decoded : Thrown + list Ifd) (this : LabelLoader) (tr : list Event)
  : option (LabelLoader * list Event) :=
  if cancelled this then Some (this, tr)
  else
    match decoded with
    | inl _ => Some (this, tr)
    | inr ifds =>
        match tryBlock js ext cancelAt ifds this tr with
        | Next _ this' tr' => Some (this', tr')
        | Return this' tr' => Some (this', tr')
        | Throw ex this' tr' => Some (_onImageLoadingError ex this' tr')   (* catch (ex) *)
        | OutOfFuel => None
        end
    end.

(** ** loadImagesIntoVolume (lines 34-81) *)

Definition isFileLike (f : Item) : bool :=
  match f with
  | File _ | FileSystemFileHandle _ => true
  | OtherItem _ => false
  end.

(* Lines 66-79: start reading the first item. *)
Definition startRead (f : Item) : M unit :=
  match f with
  | FileSystemFileHandle _ => emit (GetFile f)
  | _ => emit (ReadAsArrayBuffer f)
  end.

Definition loadImagesIntoVolume (imgFiles : list Item)
  (completionCb progressCb : option Callback) (this : LabelLoader)
  : LabelLoader * list Event :=
  let this := mkLoader imgFiles None None false (cancelled this) 0 completionCb progressCb in
  let body : M unit :=
    (if bool_decide (length (fileList this) = 0%nat) then
       modify (setDone true) ;;
       modify (setWarnings (Some "LabelLoader: No files were loaded, because the supplied file list was empty.")) ;;
       SafeInvoke_complete ;;
       return_
     else ret tt) ;;
    (if existsb (fun f => negb (isFileLike f)) (fileList this) then
       modify (setDone true) ;;
       modify (setErrors (Some "LabelLoader: Invalid item in file list.")) ;;
       SafeInvoke_complete ;;
       return_
     else ret tt) ;;
    SafeInvoke_progress 0 (Z.of_nat (length (fileList this))) ;;
    match fileList this with
    | f :: _ => startRead f
    | [] => ret tt
    end in
  match body this [] with
  | Next _ this' tr | Return this' tr | Throw _ this' tr => (this', tr)
  | OutOfFuel => (this, [])
  end.

(** ** A whole session *)

(* How the read that [loadImagesIntoVolume] started ends. *)
Inductive ReadResult : Type :=
| Loaded (decoded : Thrown + list Ifd)   (* fileReader.onload *)
| ReadFailed                             (* fileReader.onerror *)
| GetFileRejected.                       (* the handle's getFile() promise rejects *)

Definition readStarted (tr : list Event) : bool :=
  existsb (fun e => match e with GetFile _ | ReadAsArrayBuffer _ => true | _ => false end) tr.

(* A load request followed by the end of its read.  [cancelEarly] tells
   whether a cancellation request arrives while the bytes are being read.
   With a handle as first item, fileReader.readAsArrayBuffer is called
   (line 71) once getFile() has given the file, so both onload and onerror
   come after that call; a rejected getFile() comes before it. *)
Definition session (js : Engine) (ext : Extern) (imgFiles : list Item)
  (completionCb progressCb : option Callback) (cancelEarly : bool)
  (cancelAt : Z → bool) (rr : ReadResult) (this : LabelLoader)
  : option (LabelLoader * list Event) :=
  let '(this, tr) := loadImagesIntoVolume imgFiles completionCb progressCb this in
  if negb (readStarted tr) then Some (this, tr)
  else
    let this := if cancelEarly then setCancelled true this else this in
    let trRead := match fileList this with
                  | FileSystemFileHandle n :: _ =>
                      tr ++ [ReadAsArrayBuffer (FileSystemFileHandle n)]
                  | _ => tr
                  end in
    match rr with
    | Loaded decoded => _handleMultiImageTiff js ext cancelAt decoded this trRead
    | ReadFailed => Some (_onImageLoadingError (ReaderArg "") this trRead)
    | GetFileRejected =>
        match fileList this with
        | FileSystemFileHandle _ :: _ => Some (_onImageLoadingError (ReaderArg "") this tr)
        | _ => Some (this, tr)
        end
    end.

(* The calls of the two callbacks in a trace. *)
Definition completionCalls (tr : list Event) : list LabelLoader :=
  omap (fun e => match e with CompleteCb _ this => Some this | _ => None end) tr.

Definition progressCalls (tr : list Event) : list (Z * Z) :=
  omap (fun e => match e with ProgressCb _ a b => Some (a, b) | _ => None end) tr.

Definition pauses (tr : list Event) : list Z :=
  omap (fun e => match e with Pause z => Some z | _ => None end) tr.

(** ** Vocabulary of the specification *)

Definition inBounds (imgWidth imgHeight numImgs : Z) (p : coord) : Prop :=
  let '(x, y, z) := p in
  0 ≤ x < imgWidth ∧ 0 ≤ y < imgHeight ∧ 0 ≤ z < numImgs.

(* (dz,dy,dx) in {-1,0,1}³; the offset (0,0,0) is not excluded. *)
Definition adjacent (p q : coord) : Prop :=
  let '(x, y, z) := p in
  let '(x', y', z') := q in
  -1 ≤ x' - x ≤ 1 ∧ -1 ≤ y' - y ≤ 1 ∧ -1 ≤ z' - z ≤ 1.

(* A voxel of the grid that holds Foreground. *)
Definition isFg (imgWidth imgHeight : Z) (g : Grid) (p : coord) : Prop :=
  inBounds imgWidth imgHeight (numImgsOf g) p ∧ getVoxel imgWidth g p = Some foreground.

Definition fgStep (imgWidth imgHeight : Z) (g : Grid) (p q : coord) : Prop :=
  adjacent p q ∧ isFg imgWidth imgHeight g q.

(* [q] lies in the maximal 26-connected Foreground region of [p]. *)
Definition sameRegion (imgWidth imgHeight : Z) (g : Grid) (p q : coord) : Prop :=
  isFg imgWidth imgHeight g p ∧ rtc (fgStep imgWidth imgHeight g) p q.

(* The order of the scan: z, then y, then x. *)
Definition scannedBefore (p q : coord) : Prop :=
  let '(x, y, z) := p in
  let '(x', y', z') := q in
  z < z' ∨ (z = z' ∧ (y < y' ∨ (y = y' ∧ x < x'))).

(* A voxel that the labeling pass has given a component value. *)
Definition labelled (imgWidth imgHeight : Z) (g0 g : Grid) (p : coord) : Prop :=
  isFg imgWidth imgHeight g0 p ∧ getVoxel imgWidth g p ≠ Some foreground.

(* The buffer entry a coordinate addresses. *)
Definition cellOf (imgWidth : Z) (p : coord) : Z * Z :=
  let '(x, y, z) := p in (z, y * imgWidth + x).

(* The coordinates the three neighbour loops probe, in the order they do. *)
Definition probeAt (imgWidth : Z) (st : FillState) (p : coord) : FillState :=
  let '(xp, yp, zp) := p in probe imgWidth st xp yp zp.

Definition rowNeighbours (imgWidth : Z) (seedX yp zp : Z) : list coord :=
  (if bool_decide (seedX - 1 >= 0) then [(seedX - 1, yp, zp)] else [])
  ++ [(seedX, yp, zp)]
  ++ (if bool_decide (seedX + 1 < imgWidth) then [(seedX + 1, yp, zp)] else []).

Definition planeNeighbours (imgWidth imgHeight : Z) (seedX seedY zp : Z) : list coord :=
  mbind (M := list) (fun dy =>
           let yp := seedY + dy in
           if bool_decide (yp < 0 ∨ yp >= imgHeight) then []
           else rowNeighbours imgWidth seedX yp zp)
        [-1; 0; 1].

Definition neighbours (imgWidth imgHeight numImgs : Z) (seed : coord) : list coord :=
  let '(seedX, seedY, seedZ) := seed in
  mbind (M := list) (fun dz =>
           let zp := seedZ + dz in
           if bool_decide (zp < 0 ∨ zp >= numImgs) then []
           else planeNeighbours imgWidth imgHeight seedX seedY zp)
        [-1; 0; 1].

(* The coordinates one pass of the while loop pushes, last pushed first. *)
Definition stepPushes (imgWidth imgHeight compValue : Z) (g : Grid) (seed : coord)
  : list coord :=
  (fillStep imgWidth imgHeight compValue g seed []).2.

(* Every push of a fill, from its first pass on, in the order of the passes. *)
Fixpoint fillPushes (fuel : nat) (imgWidth imgHeight compValue : Z) (st : FillState)
  : list coord :=
  match st.2 with
  | [] => []
  | seed :: rest =>
      match fuel with
      | O => []
      | S fuel' =>
          stepPushes imgWidth imgHeight compValue st.1 seed
          ++ fillPushes fuel' imgWidth imgHeight compValue
               (fillStep imgWidth imgHeight compValue st.1 seed rest)
      end
  end.

(* The state in which line 142 is first reached: the start voxel is marked
   (line 139) and is the only worklist entry (line 140). *)
Definition startFill (imgWidth : Z) (g : Grid) (p : coord) : FillState :=
  (setVoxel imgWidth g p seedVal, [p]).

(* Buffer entries addressed by image and index. *)
Definition getCell (g : Grid) (k : Z * Z) : option Z :=
  match plane g k.1 with
  | Some buf => readPx buf k.2
  | None => None
  end.

Definition setCell (g : Grid) (k : Z * Z) (v : Z) : Grid :=
  match plane g k.1 with
  | Some buf => <[Z.to_nat k.1 := writePx buf k.2 v]> g
  | None => g
  end.

(* What probing the coordinates of [L] in turn does to a grid [g]: it gives
   [g'] and pushes [new] (head pushed last). *)
Definition probed (W : Z) (L : list coord) (g g' : Grid) (new : list coord) : Prop :=
  length g' = length g
  ∧ (countFg g' + length new = countFg g)%nat
  ∧ NoDup new
  ∧ (∀ q, q ∈ new → q ∈ L ∧ getVoxel W g q = Some foreground
                    ∧ getVoxel W g' q = Some seedVal)
  ∧ (∀ k, getCell g' k = getCell g k
          ∨ (getCell g k = Some foreground ∧ getCell g' k = Some seedVal
             ∧ ∃ q, q ∈ new ∧ cellOf W q = k))
  ∧ (∀ q, q ∈ L → getVoxel W g' q ≠ Some foreground).

(* The invariant of the while loop, for the fill that starts at [s] in the
   grid [g0] (the grid as line 138 finds it) with component value [c]. *)
Definition fillInv (W H : Z) (g0 : Grid) (s : coord) (c : Z) (st : FillState) : Prop :=
  let '(g, seeds) := st in
  length g = length g0
  ∧ NoDup seeds
  ∧ (∀ q, inBounds W H (numImgsOf g0) q → ¬ isFg W H g0 q →
          getVoxel W g q = getVoxel W g0 q)
  ∧ (∀ q, isFg W H g0 q →
          getVoxel W g q = Some foreground ∨ getVoxel W g q = Some seedVal
          ∨ getVoxel W g q = Some c)
  ∧ (∀ q, q ∈ seeds ↔ isFg W H g0 q ∧ getVoxel W g q = Some seedVal)
  ∧ (∀ q, isFg W H g0 q → getVoxel W g q ≠ Some foreground →
          rtc (fgStep W H g0) s q)
  ∧ (∀ q r, isFg W H g0 q → getVoxel W g q = Some c → adjacent q r →
            isFg W H g0 r → getVoxel W g r ≠ Some foreground)
  ∧ getVoxel W g s ≠ Some foreground.

(* What holds of the grid [g] and the counter [c] between two voxels of the
   scan, [G0] being the grid the scan started from and [pos] the voxel the
   scan examines next. *)
Definition labelInv (W H : Z) (G0 : Grid) (pos : coord) (st : ScanState) : Prop :=
  let '(g, c) := st in
  length g = length G0
  ∧ 3 ≤ c ≤ 255
  ∧ (∀ q, inBounds W H (numImgsOf G0) q → ¬ isFg W H G0 q →
          getVoxel W g q = getVoxel W G0 q)
  ∧ (∀ q, isFg W H G0 q →
          getVoxel W g q = Some foreground
          ∨ ∃ k, 3 ≤ k < c ∧ getVoxel W g q = Some k)
  ∧ (∀ p q, isFg W H G0 p → getVoxel W g p ≠ Some foreground →
            rtc (fgStep W H G0) p q → getVoxel W g q = getVoxel W g p)
  ∧ (∀ p q, isFg W H G0 p → isFg W H G0 q → getVoxel W g p ≠ Some foreground →
            getVoxel W g p = getVoxel W g q → rtc (fgStep W H G0) p q)
  ∧ (∀ q, isFg W H G0 q → getVoxel W g q ≠ Some foreground →
          ∃ r, rtc (fgStep W H G0) q r ∧ scannedBefore r pos)
  ∧ (∀ p q kp kq, isFg W H G0 p → isFg W H G0 q →
                  getVoxel W g p = Some kp → getVoxel W g q = Some kq →
                  kp ≠ foreground → kq ≠ foreground →
                  (∀ q', rtc (fgStep W H G0) q q' → scannedBefore p q') →
                  kp < kq)
  ∧ (∀ k, 3 ≤ k < c → ∃ q, isFg W H G0 q ∧ getVoxel W g q = Some k).

(* The invariant of the three scan loops. *)
Definition scanInv (W H : Z) (G0 : Grid) (pos : coord) (st : ScanState) : Prop :=
  labelInv W H G0 pos st
  ∧ st.2 < 255
  ∧ (∀ q, isFg W H G0 q → scannedBefore q pos →
          getVoxel W st.1 q ≠ Some foreground).

(* What holds when the scan is left, at its end or at line 185. *)
Definition scanPost (W H : Z) (G0 : Grid) (r : ScanExit + ScanState) : Prop :=
  match r with
  | inr st => scanInv W H G0 (0, 0, numImgsOf G0) st
  | inl (TooMany g c) => c = 255 ∧ ∃ pos, labelInv W H G0 pos (g, c)
  | inl FuelExhausted => False
  end.

(* What the component values in a grid [g] look like, [G0] being the grid
   the scan started from and [c] the counter: every labelled voxel holds a
   value from 3 up to, but not including, [c], and below the seed value;
   two Foreground voxels hold the same value exactly when one region contains
   both; a region that the scan meets later holds a larger value; and voxels
   that were not Foreground are as they were. *)
Definition idsSpec (W H : Z) (G0 g : Grid) (c : Z) : Prop :=
  (∀ p, labelled W H G0 g p →
        ∃ k, getVoxel W g p = Some k ∧ 3 ≤ k < c ∧ k < seedVal)
  ∧ (∀ p q, labelled W H G0 g p → isFg W H G0 q →
            getVoxel W g q = getVoxel W g p ↔ sameRegion W H G0 p q)
  ∧ (∀ p q kp kq, labelled W H G0 g p → labelled W H G0 g q →
                  getVoxel W g p = Some kp → getVoxel W g q = Some kq →
                  (∀ q', sameRegion W H G0 q q' → scannedBefore p q') →
                  kp < kq)
  ∧ (∀ p, inBounds W H (numImgsOf G0) p → ¬ isFg W H G0 p →
          getVoxel W g p = getVoxel W G0 p).



(* Two grids with the same contents: as many images, and the same value
   at every voxel.  What a buffer holds past its width by height entries is
   not compared. *)
Definition agree (W H : Z) (g1 g2 : Grid) : Prop :=
  length g1 = length g2
  ∧ ∀ p, inBounds W H (numImgsOf g1) p → getVoxel W g1 p = getVoxel W g2 p.

(* Two scans that ended alike: at the same place, with the same counter and
   the same contents. *)
Definition sameScan (W H : Z) (r1 r2 : ScanExit + ScanState) : Prop :=
  match r1, r2 with
  | inr (g1, c1), inr (g2, c2) => c1 = c2 ∧ agree W H g1 g2
  | inl (TooMany g1 c1), inl (TooMany g2 c2) => c1 = c2 ∧ agree W H g1 g2
  | _, _ => False
  end.

(* Two scans in step: the same counter, grids of the same contents. *)
Definition inStep (W H : Z) (n : nat) (st1 st2 : ScanState) : Prop :=
  st1.2 = st2.2 ∧ 3 ≤ st1.2 < 255 ∧ length st1.1 = n ∧ agree W H st1.1 st2.1.

Definition inStepResult (W H : Z) (n : nat) (r1 r2 : ScanExit + ScanState) : Prop :=
  match r1, r2 with
  | inr st1, inr st2 => inStep W H n st1 st2
  | inl e1, inl e2 => sameScan W H (inl e1) (inl e2)
  | _, _ => False
  end.

Definition isByte (v : Z) : Prop := 0 ≤ v < 256.


(* A loader on which nothing has happened yet, and collaborators that
   accept everything; used to run the model on examples. *)
Definition freshLoader : LabelLoader := mkLoader [] None None false false 0 None None.
Definition acceptingExtern : Extern := mkExtern (fun _ _ => None) (fun _ this => this).

(* One image row with [n] single-voxel Foreground blobs, no two adjacent:
   raw code 1 (Foreground) and raw code 0 (Background) in turn. *)
Definition blobRow (n : nat) : list Z := mjoin (replicate n [1; 0]).

(* The items a trace asks the host to read. *)
Definition readItems (tr : list Event) : list Item :=
  omap (fun e => match e with
                 | GetFile i | ReadAsArrayBuffer i => Some i
                 | _ => None
                 end) tr.

(* The events of the loop over the images: progress reports and pauses. *)
Definition remapEvent (e : Event) : Prop :=
  match e with
  | ProgressCb _ _ _ | Pause _ => True
  | _ => False
  end.

(* The progress report and the pause of each of [n] images from image [z]
   on, when a progress callback was given. *)
Definition reportEvents (progressCb : option Callback) (numImgs z : Z) (n : nat)
  : list Event :=
  match progressCb with
  | Some cb =>
      mbind (M := list) (fun z => [ProgressCb cb z numImgs; Pause z]) (seqZ z (Z.of_nat n))
  | None => []
  end.

(* The call that SafeInvoke makes of the completion callback of a loader. *)
Definition completeEvents (this : LabelLoader) : list Event :=
  match loadCompleteCb this with
  | Some cb => [CompleteCb cb this]
  | None => []
  end.

(* The error text that _onImageLoadingError sets for its argument. *)
Definition errorText (arg : Thrown) : string :=
  match arg with
  | ReaderArg fileName => "Error loading image " +:+ fileName
  | Exception message =>
      if bool_decide (message = "") then "Error loading image." else message
  end.

(* A trace without a completion call, or one that ends with the one
   completion call it holds, made with the loader [this'] marked done. *)
Definition completesAtMostOnce (this' : LabelLoader) (tr : list Event) : Prop :=
  completionCalls tr = []
  ∨ ∃ tr0 cb, tr = tr0 ++ [CompleteCb cb this'] ∧ completionCalls tr0 = []
              ∧ done this' = true.

(* What a load request with a valid list of [n] items, the first of them
   [f], adds to the trace: the first progress report and the start of the
   read of [f]. *)
Definition requestEvents (progressCb : option Callback) (f : Item) (n : nat)
  : list Event :=
  match progressCb with
  | Some cb => [ProgressCb cb 0 (Z.of_nat n)]
  | None => []
  end
  ++ [match f with
      | FileSystemFileHandle _ => GetFile f
      | _ => ReadAsArrayBuffer f
      end].

(* The read that follows a handle's getFile(). *)
Definition loadedEvents (f : Item) : list Event :=
  match f with
  | FileSystemFileHandle _ => [ReadAsArrayBuffer f]
  | _ => []
  end.

(* Closes a goal by the arithmetic of the four pixel constants. *)
Ltac vals :=
  simplify_eq; unfold foreground, seedVal, background, unlabeled in *; lia.

(** * Properties *)

(** ** Buffers and cells *)

Lemma getVoxel_cell W g p : getVoxel W g p = getCell g (cellOf W p).
Proof. by destruct p as [[x y] z]. Qed.

Lemma setVoxel_cell W g p v : setVoxel W g p v = setCell g (cellOf W p) v.
Proof. by destruct p as [[x y] z]. Qed.

Lemma readPx_Some arr i a :
  readPx arr i = Some a ↔ 0 ≤ i ∧ arr !! Z.to_nat i = Some a.
Proof. unfold readPx. case_bool_decide; [tauto|]. split; [done|tauto]. Qed.

Lemma plane_Some g z buf :
  plane g z = Some buf ↔ 0 ≤ z ∧ g !! Z.to_nat z = Some buf.
Proof. unfold plane. case_bool_decide; [tauto|]. split; [done|tauto]. Qed.

Lemma getCell_Some g k a :
  getCell g k = Some a ↔
  ∃ buf, 0 ≤ k.1 ∧ g !! Z.to_nat k.1 = Some buf ∧ 0 ≤ k.2 ∧ buf !! Z.to_nat k.2 = Some a.
Proof.
  unfold getCell. split.
  - destruct (plane g k.1) as [buf|] eqn:Hp; [|done].
    intros Hr. apply plane_Some in Hp as [? ?]. apply readPx_Some in Hr as [? ?].
    by exists buf.
  - intros (buf & ? & Hg & ? & Hb).
    assert (plane g k.1 = Some buf) as -> by (by apply plane_Some).
    by apply readPx_Some.
Qed.

Lemma setCell_length g k v : length (setCell g k v) = length g.
Proof. unfold setCell. destruct (plane g k.1); [apply length_insert|done]. Qed.

Lemma setCell_None g k v : getCell g k = None → setCell g k v = g.
Proof.
  unfold getCell, setCell. destruct (plane g k.1) as [buf|] eqn:Hp; [|done].
  apply plane_Some in Hp as [? Hg]. intros Hr.
  apply list_insert_id. rewrite Hg. f_equal.
  unfold readPx, writePx in *. case_bool_decide; [|done].
  symmetry. apply list_insert_ge. by apply lookup_ge_None.
Qed.

Lemma getCell_setCell_eq g k v a :
  getCell g k = Some a → getCell (setCell g k v) k = Some (toUint8 v).
Proof.
  intros (buf & ? & Hg & ? & Hb)%getCell_Some. apply getCell_Some.
  unfold setCell. assert (plane g k.1 = Some buf) as -> by (by apply plane_Some).
  exists (writePx buf k.2 v). split_and!; [done| |done|].
  - apply list_lookup_insert_eq. by eapply lookup_lt_Some.
  - unfold writePx. rewrite bool_decide_eq_true_2 by done.
    apply list_lookup_insert_eq. by eapply lookup_lt_Some.
Qed.

Lemma getCell_setCell_ne g k k' v :
  k ≠ k' → getCell (setCell g k v) k' = getCell g k'.
Proof.
  intros Hne. unfold setCell.
  destruct (plane g k.1) as [buf|] eqn:Hp; [|done].
  apply plane_Some in Hp as [? Hg].
  unfold getCell, plane. case_bool_decide; [|done].
  destruct (decide (k.1 = k'.1)) as [Heq|Hz].
  - rewrite <- Heq. rewrite list_lookup_insert_eq by (by eapply lookup_lt_Some).
    rewrite Hg. unfold readPx, writePx.
    case_bool_decide; [|done]. case_bool_decide; [|done].
    apply list_lookup_insert_ne. destruct k, k'; simpl in *. intros ?. apply Hne.
    f_equal; lia.
  - rewrite list_lookup_insert_ne; [done|]. lia.
Qed.

Lemma cellOf_inj W H D p q :
  inBounds W H D p → inBounds W H D q → cellOf W p = cellOf W q → p = q.
Proof.
  destruct p as [[x y] z], q as [[x' y'] z']. simpl.
  intros (? & ? & ?) (? & ? & ?) [= -> Hi].
  assert (y = y') by nia. subst. f_equal. f_equal. lia.
Qed.

(** ** Counting Foreground entries *)

Lemma filter_insert_length (P : Z → Prop) `{!∀ x, Decision (P x)} (l : list Z) i a v :
  l !! i = Some a →
  (length (filter P (<[i:=v]> l)) + (if decide (P a) then 1 else 0)
   = length (filter P l) + (if decide (P v) then 1 else 0))%nat.
Proof.
  revert i. induction l as [|b l IH]; intros [|i] Hl; simplify_eq/=.
  - rewrite !filter_cons. destruct (decide (P v)), (decide (P a)); simpl; lia.
  - specialize (IH _ Hl). rewrite !filter_cons. destruct (decide (P b)); simpl; lia.
Qed.

Lemma sum_list_insert (f : list Z → nat) (g : Grid) i a b :
  g !! i = Some a →
  (sum_list (map f (<[i:=b]> g)) + f a = sum_list (map f g) + f b)%nat.
Proof.
  revert i. induction g as [|d g IH]; intros [|i] Hl; simplify_eq/=; [lia|].
  specialize (IH _ Hl). lia.
Qed.

Lemma countFg_setCell g k v a :
  getCell g k = Some a →
  (countFg (setCell g k v) + (if decide (a = foreground) then 1 else 0)
   = countFg g + (if decide (toUint8 v = foreground) then 1 else 0))%nat.
Proof.
  intros (buf & ? & Hg & ? & Hb)%getCell_Some.
  unfold setCell, countFg.
  assert (plane g k.1 = Some buf) as -> by (by apply plane_Some).
  unfold writePx. rewrite bool_decide_eq_true_2 by done.
  pose proof (sum_list_insert
    (fun buf => length (filter (fun v => v = foreground) buf)) g _ _
    (<[Z.to_nat k.2:=toUint8 v]> buf) Hg) as Hs.
  pose proof (filter_insert_length (fun v => v = foreground) buf _ _ (toUint8 v) Hb).
  lia.
Qed.

Lemma countFg_setCell_le g k v :
  toUint8 v ≠ foreground → (countFg (setCell g k v) ≤ countFg g)%nat.
Proof.
  intros Hv. destruct (getCell g k) as [a|] eqn:Ha.
  - pose proof (countFg_setCell g k v a Ha). repeat case_decide; try done; lia.
  - by rewrite setCell_None.
Qed.

(** ** Probing a list of coordinates *)

Lemma probeAt_eq W g seeds p :
  probeAt W (g, seeds) p
  = if bool_decide (getVoxel W g p = Some foreground)
    then (setVoxel W g p seedVal, p :: seeds) else (g, seeds).
Proof. by destruct p as [[x y] z]. Qed.

Lemma probes_spec W L g :
  ∃ g' new, probed W L g g' new
            ∧ ∀ seeds, foldl (probeAt W) (g, seeds) L = (g', new ++ seeds).
Proof.
  revert g. induction L as [|p L IH]; intros g.
  { exists g, []. split; [|done]. unfold probed. split_and!; try done.
    - constructor.
    - intros q Hq. by apply elem_of_nil in Hq.
    - by left.
    - intros q Hq. by apply elem_of_nil in Hq. }
  destruct (decide (getVoxel W g p = Some foreground)) as [Hfg|Hfg].
  - (* the probe pushes p *)
    set (g1 := setVoxel W g p seedVal).
    destruct (IH g1) as (g' & new & (Hlen & Hcnt & Hnd & Hnew & Hfr & HL) & Hfold).
    assert (Hp1 : getCell g1 (cellOf W p) = Some seedVal).
    { unfold g1. rewrite setVoxel_cell. rewrite getVoxel_cell in Hfg.
      by rewrite (getCell_setCell_eq _ _ _ _ Hfg). }
    assert (Hp' : getCell g' (cellOf W p) = Some seedVal).
    { destruct (Hfr (cellOf W p)) as [->|(Hc & _)]; [done|].
      rewrite Hp1 in Hc. discriminate. }
    assert (Hpnew : p ∉ new).
    { intros Hin. destruct (Hnew _ Hin) as (_ & Hc & _).
      rewrite getVoxel_cell, Hp1 in Hc. discriminate. }
    exists g', (new ++ [p]). split.
    2:{ intros seeds. simpl. rewrite probeAt_eq, bool_decide_eq_true_2 by done.
        fold g1. by rewrite Hfold, <- app_assoc. }
    unfold probed. split_and!.
    + rewrite Hlen. unfold g1. rewrite setVoxel_cell. apply setCell_length.
    + rewrite length_app. simpl.
      rewrite getVoxel_cell in Hfg.
      pose proof (countFg_setCell g (cellOf W p) seedVal _ Hfg) as Hc.
      rewrite <- setVoxel_cell in Hc. fold g1 in Hc.
      rewrite decide_True in Hc by done.
      rewrite decide_False in Hc by (by compute). lia.
    + apply NoDup_app. split_and!; [done| |apply NoDup_singleton].
      intros q Hq ->%list_elem_of_singleton. done.
    + intros q [Hq| ->%list_elem_of_singleton]%elem_of_app.
      * destruct (Hnew _ Hq) as (HqL & Hq1 & Hq').
        split_and!; [by right| |done].
        rewrite getVoxel_cell in Hq1 |- *.
        destruct (decide (cellOf W p = cellOf W q)) as [Heq|Hne].
        -- rewrite <- Heq, Hp1 in Hq1. discriminate.
        -- unfold g1 in Hq1. rewrite setVoxel_cell in Hq1.
           by rewrite getCell_setCell_ne in Hq1.
      * split_and!; [by left|done|by rewrite getVoxel_cell].
    + intros k. destruct (decide (cellOf W p = k)) as [<-|Hne].
      * right. rewrite <- getVoxel_cell. split_and!; [done|done|].
        exists p. split; [|done]. apply elem_of_app. right. by left.
      * destruct (Hfr k) as [Heq|(Hk1 & Hk' & q & Hq & Hqk)].
        -- left. rewrite Heq. unfold g1. rewrite setVoxel_cell.
           by apply getCell_setCell_ne.
        -- right. split_and!; [|done|].
           ++ unfold g1 in Hk1. rewrite setVoxel_cell in Hk1.
              by rewrite getCell_setCell_ne in Hk1.
           ++ exists q. split; [|done]. apply elem_of_app. by left.
    + intros q [->|Hq]%elem_of_cons.
      * rewrite getVoxel_cell, Hp'. discriminate.
      * by apply HL.
  - (* the probe leaves the state as it is *)
    destruct (IH g) as (g' & new & (Hlen & Hcnt & Hnd & Hnew & Hfr & HL) & Hfold).
    exists g', new. split.
    2:{ intros seeds. simpl. rewrite probeAt_eq, bool_decide_eq_false_2 by done.
        apply Hfold. }
    unfold probed. split_and!; try done.
    + intros q Hq. destruct (Hnew _ Hq) as (? & ? & ?). split_and!; [by right|done|done].
    + intros q [->|Hq]%elem_of_cons; [|by apply HL].
      rewrite getVoxel_cell in Hfg |- *.
      destruct (Hfr (cellOf W p)) as [->|(Hc & _)]; [done|]. done.
Qed.

Lemma probed_mono W L g g' new q :
  probed W L g g' new →
  getVoxel W g q ≠ Some foreground → getVoxel W g' q ≠ Some foreground.
Proof.
  intros (_ & _ & _ & _ & Hfr & _) Hq. rewrite getVoxel_cell in Hq |- *.
  destruct (Hfr (cellOf W q)) as [->|(_ & -> & _)]; [done|discriminate].
Qed.

(** ** The neighbour loops probe [neighbours] *)

Lemma visitRow_eq W st seedX yp zp :
  visitRow W st seedX yp zp = foldl (probeAt W) st (rowNeighbours W seedX yp zp).
Proof.
  unfold visitRow, rowNeighbours. repeat case_bool_decide; reflexivity.
Qed.

Lemma visitPlane_eq W H st seedX seedY zp :
  visitPlane W H st seedX seedY zp
  = foldl (probeAt W) st (planeNeighbours W H seedX seedY zp).
Proof.
  unfold visitPlane, planeNeighbours. simpl. rewrite !foldl_app. simpl.
  repeat case_bool_decide; simpl; rewrite ?visitRow_eq; reflexivity.
Qed.

Lemma visitNeighbours_eq W H D st seed :
  visitNeighbours W H D st seed = foldl (probeAt W) st (neighbours W H D seed).
Proof.
  destruct seed as [[seedX seedY] seedZ].
  unfold visitNeighbours, neighbours. simpl. rewrite !foldl_app. simpl.
  repeat case_bool_decide; simpl; rewrite ?visitPlane_eq; reflexivity.
Qed.

Lemma elem_of_rowNeighbours W seedX yp zp q :
  q ∈ rowNeighbours W seedX yp zp ↔
  ∃ x, q = (x, yp, zp) ∧ -1 ≤ x - seedX ≤ 1
       ∧ (x = seedX - 1 → 0 ≤ x) ∧ (x = seedX + 1 → x < W).
Proof.
  unfold rowNeighbours. rewrite !elem_of_app, list_elem_of_singleton. split.
  - intros [Hq|[->|Hq]].
    + case_bool_decide; [|by apply elem_of_nil in Hq].
      apply list_elem_of_singleton in Hq as ->. eexists. split; [done|lia].
    + eexists. split; [done|lia].
    + case_bool_decide; [|by apply elem_of_nil in Hq].
      apply list_elem_of_singleton in Hq as ->. eexists. split; [done|lia].
  - intros (x & -> & Hx & Hl & Hr).
    destruct (decide (x = seedX - 1)) as [->|]; [left|].
    { rewrite bool_decide_eq_true_2 by lia. by left. }
    destruct (decide (x = seedX)) as [->|]; [by right; left|].
    right; right. assert (x = seedX + 1) as -> by lia.
    rewrite bool_decide_eq_true_2 by lia. by left.
Qed.

Lemma elem_of_planeNeighbours W H seedX seedY zp q :
  q ∈ planeNeighbours W H seedX seedY zp ↔
  ∃ x y, q = (x, y, zp) ∧ -1 ≤ x - seedX ≤ 1 ∧ -1 ≤ y - seedY ≤ 1
         ∧ 0 ≤ y < H ∧ (x = seedX - 1 → 0 ≤ x) ∧ (x = seedX + 1 → x < W).
Proof.
  unfold planeNeighbours. rewrite list_elem_of_bind. split.
  - intros (dy & Hq & Hdy). case_bool_decide; [by apply elem_of_nil in Hq|].
    apply elem_of_rowNeighbours in Hq as (x & -> & ? & ? & ?).
    exists x, (seedY + dy). split; [done|].
    apply list_elem_of_In in Hdy. simpl in Hdy. lia.
  - intros (x & y & -> & ? & ? & ? & ? & ?). exists (y - seedY). split.
    + rewrite bool_decide_eq_false_2 by lia. apply elem_of_rowNeighbours.
      exists x. split; [f_equal; f_equal; lia|]. lia.
    + apply list_elem_of_In. simpl. lia.
Qed.

Lemma elem_of_neighbours W H D seed q :
  inBounds W H D seed →
  q ∈ neighbours W H D seed ↔ adjacent seed q ∧ inBounds W H D q.
Proof.
  destruct seed as [[seedX seedY] seedZ]. intros (Hx & Hy & Hz).
  unfold neighbours. rewrite list_elem_of_bind. split.
  - intros (dz & Hq & Hdz). case_bool_decide; [by apply elem_of_nil in Hq|].
    apply elem_of_planeNeighbours in Hq as (x & y & -> & ? & ? & ? & ? & ?).
    apply list_elem_of_In in Hdz. simpl in Hdz |- *. lia.
  - destruct q as [[x y] z]. simpl. intros ((? & ? & ?) & (? & ? & ?)).
    exists (z - seedZ). split.
    + rewrite bool_decide_eq_false_2 by lia. apply elem_of_planeNeighbours.
      exists x, y. split; [f_equal; lia|]. lia.
    + apply list_elem_of_In. simpl. lia.
Qed.

(** ** One pass of the while loop *)

Lemma fillStep_spec W H c g seed :
  ∃ g' new,
    probed W (neighbours W H (numImgsOf g) seed) (setVoxel W g seed c) g' new
    ∧ stepPushes W H c g seed = new
    ∧ ∀ rest, fillStep W H c g seed rest = (g', new ++ rest).
Proof.
  destruct (probes_spec W (neighbours W H (numImgsOf g) seed) (setVoxel W g seed c))
    as (g' & new & Hp & Hfold).
  exists g', new. split; [done|].
  unfold stepPushes, fillStep. split.
  - rewrite visitNeighbours_eq, Hfold. simpl. apply app_nil_r.
  - intros rest. by rewrite visitNeighbours_eq, Hfold.
Qed.

(** ** The while loop terminates *)

Lemma floodFill_terminates W H c fuel :
  toUint8 c ≠ foreground →
  ∀ g seeds, (length seeds + 2 * countFg g ≤ fuel)%nat →
             ∃ g', floodFill fuel W H c (g, seeds) = Some (g', []).
Proof.
  intros Hc. induction fuel as [|fuel IH]; intros g seeds Hfuel.
  - destruct seeds; simpl in *; [by exists g|lia].
  - destruct seeds as [|seed rest]; [by exists g|]. simpl.
    destruct (fillStep_spec W H c g seed) as (g' & new & Hp & _ & ->).
    destruct Hp as (_ & Hcnt & _).
    pose proof (countFg_setCell_le g (cellOf W seed) c Hc) as Hle.
    rewrite <- setVoxel_cell in Hle.
    apply IH. rewrite length_app. simpl in Hfuel. lia.
Qed.

(** ** No coordinate is pushed twice *)

Lemma setVoxel_mono W g p c q :
  toUint8 c ≠ foreground →
  getVoxel W g q ≠ Some foreground → getVoxel W (setVoxel W g p c) q ≠ Some foreground.
Proof.
  intros Hc Hq. rewrite setVoxel_cell, !getVoxel_cell in *.
  destruct (decide (cellOf W p = cellOf W q)) as [Heq|Hne].
  - rewrite <- Heq in *. destruct (getCell g (cellOf W p)) as [a|] eqn:Ha.
    + rewrite (getCell_setCell_eq _ _ _ _ Ha). congruence.
    + by rewrite setCell_None, Ha.
  - by rewrite getCell_setCell_ne.
Qed.

Lemma fillPushes_NoDup W H c fuel :
  toUint8 c ≠ foreground →
  ∀ g seeds past,
    NoDup past →
    (∀ q, q ∈ past → getVoxel W g q ≠ Some foreground) →
    NoDup (past ++ fillPushes fuel W H c (g, seeds)).
Proof.
  intros Hc. induction fuel as [|fuel IH]; intros g seeds past Hnd Hpast.
  - destruct seeds; simpl; by rewrite app_nil_r.
  - destruct seeds as [|seed rest]; simpl; [by rewrite app_nil_r|].
    destruct (fillStep_spec W H c g seed) as (g' & new & Hp & -> & ->).
    rewrite app_assoc. apply IH.
    + apply NoDup_app. split_and!; [done| |apply Hp].
      intros q Hq Hq'. destruct Hp as (_ & _ & _ & Hnew & _).
      destruct (Hnew _ Hq') as (_ & Hfg & _).
      by apply (setVoxel_mono W g seed c q Hc (Hpast _ Hq)).
    + intros q [Hq|Hq]%elem_of_app.
      * eapply probed_mono; [done|]. by apply setVoxel_mono, Hpast.
      * destruct Hp as (_ & _ & _ & Hnew & _).
        destruct (Hnew _ Hq) as (_ & _ & ->). discriminate.
Qed.

(** ** In-bounds coordinates address distinct entries *)

Lemma getVoxel_setVoxel_inb W H D g p q v a :
  inBounds W H D p → inBounds W H D q → getVoxel W g p = Some a →
  getVoxel W (setVoxel W g p v) q
  = if decide (p = q) then Some (toUint8 v) else getVoxel W g q.
Proof.
  intros Hp Hq Ha. rewrite setVoxel_cell, !getVoxel_cell in *.
  case_decide as Heq.
  - subst q. by eapply getCell_setCell_eq.
  - apply getCell_setCell_ne. intros Hk. apply Heq. by eapply cellOf_inj.
Qed.

Lemma probed_inb W H D L g g' new :
  probed W L g g' new →
  (∀ q, q ∈ L → inBounds W H D q) →
  ∀ q, inBounds W H D q →
       (q ∈ new ∧ getVoxel W g q = Some foreground ∧ getVoxel W g' q = Some seedVal)
       ∨ ((q ∉ new) ∧ getVoxel W g' q = getVoxel W g q).
Proof.
  intros (_ & _ & _ & Hnew & Hfr & _) HL q Hq.
  destruct (decide (q ∈ new)) as [Hin|Hin].
  - left. destruct (Hnew _ Hin) as (_ & ? & ?). done.
  - right. split; [done|]. rewrite !getVoxel_cell.
    destruct (Hfr (cellOf W q)) as [->|(_ & _ & q' & Hq' & Hk)]; [done|].
    destruct (Hnew _ Hq') as (HqL & _). apply HL in HqL.
    assert (q' = q) as -> by (by eapply cellOf_inj). done.
Qed.

Lemma toUint8_small c : 0 ≤ c < 256 → toUint8 c = c.
Proof. intros. unfold toUint8. by apply Z.mod_small. Qed.

Lemma adjacent_sym p q : adjacent p q → adjacent q p.
Proof. destruct p as [[? ?] ?], q as [[? ?] ?]. simpl. lia. Qed.

(** ** The invariant of the while loop *)

Lemma fillInv_start W H g0 s c :
  isFg W H g0 s → 3 ≤ c < 255 → fillInv W H g0 s c (startFill W g0 s).
Proof.
  intros [Hsb Hs] Hc. unfold fillInv, startFill.
  assert (Hget : ∀ q, inBounds W H (numImgsOf g0) q →
            getVoxel W (setVoxel W g0 s seedVal) q
            = if decide (s = q) then Some seedVal else getVoxel W g0 q).
  { intros q Hq. by rewrite (getVoxel_setVoxel_inb W H _ g0 s q seedVal _ Hsb Hq Hs). }
  split_and!.
  - rewrite setVoxel_cell. apply setCell_length.
  - apply NoDup_singleton.
  - intros q Hq Hnfg. rewrite Hget by done. case_decide; [|done].
    subst q. destruct Hnfg. by split.
  - intros q [Hq Hfg]. rewrite Hget by done. case_decide; [by right; left|by left].
  - intros q. rewrite list_elem_of_singleton. split.
    + intros ->. split; [by split|]. rewrite Hget by done. by rewrite decide_True.
    + intros [[Hq Hfg] H255]. rewrite Hget in H255 by done.
      case_decide; [done|]. rewrite Hfg in H255. discriminate.
  - intros q [Hq Hfg] Hn. rewrite Hget in Hn by done.
    case_decide; [by subst|done].
  - intros q r [Hq Hfg] Hqc. rewrite Hget in Hqc by done.
    case_decide; [|rewrite Hfg in Hqc]; vals.
  - rewrite Hget by done. rewrite decide_True by done. discriminate.
Qed.

Lemma fillInv_step W H g0 s c g seed rest :
  3 ≤ c < 255 →
  fillInv W H g0 s c (g, seed :: rest) →
  fillInv W H g0 s c (fillStep W H c g seed rest).
Proof.
  intros Hc (Hlen & Hnd & Hfr & Hval & Hstk & Hreach & Hclosed & Hs).
  assert (HD : numImgsOf g = numImgsOf g0) by (unfold numImgsOf; by rewrite Hlen).
  destruct (fillStep_spec W H c g seed) as (g' & new & Hp & _ & ->).
  rewrite HD in Hp. set (D := numImgsOf g0) in *.
  assert (Hseed : isFg W H g0 seed ∧ getVoxel W g seed = Some seedVal).
  { apply Hstk. by left. }
  destruct Hseed as [[Hsb Hsfg] Hs255].
  apply NoDup_cons in Hnd as [Hseedrest Hndrest].
  (* the grid after the assignment at line 147 *)
  set (ga := setVoxel W g seed c) in *.
  assert (Hga : ∀ q, inBounds W H D q →
            getVoxel W ga q = if decide (seed = q) then Some c else getVoxel W g q).
  { intros q Hq. unfold ga.
    rewrite (getVoxel_setVoxel_inb W H _ g seed q c _ Hsb Hq Hs255).
    rewrite toUint8_small by lia. done. }
  (* the grid after the neighbour loops *)
  assert (HLb : ∀ q, q ∈ neighbours W H D seed → inBounds W H D q).
  { intros q Hq. by apply (elem_of_neighbours W H D seed q Hsb) in Hq as [_ ?]. }
  pose proof (probed_inb W H D _ _ _ _ Hp HLb) as Hg'.
  assert (Hnewfg : ∀ q, q ∈ new →
            isFg W H g0 q ∧ getVoxel W g q = Some foreground ∧ adjacent seed q ∧ q ≠ seed).
  { intros q Hq. destruct Hp as (_ & _ & _ & Hnew & _).
    destruct (Hnew _ Hq) as (HqL & Hqa & _).
    pose proof (HLb _ HqL) as Hqb.
    apply (elem_of_neighbours W H D seed q Hsb) in HqL as [Hadj _].
    rewrite Hga in Hqa by done. case_decide; [vals|].
    split_and!; [|done|done|congruence].
    split; [done|]. destruct (decide (getVoxel W g0 q = Some foreground)); [done|].
    rewrite Hfr in Hqa; [done|done|]. by intros [_ ?]. }
  unfold fillInv. split_and!.
  - destruct Hp as (-> & _). unfold ga. rewrite setVoxel_cell, setCell_length. done.
  - apply NoDup_app. split_and!; [apply Hp| |done].
    intros q Hq Hqr. destruct (Hnewfg _ Hq) as (_ & Hq2 & _).
    assert (q ∈ seed :: rest) as Hin by (by right).
    apply Hstk in Hin as [_ Hq255]. rewrite Hq2 in Hq255. discriminate.
  - intros q Hq Hnfg. destruct (Hg' q Hq) as [(Hin & _)|(_ & ->)].
    + by destruct (Hnewfg _ Hin) as (? & _).
    + rewrite Hga by done. case_decide; [subst q; destruct Hnfg; by split|].
      by apply Hfr.
  - intros q Hqfg. pose proof Hqfg as [Hq _].
    destruct (Hg' q Hq) as [(_ & _ & ->)|(_ & ->)]; [by right; left|].
    rewrite Hga by done. case_decide; [by right; right|]. by apply Hval.
  - intros q. rewrite elem_of_app. split.
    + intros [Hin|Hin].
      * destruct (Hnewfg _ Hin) as (Hqfg & _). split; [done|].
        destruct Hqfg as [Hq _].
        destruct (Hg' q Hq) as [(_ & _ & ->)|(Hnin & _)]; done.
      * assert (q ∈ seed :: rest) as Hin' by (by right).
        apply Hstk in Hin' as [Hqfg Hq255]. split; [done|].
        destruct Hqfg as [Hq _].
        destruct (Hg' q Hq) as [(_ & _ & ->)|(_ & ->)]; [done|].
        rewrite Hga by done. case_decide; [by subst|done].
    + intros [Hqfg Hq255]. pose proof Hqfg as [Hq _].
      destruct (Hg' q Hq) as [(Hin & _)|(_ & Heq)]; [by left|].
      right. rewrite Heq, Hga in Hq255 by done.
      case_decide; [vals|].
      assert (q ∈ seed :: rest) as [->|?]%elem_of_cons by (by apply Hstk); done.
  - intros q Hqfg Hn. pose proof Hqfg as [Hq _].
    destruct (decide (getVoxel W g q = Some foreground)) as [Hq2|Hq2]; [|by apply Hreach].
    destruct (Hg' q Hq) as [(Hin & _)|(_ & Heq)].
    + destruct (Hnewfg _ Hin) as (_ & _ & Hadj & _).
      eapply rtc_r; [|by split].
      apply Hreach; [by split|]. rewrite Hs255. discriminate.
    + rewrite Heq, Hga in Hn by done. case_decide; [|done].
      subst q. rewrite Hs255 in Hq2. discriminate.
  - intros q r Hqfg Hqc Hadj Hrfg. pose proof Hqfg as [Hq _]. pose proof Hrfg as [Hr _].
    destruct (decide (q = seed)) as [->|Hne].
    + destruct Hp as (_ & _ & _ & _ & _ & HL). apply HL.
      by apply (elem_of_neighbours W H D seed r Hsb).
    + eapply probed_mono; [done|]. rewrite Hga by done.
      case_decide; [intros ?; vals|].
      eapply Hclosed; [exact Hqfg| |done|done].
      destruct (Hg' q Hq) as [(_ & _ & Hq255)|(_ & Heq)].
      * rewrite Hq255 in Hqc. vals.
      * rewrite Heq, Hga in Hqc by done. by rewrite decide_False in Hqc by done.
  - eapply probed_mono; [done|]. apply setVoxel_mono; [|done].
    rewrite toUint8_small by lia. vals.
Qed.

Lemma fillInv_floodFill W H g0 s c fuel :
  3 ≤ c < 255 →
  ∀ st st', fillInv W H g0 s c st →
            floodFill fuel W H c st = Some st' →
            fillInv W H g0 s c st' ∧ st'.2 = [].
Proof.
  intros Hc. induction fuel as [|fuel IH]; intros [g seeds] st' Hinv Hrun.
  - destruct seeds; simplify_eq/=. done.
  - destruct seeds as [|seed rest]; simplify_eq/=; [done|].
    eapply IH; [|done]. by apply fillInv_step.
Qed.

(* Along a path of Foreground voxels both directions are open. *)
Lemma fgStep_rtc_sym W H g p q :
  isFg W H g p → rtc (fgStep W H g) p q → rtc (fgStep W H g) q p.
Proof.
  intros Hp Hpq. induction Hpq as [|p r q [Hadj Hr] Hrq IH]; [done|].
  eapply rtc_r; [by apply IH|]. split; [by apply adjacent_sym|done].
Qed.

Lemma fgStep_rtc_isFg W H g p q :
  isFg W H g p → rtc (fgStep W H g) p q → isFg W H g q.
Proof.
  intros Hp Hpq. induction Hpq as [|p r q [Hadj Hr] Hrq IH]; [done|]. by apply IH.
Qed.

(* What a finished fill has done: the region of the start voxel holds the
   component value, every other voxel is as before. *)
Lemma fillInv_final W H g0 s c g' :
  isFg W H g0 s → 3 ≤ c < 255 →
  fillInv W H g0 s c (g', []) →
  length g' = length g0
  ∧ ∀ q, inBounds W H (numImgsOf g0) q →
         (sameRegion W H g0 s q ∧ getVoxel W g' q = Some c)
         ∨ (¬ sameRegion W H g0 s q ∧ getVoxel W g' q = getVoxel W g0 q).
Proof.
  intros Hsfg Hc (Hlen & _ & Hfr & Hval & Hstk & Hreach & Hclosed & Hs).
  split; [done|].
  assert (Hno255 : ∀ q, isFg W H g0 q →
            getVoxel W g' q = Some foreground ∨ getVoxel W g' q = Some c).
  { intros q Hq. destruct (Hval q Hq) as [?|[H255|?]]; [by left| |by right].
    assert (q ∈ []) as Hin by (by apply Hstk). by apply elem_of_nil in Hin. }
  assert (Hin : ∀ q, rtc (fgStep W H g0) s q → getVoxel W g' q = Some c).
  { apply (rtc_ind_r (fun q => getVoxel W g' q = Some c)).
    - destruct (Hno255 s Hsfg); done.
    - intros q r Hsq [Hadj Hr] IH.
      destruct (Hno255 r Hr) as [Hr2|]; [|done].
      exfalso. eapply Hclosed; [|exact IH|exact Hadj|exact Hr|exact Hr2].
      exact (fgStep_rtc_isFg W H g0 s q Hsfg Hsq). }
  intros q Hq.
  destruct (decide (getVoxel W g0 q = Some foreground)) as [Hq2|Hq2].
  - destruct (Hno255 q) as [Hq'|Hqc]; [by split| |].
    + right. split; [|congruence]. intros [_ Hsq]. apply Hin in Hsq.
      rewrite Hsq in Hq'. vals.
    + left. split; [|done]. split; [done|]. apply Hreach; [by split|].
      rewrite Hqc. intros ?. vals.
  - right. split.
    + intros [_ Hsq]. by apply (fgStep_rtc_isFg W H g0 s q Hsfg) in Hsq as [_ ?].
    + apply Hfr; [done|]. by intros [_ ?].
Qed.

(* The fill that line 142 starts, as a whole. *)
Lemma floodFill_region W H g0 s c :
  isFg W H g0 s → 3 ≤ c < 255 →
  ∃ g', floodFill (fillFuel (setVoxel W g0 s seedVal)) W H c (startFill W g0 s)
        = Some (g', [])
        ∧ length g' = length g0
        ∧ ∀ q, inBounds W H (numImgsOf g0) q →
               (sameRegion W H g0 s q ∧ getVoxel W g' q = Some c)
               ∨ (¬ sameRegion W H g0 s q ∧ getVoxel W g' q = getVoxel W g0 q).
Proof.
  intros Hs Hc.
  destruct (floodFill_terminates W H c (fillFuel (setVoxel W g0 s seedVal)))
    with (g := setVoxel W g0 s seedVal) (seeds := [s]) as [g' Hrun].
  { rewrite toUint8_small by lia. vals. }
  { unfold fillFuel. simpl. lia. }
  exists g'. split; [done|].
  destruct (fillInv_floodFill W H g0 s c _ Hc _ _ (fillInv_start W H g0 s c Hs Hc) Hrun)
    as [Hinv _].
  by apply fillInv_final.
Qed.

(** ** Loops *)

Lemma forUpTo_inv {S E : Type} (I : Z → S → Prop) (Q : E → Prop)
  (body : Z → S → E + S) (n : nat) :
  ∀ i s,
    I i s →
    (∀ j t, i ≤ j < i + Z.of_nat n → I j t →
            match body j t with inl e => Q e | inr t' => I (j + 1) t' end) →
    match forUpTo n i body s with
    | inl e => Q e
    | inr s' => I (i + Z.of_nat n) s'
    end.
Proof.
  induction n as [|n IH]; intros i s Hi Hbody; simpl.
  - by rewrite Z.add_0_r.
  - pose proof (Hbody i s ltac:(lia) Hi) as Hstep.
    destruct (body i s) as [e|s']; [done|].
    replace (i + Z.of_nat (Datatypes.S n)) with ((i + 1) + Z.of_nat n) by lia.
    apply IH; [done|]. intros j t Hj. apply Hbody. lia.
Qed.

Lemma forRange_inv {S E : Type} (I : Z → S → Prop) (Q : E → Prop)
  (body : Z → S → E + S) (hi : Z) (s : S) :
  I 0 s →
  (∀ j t, 0 ≤ j < hi → I j t →
          match body j t with inl e => Q e | inr t' => I (j + 1) t' end) →
  match forRange 0 hi body s with
  | inl e => Q e
  | inr s' => I (Z.max 0 hi) s'
  end.
Proof.
  intros H0 Hbody. unfold forRange.
  replace (Z.max 0 hi) with (0 + Z.of_nat (Z.to_nat (hi - 0))) by lia.
  apply forUpTo_inv; [done|]. intros j t Hj. apply Hbody. lia.
Qed.

(** ** The order of the scan *)

Lemma scannedBefore_irrefl p : ¬ scannedBefore p p.
Proof. destruct p as [[? ?] ?]. simpl. lia. Qed.

Lemma scannedBefore_trans p q r :
  scannedBefore p q → scannedBefore q r → scannedBefore p r.
Proof. destruct p as [[? ?] ?], q as [[? ?] ?], r as [[? ?] ?]. simpl. lia. Qed.

Lemma scannedBefore_next q x y z :
  scannedBefore q (x + 1, y, z) ↔ scannedBefore q (x, y, z) ∨ q = (x, y, z).
Proof.
  destruct q as [[a b] d]. simpl. split.
  - intros Hq.
    assert ((a = x ∧ b = y ∧ d = z) ∨ (d < z ∨ d = z ∧ (b < y ∨ b = y ∧ a < x)))
      as [(-> & -> & ->)|?] by lia; [by right|by left].
  - intros [?|?]; [|simplify_eq]; lia.
Qed.

(** ** The invariant of the scan *)

Lemma numImgsOf_length (g g' : Grid) : length g = length g' → numImgsOf g = numImgsOf g'.
Proof. unfold numImgsOf. by intros ->. Qed.

Lemma labelInv_isFg W H G0 pos g c q :
  labelInv W H G0 pos (g, c) →
  inBounds W H (numImgsOf G0) q → getVoxel W g q = Some foreground →
  isFg W H G0 q.
Proof.
  intros (_ & _ & HF & _) Hq Hq2. split; [done|].
  destruct (decide (getVoxel W G0 q = Some foreground)) as [|Hn]; [done|].
  rewrite <- HF; [done|done|]. by intros [_ ?].
Qed.

(* The region of a voxel that is still Foreground is still Foreground. *)
Lemma labelInv_region_unlabelled W H G0 pos g c p q :
  labelInv W H G0 pos (g, c) →
  isFg W H G0 p → getVoxel W g p = Some foreground →
  rtc (fgStep W H G0) p q → getVoxel W g q = Some foreground.
Proof.
  intros (_ & _ & _ & _ & HSame & _) Hp Hp2 Hpq.
  destruct (decide (getVoxel W g q = Some foreground)) as [|Hn]; [done|].
  assert (Hq : isFg W H G0 q) by (by eapply fgStep_rtc_isFg).
  pose proof (HSame q p Hq Hn (fgStep_rtc_sym W H G0 p q Hp Hpq)) as Heq.
  congruence.
Qed.

Lemma labelInv_region W H G0 pos g c p q :
  labelInv W H G0 pos (g, c) →
  isFg W H G0 p → getVoxel W g p = Some foreground →
  sameRegion W H g p q ↔ rtc (fgStep W H G0) p q.
Proof.
  intros Hinv Hp Hp2. pose proof Hinv as (Hlen & _).
  apply numImgsOf_length in Hlen. split.
  - intros [_ Hpq]. induction Hpq as [|a b d [Hadj [Hb Hb2]] Hbd IH]; [done|].
    rewrite Hlen in Hb.
    assert (isFg W H G0 b) by (by eapply labelInv_isFg).
    eapply rtc_l; [by split|]. apply IH; [done|done].
  - intros Hpq. split.
    { split; [|done]. rewrite Hlen. apply Hp. }
    revert q Hpq. apply (rtc_ind_r (fun q => rtc (fgStep W H g) p q)); [done|].
    intros a b Hpa [Hadj Hb] IH. eapply rtc_r; [done|]. split; [done|].
    split; [rewrite Hlen; apply Hb|].
    eapply labelInv_region_unlabelled; [done|exact Hp|done|].
    eapply rtc_r; [done|by split].
Qed.

Lemma labelInv_pos W H G0 pos pos' st :
  (∀ r, inBounds W H (numImgsOf G0) r → scannedBefore r pos → scannedBefore r pos') →
  labelInv W H G0 pos st → labelInv W H G0 pos' st.
Proof.
  destruct st as [g c].
  intros Hpos (Hlen & Hc & HF & HV & HSame & HDiff & HSeed & HOrd & HUsed).
  unfold labelInv. split_and!; try done; try lia.
  intros q Hq Hq2. destruct (HSeed q Hq Hq2) as (r & Hqr & Hr).
  exists r. split; [done|]. apply Hpos; [|done].
  by apply (fgStep_rtc_isFg W H G0 q r Hq) in Hqr as [? _].
Qed.

Lemma scanInv_pos W H G0 pos pos' st :
  (∀ r, inBounds W H (numImgsOf G0) r → scannedBefore r pos ↔ scannedBefore r pos') →
  scanInv W H G0 pos st → scanInv W H G0 pos' st.
Proof.
  intros Hpos (Hinv & Hc & HScan). split_and!; [|done|].
  - eapply labelInv_pos; [|done]. intros r Hr. by apply Hpos.
  - intros q Hq Hb. apply HScan; [done|]. apply Hpos; [apply Hq|done].
Qed.

(* A fill at the voxel the scan examines re-establishes the invariant, with
   the counter advanced. *)
Lemma scanInv_fill W H G0 x y z g c g2 :
  inBounds W H (numImgsOf G0) (x, y, z) →
  scanInv W H G0 (x, y, z) (g, c) →
  getVoxel W g (x, y, z) = Some foreground →
  length g2 = length g →
  (∀ q, inBounds W H (numImgsOf g) q →
        (sameRegion W H g (x, y, z) q ∧ getVoxel W g2 q = Some c)
        ∨ (¬ sameRegion W H g (x, y, z) q ∧ getVoxel W g2 q = getVoxel W g q)) →
  labelInv W H G0 (x + 1, y, z) (g2, c + 1)
  ∧ (∀ q, isFg W H G0 q → scannedBefore q (x + 1, y, z) →
          getVoxel W g2 q ≠ Some foreground).
Proof.
  intros Hpb (Hinv & Hc255 & HScan) Hp2 Hlen2 Hreg. simpl in Hc255, HScan.
  set (p := (x, y, z)) in *.
  pose proof Hinv as (Hlen & Hc & HF & HV & HSame & HDiff & HSeed & HOrd & HUsed).
  assert (HD : numImgsOf g = numImgsOf G0) by (by apply numImgsOf_length).
  assert (Hp : isFg W H G0 p) by (by eapply labelInv_isFg).
  assert (K : ∀ q, inBounds W H (numImgsOf G0) q →
     (rtc (fgStep W H G0) p q ∧ getVoxel W g q = Some foreground
      ∧ getVoxel W g2 q = Some c)
     ∨ (¬ rtc (fgStep W H G0) p q ∧ getVoxel W g2 q = getVoxel W g q)).
  { intros q Hq. rewrite <- HD in Hq. destruct (Hreg q Hq) as [[HR Hq2]|[HR Hq2]].
    - left. apply (labelInv_region W H G0 _ g c p q Hinv Hp Hp2) in HR.
      split_and!; [done| |done]. by eapply labelInv_region_unlabelled.
    - right. split; [|done]. intros HR'. apply HR.
      by apply (labelInv_region W H G0 _ g c p q Hinv Hp Hp2). }
  assert (Hsym : ∀ a b, isFg W H G0 a → rtc (fgStep W H G0) a b →
                        rtc (fgStep W H G0) b a).
  { intros a b ? ?. by apply fgStep_rtc_sym. }
  split.
  - unfold labelInv. split_and!.
    + congruence.
    + lia.
    + lia.
    + intros q Hq Hn. destruct (K q Hq) as [(HR & _)|(_ & ->)]; [|by apply HF].
      destruct Hn. by eapply fgStep_rtc_isFg.
    + intros q Hq. destruct (K q (proj1 Hq)) as [(_ & _ & ->)|(_ & ->)].
      * right. exists c. split; [lia|done].
      * destruct (HV q Hq) as [?|(k & ? & ?)]; [by left|].
        right. exists k. split; [lia|done].
    + intros a b Ha Ha2 Hab.
      assert (Hb : isFg W H G0 b) by (by eapply fgStep_rtc_isFg).
      destruct (K a (proj1 Ha)) as [(HRa & _ & Hac)|(HRa & Haeq)].
      * destruct (K b (proj1 Hb)) as [(_ & _ & Hbc)|(HRb & _)]; [congruence|].
        destruct HRb. by etrans.
      * destruct (K b (proj1 Hb)) as [(HRb & _)|(_ & Hbeq)].
        -- destruct HRa. etrans; [exact HRb|]. exact (Hsym a b Ha Hab).
        -- rewrite Haeq, Hbeq. apply HSame; [done| |done]. by rewrite <- Haeq.
    + intros a b Ha Hb Ha2 Hab.
      destruct (K a (proj1 Ha)) as [(HRa & _ & Hac)|(HRa & Haeq)];
        destruct (K b (proj1 Hb)) as [(HRb & _ & Hbc)|(HRb & Hbeq)].
      * etrans; [exact (Hsym p a Hp HRa)|exact HRb].
      * exfalso. rewrite Hac, Hbeq in Hab.
        destruct (HV b Hb) as [Hb2|(k & Hk & Hbk)]; rewrite <- Hab in *; vals.
      * exfalso. rewrite Haeq, Hbc in Hab.
        destruct (HV a Ha) as [Ha2'|(k & Hk & Hak)].
        -- by rewrite Haeq in Ha2.
        -- rewrite Hab in Hak. vals.
      * apply HDiff; [done|done| |]; congruence.
    + intros q Hq Hq2. destruct (K q (proj1 Hq)) as [(HRq & _)|(_ & Hqeq)].
      * exists p. split; [exact (Hsym p q Hp HRq)|]. apply scannedBefore_next. by right.
      * destruct (HSeed q Hq) as (r & ? & ?); [congruence|].
        exists r. split; [done|]. apply scannedBefore_next. by left.
    + intros a b ka kb Ha Hb Hak Hbk Hka Hkb Hall.
      destruct (K a (proj1 Ha)) as [(HRa & Ha2g & Hac)|(HRa & Haeq)];
        destruct (K b (proj1 Hb)) as [(HRb & _ & Hbc)|(HRb & Hbeq)].
      * exfalso. apply (scannedBefore_irrefl a). apply Hall.
        etrans; [exact (Hsym p b Hp HRb)|exact HRa].
      * exfalso.
        destruct (HSeed b Hb) as (r & Hbr & Hr).
        { rewrite <- Hbeq, Hbk. intros ?. vals. }
        apply (HScan a Ha); [|done].
        eapply scannedBefore_trans; [by apply Hall|done].
      * rewrite Haeq in Hak.
        destruct (HV a Ha) as [?|(k & ? & ?)]; [vals|]. rewrite Hbc in Hbk. vals.
      * apply (HOrd a b ka kb); try done; congruence.
    + intros k Hk. destruct (decide (k = c)) as [->|Hne].
      * exists p. split; [done|].
        destruct (K p Hpb) as [(_ & _ & ?)|(HR & _)]; [done|]. by destruct HR.
      * destruct (HUsed k) as (q & Hq & Hqk); [lia|]. exists q. split; [done|].
        destruct (K q (proj1 Hq)) as [(_ & Hq2 & _)|(_ & ->)]; [|done].
        rewrite Hq2 in Hqk. vals.
  - intros q Hq [Hb| ->]%scannedBefore_next.
    + destruct (K q (proj1 Hq)) as [(_ & Hq2 & _)|(_ & ->)]; [|by apply HScan].
      by apply HScan in Hq2.
    + destruct (K p Hpb) as [(_ & _ & Hpc)|(HR & _)]; [|by destruct HR].
      unfold p in Hpc. rewrite Hpc. intros ?. vals.
Qed.

Lemma scanVoxel_inv W H G0 x y z st :
  inBounds W H (numImgsOf G0) (x, y, z) →
  scanInv W H G0 (x, y, z) st →
  match scanVoxel W H x y z st with
  | inl e => scanPost W H G0 (inl e)
  | inr st' => scanInv W H G0 (x + 1, y, z) st'
  end.
Proof.
  destruct st as [g c]. intros Hpb Hinv. unfold scanVoxel.
  case_bool_decide as Hfg.
  - destruct Hinv as (Hl & Hc & HScan). split_and!; [|done|].
    + eapply labelInv_pos; [|done]. intros r _ ?. apply scannedBefore_next. by left.
    + intros q Hq [?| ->]%scannedBefore_next; [by apply HScan|done].
  - pose proof Hinv as (Hl & Hc & HScan). simpl in Hc.
    pose proof Hl as (Hlen & Hc3 & _).
    assert (Hpg : isFg W H g (x, y, z)).
    { split; [|done]. by rewrite (numImgsOf_length g G0). }
    destruct (floodFill_region W H g (x, y, z) c Hpg) as (g2 & Hrun & Hlen2 & Hreg);
      [lia|].
    unfold startFill in Hrun. rewrite Hrun.
    destruct (scanInv_fill W H G0 x y z g c g2 Hpb Hinv Hfg Hlen2 Hreg) as [Hl' HScan'].
    case_bool_decide as Hc'.
    + simpl. split; [unfold seedVal in *; lia|]. by eexists.
    + split_and!; [done|simpl; unfold seedVal in *; lia|done].
Qed.

Lemma scanRow_inv W H G0 y z st :
  0 ≤ y < H → 0 ≤ z < numImgsOf G0 →
  scanInv W H G0 (0, y, z) st →
  match scanRow W H y z st with
  | inl e => scanPost W H G0 (inl e)
  | inr st' => scanInv W H G0 (0, y + 1, z) st'
  end.
Proof.
  intros Hy Hz Hinv. unfold scanRow.
  pose proof (forRange_inv (fun x st => scanInv W H G0 (x, y, z) st)
                (fun e => scanPost W H G0 (inl e))
                (fun x => scanVoxel W H x y z) W st Hinv) as Hloop.
  destruct (forRange 0 W _ st) as [e|st'].
  - apply Hloop. intros x t Hx Ht. by apply scanVoxel_inv.
  - eapply scanInv_pos; [|apply Hloop].
    + intros [[a b] d] Hr. simpl in *. lia.
    + intros x t Hx Ht. by apply scanVoxel_inv.
Qed.

Lemma scanImage_inv W H G0 z st :
  0 ≤ z < numImgsOf G0 →
  scanInv W H G0 (0, 0, z) st →
  match scanImage W H z st with
  | inl e => scanPost W H G0 (inl e)
  | inr st' => scanInv W H G0 (0, 0, z + 1) st'
  end.
Proof.
  intros Hz Hinv. unfold scanImage.
  pose proof (forRange_inv (fun y st => scanInv W H G0 (0, y, z) st)
                (fun e => scanPost W H G0 (inl e))
                (fun y => scanRow W H y z) H st Hinv) as Hloop.
  destruct (forRange 0 H _ st) as [e|st'].
  - apply Hloop. intros y t Hy Ht. by apply scanRow_inv.
  - eapply scanInv_pos; [|apply Hloop].
    + intros [[a b] d] Hr. simpl in *. lia.
    + intros y t Hy Ht. by apply scanRow_inv.
Qed.

Lemma scanInv_init W H G0 : scanInv W H G0 (0, 0, 0) (G0, 3).
Proof.
  split_and!.
  - unfold labelInv. split_and!; try done; try lia.
    + intros q [_ Hq]. by left.
    + intros p q [_ Hp] Hn. done.
    + intros p q [_ Hp] _ Hn. done.
    + intros q [_ Hq] Hn. done.
    + intros p q kp kq [_ Hp] _ Hpk _ Hkp. congruence.
  - simpl. lia.
  - intros [[a b] d] [Hq _]. simpl in *. lia.
Qed.

(* The scan as a whole. *)
Lemma labelComponents_post W H G0 :
  scanPost W H G0 (labelComponents W H G0).
Proof.
  unfold labelComponents.
  pose proof (forRange_inv (fun z st => scanInv W H G0 (0, 0, z) st)
                (fun e => scanPost W H G0 (inl e))
                (fun z => scanImage W H z) (numImgsOf G0) (G0, 3)
                (scanInv_init W H G0)) as Hloop.
  destruct (forRange 0 (numImgsOf G0) _ (G0, 3)) as [e|st'].
  - apply Hloop. intros z t Hz Ht. by apply scanImage_inv.
  - simpl. rewrite Z.max_r in Hloop by (unfold numImgsOf; lia).
    apply Hloop. intros z t Hz Ht. by apply scanImage_inv.
Qed.

(** ** The labeling pass as a whole *)

Lemma labelInv_idsSpec W H G0 pos g c :
  labelInv W H G0 pos (g, c) → idsSpec W H G0 g c.
Proof.
  intros (Hlen & Hc & HF & HV & HSame & HDiff & HSeed & HOrd & HUsed).
  unfold idsSpec. split_and!.
  - intros p [Hp Hp2]. destruct (HV p Hp) as [?|(k & ? & ?)]; [done|].
    exists k. split; [done|]. unfold seedVal. lia.
  - intros p q [Hp Hp2] Hq. split.
    + intros Heq. split; [done|]. by apply HDiff.
    + intros [_ Hpq]. by apply HSame.
  - intros p q kp kq [Hp Hp2] [Hq Hq2] Hpk Hqk Hall.
    apply (HOrd p q kp kq); try done; try congruence.
    intros q' Hq'. apply Hall. by split.
  - done.
Qed.

(** C7: the component values the labeling pass assigns.  Whether the scan
    runs to its end or is left at line 185, every value assigned lies from 3
    up to the counter and below the seed value 255; two voxels hold the same
    value exactly when one maximal 26-connected Foreground region contains
    both, so each value marks one region; and a region whose voxels all come
    later in the scan than a labelled voxel holds a strictly larger value
    than that voxel.  The proof goes through [labelInv], which holds between
    any two voxels of the scan. *)
Theorem component_ids_unique_increasing_below_seed W H G0 :
  match labelComponents W H G0 with
  | inr (g, c) | inl (TooMany g c) => idsSpec W H G0 g c
  | inl FuelExhausted => False
  end.
Proof.
  pose proof (labelComponents_post W H G0) as Hpost.
  destruct (labelComponents W H G0) as [[g c|]|[g c]]; simpl in Hpost.
  - destruct Hpost as [_ [pos Hinv]]. by eapply labelInv_idsSpec.
  - done.
  - destruct Hpost as [Hinv _]. by eapply labelInv_idsSpec.
Qed.

(** C10: the fill of one component, started as lines 139-140 start it at a
    Foreground voxel, pushes no coordinate twice (the start voxel counted
    as the first push), whatever the number of passes; and the while loop
    ends, with the worklist empty when it does. *)
Theorem fill_pushes_once_and_terminates W H g c p :
  getVoxel W g p = Some foreground →
  3 ≤ c < 255 →
  (∀ fuel, NoDup (p :: fillPushes fuel W H c (startFill W g p)))
  ∧ ∃ g', floodFill (fillFuel (setVoxel W g p seedVal)) W H c (startFill W g p)
          = Some (g', []).
Proof.
  intros Hp Hc.
  assert (Hc2 : toUint8 c ≠ foreground) by (rewrite toUint8_small by lia; vals).
  split.
  - intros fuel. change (p :: ?l) with ([p] ++ l).
    apply fillPushes_NoDup; [done|apply NoDup_singleton|].
    intros q ->%list_elem_of_singleton.
    rewrite setVoxel_cell, getVoxel_cell. rewrite getVoxel_cell in Hp.
    rewrite (getCell_setCell_eq _ _ _ _ Hp). discriminate.
  - apply floodFill_terminates; [done|]. unfold fillFuel. simpl. lia.
Qed.

Lemma fill_pushes_once_and_terminates_witness :
  (∀ fuel, NoDup ((0, 0, 0) :: fillPushes fuel 2 1 3 (startFill 2 [[2; 2]] (0, 0, 0))))
  ∧ ∃ g', floodFill (fillFuel (setVoxel 2 [[2; 2]] (0, 0, 0) seedVal)) 2 1 3
            (startFill 2 [[2; 2]] (0, 0, 0))
          = Some (g', []).
Proof.
  apply (fill_pushes_once_and_terminates 2 1 [[2; 2]] 3 (0, 0, 0)); [reflexivity|lia].
Defined.

Lemma forRange_id {S E : Type} (body : Z → S → E + S) (hi : Z) (s : S) :
  (∀ j, 0 ≤ j < hi → body j s = inr s) → forRange 0 hi body s = inr s.
Proof.
  intros Hbody.
  pose proof (forRange_inv (fun _ t => t = s) (fun _ : E => False) body hi s eq_refl)
    as Hloop.
  destruct (forRange 0 hi body s) as [e|s'].
  - destruct Hloop. intros j t Hj ->. by rewrite Hbody.
  - f_equal. apply Hloop. intros j t Hj ->. by rewrite Hbody.
Qed.

Lemma scanVoxel_no_foreground W H x y z g c :
  getVoxel W g (x, y, z) ≠ Some foreground →
  scanVoxel W H x y z (g, c) = inr (g, c).
Proof. intros Hn. unfold scanVoxel. by rewrite bool_decide_eq_true_2. Qed.

(** C8: on a grid none of whose voxels holds Foreground the labeling pass
    runs to its end, leaves every buffer as it was and the counter at 3, and
    sets the component count to 0. *)
Theorem no_foreground_no_components js W H g this tr :
  (∀ p, inBounds W H (numImgsOf g) p → getVoxel W g p ≠ Some foreground) →
  labelComponents W H g = inr (g, 3)
  ∧ labelPhase js W H g this tr = Next g (setNumLabelsFound 0 this) tr.
Proof.
  intros Hno.
  assert (Hrun : labelComponents W H g = inr (g, 3)).
  { unfold labelComponents. apply forRange_id. intros z Hz.
    unfold scanImage. apply forRange_id. intros y Hy.
    unfold scanRow. apply forRange_id. intros x Hx.
    apply scanVoxel_no_foreground. apply Hno. simpl. lia. }
  split; [done|]. unfold labelPhase. rewrite Hrun. reflexivity.
Qed.

Lemma no_foreground_no_components_witness :
  labelComponents 2 1 [[1; 0]; [0; 7]] = inr ([[1; 0]; [0; 7]], 3)
  ∧ labelPhase v8 2 1 [[1; 0]; [0; 7]] (mkLoader [] None None false false 0 None None) []
    = Next [[1; 0]; [0; 7]]
        (setNumLabelsFound 0 (mkLoader [] None None false false 0 None None)) [].
Proof.
  apply (no_foreground_no_components v8 2 1 [[1; 0]; [0; 7]]).
  intros [[x y] z] (Hx & Hy & Hz). unfold numImgsOf in Hz. simpl in *.
  assert (x = 0 ∨ x = 1) as [-> | ->] by lia;
    assert (y = 0) as -> by lia;
    assert (z = 0 ∨ z = 1) as [-> | ->] by lia; discriminate.
Defined.

(** ** A block is one region *)






(** ** Two runs on the same contents *)

Lemma agree_numImgs W H g1 g2 : agree W H g1 g2 → numImgsOf g1 = numImgsOf g2.
Proof. intros [Hlen _]. by apply numImgsOf_length. Qed.

Lemma agree_refl W H g : agree W H g g.
Proof. by split. Qed.

Lemma agree_setVoxel W H g1 g2 p v :
  agree W H g1 g2 → inBounds W H (numImgsOf g1) p →
  agree W H (setVoxel W g1 p v) (setVoxel W g2 p v).
Proof.
  intros [Hlen Hag] Hp. split.
  { by rewrite !setVoxel_cell, !setCell_length. }
  assert (HD : numImgsOf (setVoxel W g1 p v) = numImgsOf g1).
  { apply numImgsOf_length. by rewrite setVoxel_cell, setCell_length. }
  rewrite HD. intros q Hq. pose proof (Hag p Hp) as Hpp.
  destruct (getVoxel W g1 p) as [a|] eqn:Ha.
  - rewrite (getVoxel_setVoxel_inb W H _ g1 p q v a Hp Hq Ha).
    rewrite (getVoxel_setVoxel_inb W H _ g2 p q v a Hp Hq (eq_sym Hpp)).
    case_decide; [done|]. by apply Hag.
  - rewrite !setVoxel_cell. rewrite !setCell_None; [by apply Hag| |].
    + by rewrite <- getVoxel_cell.
    + by rewrite <- getVoxel_cell.
Qed.

Lemma agree_probes W H L :
  ∀ g1 g2 seeds,
    agree W H g1 g2 →
    (∀ q, q ∈ L → inBounds W H (numImgsOf g1) q) →
    agree W H (foldl (probeAt W) (g1, seeds) L).1 (foldl (probeAt W) (g2, seeds) L).1
    ∧ (foldl (probeAt W) (g1, seeds) L).2 = (foldl (probeAt W) (g2, seeds) L).2
    ∧ ∀ q, q ∈ (foldl (probeAt W) (g1, seeds) L).2 → q ∈ seeds ∨ q ∈ L.
Proof.
  induction L as [|p L IH]; intros g1 g2 seeds Hag HL; simpl.
  { split_and!; [done|done|]. intros q ?. by left. }
  assert (Hp : inBounds W H (numImgsOf g1) p) by (apply HL; by left).
  rewrite !probeAt_eq. rewrite <- (proj2 Hag p Hp).
  case_bool_decide.
  - assert (Hag' : agree W H (setVoxel W g1 p seedVal) (setVoxel W g2 p seedVal))
      by (by apply agree_setVoxel).
    destruct (IH _ _ (p :: seeds) Hag') as (? & ? & Hin).
    { intros q Hq. rewrite setVoxel_cell. unfold numImgsOf. rewrite setCell_length.
      apply HL. by right. }
    split_and!; [done|done|].
    intros q Hq. destruct (Hin q Hq) as [[->|?]%elem_of_cons|?].
    + right. by left.
    + by left.
    + right. by right.
  - destruct (IH _ _ seeds Hag) as (? & ? & Hin).
    { intros q Hq. apply HL. by right. }
    split_and!; [done|done|].
    intros q Hq. destruct (Hin q Hq) as [?|?]; [by left|right; by right].
Qed.

Lemma agree_fillStep W H c g1 g2 seed rest :
  agree W H g1 g2 →
  inBounds W H (numImgsOf g1) seed →
  (∀ q, q ∈ rest → inBounds W H (numImgsOf g1) q) →
  agree W H (fillStep W H c g1 seed rest).1 (fillStep W H c g2 seed rest).1
  ∧ (fillStep W H c g1 seed rest).2 = (fillStep W H c g2 seed rest).2
  ∧ (∀ q, q ∈ (fillStep W H c g1 seed rest).2 → inBounds W H (numImgsOf g1) q)
  ∧ length (fillStep W H c g1 seed rest).1 = length g1.
Proof.
  intros Hag Hseed Hrest. unfold fillStep.
  rewrite <- (agree_numImgs W H g1 g2 Hag). rewrite !visitNeighbours_eq.
  assert (Hag' : agree W H (setVoxel W g1 seed c) (setVoxel W g2 seed c))
    by (by apply agree_setVoxel).
  assert (HD : numImgsOf (setVoxel W g1 seed c) = numImgsOf g1).
  { apply numImgsOf_length. by rewrite setVoxel_cell, setCell_length. }
  assert (HL : ∀ q, q ∈ neighbours W H (numImgsOf g1) seed →
                    inBounds W H (numImgsOf g1) q).
  { intros q Hq. by apply (elem_of_neighbours W H _ seed q Hseed) in Hq as [_ ?]. }
  destruct (agree_probes W H (neighbours W H (numImgsOf g1) seed) _ _ rest Hag')
    as (Ha & Hs & Hin).
  { by rewrite HD. }
  split_and!; [done|done| |].
  - intros q Hq. destruct (Hin q Hq); [by apply Hrest|by apply HL].
  - destruct (probes_spec W (neighbours W H (numImgsOf g1) seed) (setVoxel W g1 seed c))
      as (g' & new & (Hlen & _) & Hfold).
    rewrite Hfold. simpl. rewrite Hlen. by rewrite setVoxel_cell, setCell_length.
Qed.

(* The result of a fill does not depend on the fuel, nor on what the
   buffers hold outside the grid. *)
Lemma agree_floodFill W H c fuel1 :
  ∀ fuel2 g1 g2 seeds r1 r2,
    agree W H g1 g2 →
    (∀ q, q ∈ seeds → inBounds W H (numImgsOf g1) q) →
    floodFill fuel1 W H c (g1, seeds) = Some r1 →
    floodFill fuel2 W H c (g2, seeds) = Some r2 →
    agree W H r1.1 r2.1.
Proof.
  induction fuel1 as [|fuel1 IH]; intros fuel2 g1 g2 seeds r1 r2 Hag Hs H1 H2.
  - destruct seeds; simplify_eq/=. destruct fuel2; by simplify_eq/=.
  - destruct seeds as [|seed rest]; simpl in H1.
    { destruct fuel2; by simplify_eq/=. }
    destruct fuel2 as [|fuel2]; simpl in H2; [done|].
    destruct (agree_fillStep W H c g1 g2 seed rest Hag) as (Ha & Heq & Hin & Hlen).
    { apply Hs. by left. }
    { intros q Hq. apply Hs. by right. }
    destruct (fillStep W H c g1 seed rest) as [g1' s1] eqn:E1.
    destruct (fillStep W H c g2 seed rest) as [g2' s2] eqn:E2.
    simpl in *. subst s2.
    eapply (IH fuel2 g1' g2' s1); [done| |done|done].
    intros q Hq. rewrite (numImgsOf_length g1' g1 Hlen). by apply Hin.
Qed.

Lemma floodFill_length W H c fuel :
  ∀ g seeds r, floodFill fuel W H c (g, seeds) = Some r → length r.1 = length g.
Proof.
  induction fuel as [|fuel IH]; intros g seeds r Hrun.
  - destruct seeds; by simplify_eq/=.
  - destruct seeds as [|seed rest]; simpl in Hrun; [by simplify_eq/=|].
    destruct (fillStep_spec W H c g seed) as (g' & new & (Hlen & _) & _ & Hstep).
    rewrite Hstep in Hrun. apply IH in Hrun. rewrite Hrun, Hlen.
    by rewrite setVoxel_cell, setCell_length.
Qed.

Lemma agree_scanVoxel W H x y z st1 st2 :
  inStep W H (length st1.1) st1 st2 →
  inBounds W H (numImgsOf st1.1) (x, y, z) →
  inStepResult W H (length st1.1) (scanVoxel W H x y z st1) (scanVoxel W H x y z st2).
Proof.
  destruct st1 as [g1 c], st2 as [g2 c2]. cbn [fst snd].
  intros (Heq & Hc & _ & Hag) Hp. cbn [fst snd] in Heq, Hc, Hag. subst c2.
  unfold scanVoxel. rewrite <- (proj2 Hag (x, y, z) Hp).
  case_bool_decide as Hfg; [done|].
  assert (Hc2 : toUint8 c ≠ foreground) by (rewrite toUint8_small by lia; vals).
  destruct (floodFill_terminates W H c (fillFuel (setVoxel W g1 (x, y, z) seedVal)) Hc2
              (setVoxel W g1 (x, y, z) seedVal) [(x, y, z)]) as [g1' Hrun1].
  { unfold fillFuel. simpl. lia. }
  destruct (floodFill_terminates W H c (fillFuel (setVoxel W g2 (x, y, z) seedVal)) Hc2
              (setVoxel W g2 (x, y, z) seedVal) [(x, y, z)]) as [g2' Hrun2].
  { unfold fillFuel. simpl. lia. }
  rewrite Hrun1, Hrun2.
  assert (Hag' : agree W H g1' g2').
  { eapply (agree_floodFill W H c _ _ _ _ _ (g1', []) (g2', [])); [|
      |exact Hrun1|exact Hrun2].
    - by apply agree_setVoxel.
    - intros q ->%list_elem_of_singleton.
      rewrite setVoxel_cell. unfold numImgsOf. by rewrite setCell_length. }
  apply floodFill_length in Hrun1. cbn [fst snd] in Hrun1.
  rewrite setVoxel_cell, setCell_length in Hrun1.
  case_bool_decide; cbn [inStepResult sameScan]; [done|].
  unfold inStep. cbn [fst snd]. split_and!; try done; unfold seedVal in *; lia.
Qed.

Lemma forUpTo_rel {S E : Type} (R : S → S → Prop) (Q : E → E → Prop)
  (body : Z → S → E + S) (n : nat) :
  ∀ i s1 s2,
    R s1 s2 →
    (∀ j t1 t2, i ≤ j < i + Z.of_nat n → R t1 t2 →
                match body j t1, body j t2 with
                | inl e1, inl e2 => Q e1 e2
                | inr a, inr b => R a b
                | _, _ => False
                end) →
    match forUpTo n i body s1, forUpTo n i body s2 with
    | inl e1, inl e2 => Q e1 e2
    | inr a, inr b => R a b
    | _, _ => False
    end.
Proof.
  induction n as [|n IH]; intros i s1 s2 HR Hbody; simpl; [done|].
  pose proof (Hbody i s1 s2 ltac:(lia) HR) as Hstep.
  destruct (body i s1) as [e1|a], (body i s2) as [e2|b]; try done.
  apply IH; [done|]. intros j t1 t2 Hj. apply Hbody. lia.
Qed.

Lemma agree_labelComponents W H g1 g2 :
  agree W H g1 g2 →
  sameScan W H (labelComponents W H g1) (labelComponents W H g2).
Proof.
  intros Hag. pose proof (agree_numImgs W H g1 g2 Hag) as HD.
  set (n := length g1).
  assert (Hn : ∀ st1 st2 : ScanState, inStep W H n st1 st2 →
                 length st1.1 = n ∧ numImgsOf st1.1 = numImgsOf g1).
  { intros st1 st2 (_ & _ & Hl & _). split; [done|]. by apply numImgsOf_length. }
  assert (Hout : ∀ r1 r2, inStepResult W H n r1 r2 → sameScan W H r1 r2).
  { intros [e1|[a c1]] [e2|[b c2]]; simpl; try done.
    intros (? & _ & _ & ?). simpl in *. done. }
  apply Hout. unfold labelComponents. rewrite <- HD. unfold forRange.
  apply (forUpTo_rel (inStep W H n) (fun e1 e2 => sameScan W H (inl e1) (inl e2))).
  { unfold inStep. simpl. split_and!; try done; lia. }
  intros z s1 s2 Hz Hs. unfold scanImage, forRange.
  apply (forUpTo_rel (inStep W H n) (fun e1 e2 => sameScan W H (inl e1) (inl e2)));
    [done|].
  intros y t1 t2 Hy Ht. unfold scanRow, forRange.
  apply (forUpTo_rel (inStep W H n) (fun e1 e2 => sameScan W H (inl e1) (inl e2)));
    [done|].
  intros x u1 u2 Hx Hu. destruct (Hn _ _ Hu) as [Hl HDu].
  pose proof (agree_scanVoxel W H x y z u1 u2) as Hstep.
  rewrite Hl in Hstep. apply Hstep; [done|]. rewrite HDu. simpl. lia.
Qed.

(** C6: the labeling pass depends on the contents of the grid alone.  Two
    runs on grids that hold the same value at every voxel end alike: both
    run to the end or both are left at line 185, with the same counter (so
    the same component count) and the same value at every voxel.  The
    fuel of the fills and what the buffers hold past the grid play no part. *)
Theorem labeling_is_deterministic W H g1 g2 :
  agree W H g1 g2 →
  sameScan W H (labelComponents W H g1) (labelComponents W H g2).
Proof. apply agree_labelComponents. Qed.

Lemma labeling_is_deterministic_witness :
  sameScan 2 1 (labelComponents 2 1 [[2; 1; 9]; [1; 2]])
               (labelComponents 2 1 [[2; 1]; [1; 2; 2; 2]]).
Proof.
  apply (labeling_is_deterministic 2 1 [[2; 1; 9]; [1; 2]] [[2; 1]; [1; 2; 2; 2]]).
  split; [reflexivity|].
  intros [[x y] z] (Hx & Hy & Hz). unfold numImgsOf in Hz. simpl in *.
  assert (x = 0 ∨ x = 1) as [-> | ->] by lia;
    assert (y = 0) as -> by lia;
    assert (z = 0 ∨ z = 1) as [-> | ->] by lia; reflexivity.
Defined.

(** ** Remapping *)

Lemma remap_byte v : 0 ≤ v < 256 → 0 ≤ remap v < 256.
Proof.
  intros Hv. unfold remap, unlabeled, foreground, background.
  repeat (case_match; [lia|]). lia.
Qed.

Lemma remapPixel_lookup arr (k i : nat) :
  remapPixel arr (Z.of_nat k) !! i
  = if decide (i = k) then (fun v => toUint8 (remap v)) <$> arr !! i else arr !! i.
Proof.
  unfold remapPixel, readPx, writePx.
  rewrite !bool_decide_eq_true_2 by lia. rewrite Nat2Z.id.
  destruct (arr !! k) as [a|] eqn:Ha.
  - case_decide as Hik.
    + subst i. rewrite Ha. simpl. apply list_lookup_insert_eq.
      by eapply lookup_lt_Some.
    + by apply list_lookup_insert_ne.
  - case_decide as Hik; [|done]. subst i. by rewrite Ha.
Qed.

Lemma remapLoop_lookup n :
  ∀ (k : nat) arr (i : nat),
    remapLoop n (Z.of_nat k) arr !! i
    = if bool_decide (k ≤ i < k + n)%nat
      then (fun v => toUint8 (remap v)) <$> arr !! i else arr !! i.
Proof.
  induction n as [|n IH]; intros k arr i; simpl.
  - rewrite bool_decide_eq_false_2 by lia. done.
  - replace (Z.of_nat k + 1) with (Z.of_nat (S k)) by lia.
    rewrite IH, remapPixel_lookup.
    repeat case_bool_decide; repeat case_decide; try lia; done.
Qed.

(* On a buffer of bytes no longer than width times height the loop over j
   remaps every entry, once. *)
Lemma remapFrame_map wh arr :
  Forall isByte arr →
  (length arr ≤ Z.to_nat wh)%nat →
  remapFrame wh arr = map remap arr.
Proof.
  intros Hbytes Hlen. apply list_eq. intros i. unfold remapFrame.
  rewrite (remapLoop_lookup _ 0%nat), list_lookup_fmap.
  destruct (arr !! i) as [v|] eqn:Hv; simpl; [|by case_bool_decide].
  rewrite bool_decide_eq_true_2.
  - simpl. f_equal. apply toUint8_small, remap_byte.
    by apply (Forall_lookup_1 _ _ _ _ Hbytes Hv).
  - apply lookup_lt_Some in Hv. lia.
Qed.

(** ** The loop over the images *)

Lemma maybeReportProgress_eq cancelAt z numImgs this tr :
  maybeReportProgress cancelAt z numImgs this tr
  = match loadProgressCb this with
    | None => Next tt this tr
    | Some cb =>
        let tr' := tr ++ [ProgressCb cb z numImgs; Pause z] in
        if cancelAt z then Return (setCancelled true this) tr'
        else if cancelled this then Return this tr'
        else Next tt this tr'
    end.
Proof.
  unfold maybeReportProgress, bind, get, SafeInvoke_progress, pause, return_, ret.
  destruct (loadProgressCb this) as [cb|] eqn:Hcb; [|done].
  rewrite Hcb. rewrite <- app_assoc. simpl.
  destruct (cancelAt z); simpl; [done|]. by destruct (cancelled this).
Qed.

Lemma decodeImage_eq ifds (k : nat) this tr :
  decodeImage ifds (Z.of_nat k) this tr
  = match ifds !! k with
    | None => Throw (Exception "Cannot read properties of undefined") this tr
    | Some ifd =>
        match data ifd with
        | inl ex => Throw ex this tr
        | inr bytes => Next (ifd, bytes) this tr
        end
    end.
Proof.
  unfold decodeImage. rewrite bool_decide_eq_true_2 by lia. rewrite Nat2Z.id.
  destruct (ifds !! k) as [ifd|]; [|done]. by destruct (data ifd).
Qed.

(* What the loop over the images does, when it is entered with the
   cancellation flag clear. *)
Lemma remapImages_spec ifds numImgs wh cancelAt n :
  ∀ (k : nat) acc this tr,
    cancelled this = false →
    match remapImages n (Z.of_nat k) ifds numImgs wh cancelAt acc this tr with
    | Next bufs this' tr' =>
        this' = this
        ∧ ∃ ev frames,
            tr' = tr ++ ev ∧ completionCalls ev = []
            ∧ Forall (fun z => cancelAt z = false) (pauses ev)
            ∧ progressCalls ev
              = (if loadProgressCb this is Some _
                 then (fun z => (z, numImgs)) <$> seqZ (Z.of_nat k) (Z.of_nat n)
                 else [])
            ∧ data <$> take n (drop k ifds) = inr <$> frames
            ∧ length frames = n
            ∧ bufs = acc ++ (remapFrame wh <$> frames)
    | Return this' tr' =>
        ∃ ev, tr' = tr ++ ev ∧ completionCalls ev = []
              ∧ Exists (fun z => cancelAt z = true) (pauses ev)
    | Throw ex this' tr' =>
        this' = this
        ∧ (∃ ev, tr' = tr ++ ev ∧ completionCalls ev = []
                 ∧ Forall (fun z => cancelAt z = false) (pauses ev))
        ∧ ∃ i, (k ≤ i < k + n)%nat
               ∧ ∀ ifd bytes, ifds !! i = Some ifd → data ifd ≠ inr bytes
    | OutOfFuel => False
    end.
Proof.
  induction n as [|n IH]; intros k acc this tr Hc.
  { simpl. unfold ret. split; [done|]. exists [], []. simpl.
    rewrite !app_nil_r. split_and!; try done. by destruct (loadProgressCb this). }
  cbn [remapImages]. unfold bind at 1. rewrite decodeImage_eq.
  destruct (ifds !! k) as [ifd|] eqn:Hk.
  2:{ split; [done|]. split.
      - exists []. rewrite app_nil_r. done.
      - exists k. split; [lia|]. intros ifd bytes Hi. congruence. }
  destruct (data ifd) as [ex|bytes] eqn:Hd.
  { split; [done|]. split.
    - exists []. rewrite app_nil_r. done.
    - exists k. split; [lia|]. intros ifd' bytes Hi. congruence. }
  cbn [snd]. unfold bind at 1. rewrite maybeReportProgress_eq.
  replace (Z.of_nat k + 1) with (Z.of_nat (S k)) by lia.
  assert (Hdrop : take (S n) (drop k ifds) = ifd :: take n (drop (S k) ifds)).
  { by rewrite (drop_S _ _ _ Hk). }
  assert (Hseq : seqZ (Z.of_nat k) (Z.of_nat (S n))
                 = Z.of_nat k :: seqZ (Z.of_nat (S k)) (Z.of_nat n)).
  { rewrite seqZ_cons by lia. f_equal. f_equal; lia. }
  destruct (loadProgressCb this) as [cb|] eqn:Hcb.
  - cbv zeta. destruct (cancelAt (Z.of_nat k)) eqn:Hcz.
    { exists [ProgressCb cb (Z.of_nat k) numImgs; Pause (Z.of_nat k)].
      split_and!; [done|done|]. simpl. by left. }
    rewrite Hc.
    specialize (IH (S k) (acc ++ [remapFrame wh bytes]) this
                  (tr ++ [ProgressCb cb (Z.of_nat k) numImgs; Pause (Z.of_nat k)]) Hc).
    destruct (remapImages n _ ifds numImgs wh cancelAt _ this _)
      as [bufs this' tr'|this' tr'|ex this' tr'|].
    + destruct IH as (-> & ev & frames & -> & Hcc & Hp & Hpr & Hfr & Hlen & ->).
      split; [done|].
      exists ([ProgressCb cb (Z.of_nat k) numImgs; Pause (Z.of_nat k)] ++ ev),
        (bytes :: frames).
      rewrite Hcb in *. split_and!.
      * by rewrite app_assoc.
      * done.
      * simpl. by constructor.
      * simpl. rewrite Hpr, Hseq. done.
      * rewrite Hdrop, !fmap_cons, Hd, Hfr. done.
      * simpl. by rewrite Hlen.
      * rewrite fmap_cons. by rewrite <- app_assoc.
    + destruct IH as (ev & -> & Hcc & Hp).
      exists ([ProgressCb cb (Z.of_nat k) numImgs; Pause (Z.of_nat k)] ++ ev).
      split_and!; [by rewrite app_assoc|done|]. simpl. by right.
    + destruct IH as (-> & (ev & -> & Hcc & Hp) & i & Hi & Hbad).
      split; [done|]. split.
      * exists ([ProgressCb cb (Z.of_nat k) numImgs; Pause (Z.of_nat k)] ++ ev).
        split_and!; [by rewrite app_assoc|done|]. simpl. by constructor.
      * exists i. split; [lia|done].
    + done.
  - specialize (IH (S k) (acc ++ [remapFrame wh bytes]) this tr Hc).
    destruct (remapImages n _ ifds numImgs wh cancelAt _ this _)
      as [bufs this' tr'|this' tr'|ex this' tr'|].
    + destruct IH as (-> & ev & frames & -> & Hcc & Hp & Hpr & Hfr & Hlen & ->).
      split; [done|]. exists ev, (bytes :: frames).
      rewrite Hcb in *. split_and!; try done.
      * rewrite Hdrop, !fmap_cons, Hd, Hfr. done.
      * simpl. by rewrite Hlen.
      * rewrite fmap_cons. by rewrite <- app_assoc.
    + done.
    + destruct IH as (-> & Hev & i & Hi & Hbad).
      split; [done|]. split; [done|]. exists i. split; [lia|done].
    + done.
Qed.

(** C4: the remap table.  Raw 0 becomes Background (1), raw 1 becomes
    Foreground (2), raw 2 becomes Unlabeled (0), every other value stays; on
    {0,1,2} the table is one-to-one and onto, and applying it twice never
    gives the value back; and when the loop over the images runs through,
    every entry of every frame (frames being byte buffers of width times
    height entries) has been remapped exactly once. *)
Theorem remap_table_applied_once :
  (remap 0 = background ∧ remap 1 = foreground ∧ remap 2 = unlabeled)
  ∧ (∀ v, v ≠ 0 → v ≠ 1 → v ≠ 2 → remap v = v)
  ∧ (∀ v, 0 ≤ v ≤ 2 → 0 ≤ remap v ≤ 2)
  ∧ (∀ u v, 0 ≤ u ≤ 2 → 0 ≤ v ≤ 2 → remap u = remap v → u = v)
  ∧ (∀ v, 0 ≤ v ≤ 2 → ∃ u, 0 ≤ u ≤ 2 ∧ remap u = v)
  ∧ (∀ v, 0 ≤ v ≤ 2 → remap (remap v) ≠ v)
  ∧ (∀ ifds frames numImgs wh cancelAt this tr bufs this' tr',
       cancelled this = false →
       data <$> ifds = inr <$> frames →
       Forall (fun arr => Forall isByte arr ∧ Z.of_nat (length arr) = wh) frames →
       remapImages (length ifds) 0 ifds numImgs wh cancelAt [] this tr
       = Next bufs this' tr' →
       bufs = map (map remap) frames).
Proof.
  assert (Hcases : ∀ v, 0 ≤ v ≤ 2 → v = 0 ∨ v = 1 ∨ v = 2) by lia.
  split_and!.
  - done.
  - done.
  - done.
  - intros v H0 H1 H2. unfold remap.
    repeat (case_match; [lia|]). done.
  - intros v [-> | [-> | ->]]%Hcases; compute; split; discriminate.
  - intros u v [-> | [-> | ->]]%Hcases [-> | [-> | ->]]%Hcases; compute; congruence.
  - intros v [-> | [-> | ->]]%Hcases; [exists 2|exists 0|exists 1]; compute;
      (split; [split; discriminate|done]).
  - intros v [-> | [-> | ->]]%Hcases; compute; discriminate.
  - intros ifds frames numImgs wh cancelAt this tr bufs this' tr' Hc Hdata Hframes Hrun.
    pose proof (remapImages_spec ifds numImgs wh cancelAt (length ifds) 0 [] this tr Hc)
      as Hspec.
    change (Z.of_nat 0) with 0 in Hspec. rewrite Hrun in Hspec.
    destruct Hspec as (_ & ev & frames' & _ & _ & _ & _ & Hfr & _ & ->).
    rewrite drop_0, firstn_all, Hdata in Hfr.
    apply (inj (fmap inr)) in Hfr. subst frames'. simpl.
    apply Forall_fmap_ext_1. eapply Forall_impl; [exact Hframes|].
    intros arr [Hb Hlen]. apply remapFrame_map; [done|lia].
Qed.

Lemma remap_table_applied_once_witness :
  remapImages 2 0 [mkIfd 2 1 8 (inr [0; 1]); mkIfd 2 1 8 (inr [2; 7])] 2 2
    (fun _ => false) [] freshLoader [] = Next [[1; 2]; [0; 7]] freshLoader []
  ∧ [[1; 2]; [0; 7]] = map (map remap) [[0; 1]; [2; 7]].
Proof.
  split; [reflexivity|].
  apply (proj2 (proj2 (proj2 (proj2 (proj2 (proj2 remap_table_applied_once)))))
           [mkIfd 2 1 8 (inr [0; 1]); mkIfd 2 1 8 (inr [2; 7])] [[0; 1]; [2; 7]]
           2 2 (fun _ => false) freshLoader [] [[1; 2]; [0; 7]] freshLoader []);
    [reflexivity|reflexivity| |reflexivity].
  repeat constructor; unfold isByte; lia.
Defined.

(** ** The handler *)

Lemma SafeInvoke_complete_eq this tr :
  ∃ ev, SafeInvoke_complete this tr = Next tt this (tr ++ ev)
        ∧ progressCalls ev = [] ∧ pauses ev = []
        ∧ completionCalls ev = (if loadCompleteCb this is Some _ then [this] else []).
Proof.
  unfold SafeInvoke_complete. destruct (loadCompleteCb this) as [cb|].
  - by exists [CompleteCb cb this].
  - exists []. by rewrite app_nil_r.
Qed.

(* The labeling pass either runs to its end and sets the count, or is left
   at line 185, where the assignment to the undeclared name throws before
   the error text of line 187 is set. *)
Lemma labelPhase_cases js W H bufs this tr :
  (∃ g c, labelComponents W H bufs = inr (g, c)
          ∧ labelPhase js W H bufs this tr
            = Next g (setNumLabelsFound (c - 3) this) tr)
  ∨ (∃ g c, labelComponents W H bufs = inl (TooMany g c)
            ∧ labelPhase js W H bufs this tr
              = Throw (Exception (undeclaredAssignment js "tooManyComponents")) this tr).
Proof.
  pose proof (labelComponents_post W H bufs) as Hpost. unfold labelPhase.
  destruct (labelComponents W H bufs) as [[g c|]|[g c]]; simpl in Hpost.
  - right. by exists g, c.
  - done.
  - left. by exists g, c.
Qed.

Lemma uploadPhase_trace ext W H n bpp g this tr :
  ∃ this' ev,
    (uploadPhase ext W H n bpp g this tr = Return this' (tr ++ ev)
     ∨ uploadPhase ext W H n bpp g this tr = Next tt this' (tr ++ ev))
    ∧ progressCalls ev = [] ∧ pauses ev = [].
Proof.
  unfold uploadPhase, bind, emit, modify, get, return_, ret.
  destruct (truthy _).
  - destruct (SafeInvoke_complete_eq
                (setDone true (setErrors (vol_loadBegin ext [W; H; n] bpp) this))
                (tr ++ [VolLoadBegin [W; H; n] bpp])) as (ev & -> & Hp & Hz & _).
    eexists _, ([VolLoadBegin [W; H; n] bpp] ++ ev). split.
    + left. by rewrite app_assoc.
    + simpl. done.
  - destruct (negb _).
    + match goal with
      | |- context [SafeInvoke_complete ?t ?l] =>
          destruct (SafeInvoke_complete_eq t l) as (ev & -> & Hp & Hz & _)
      end.
      eexists _, ([VolLoadBegin [W; H; n] bpp; CopyImagesToTexture 0 n g; VolLoadEnd] ++ ev).
      split.
      * left. by rewrite <- !app_assoc.
      * simpl. done.
    + eexists _, [VolLoadBegin [W; H; n] bpp; CopyImagesToTexture 0 n g]. split.
      * right. by rewrite <- !app_assoc.
      * done.
Qed.

Lemma onImageLoadingError_trace arg this tr :
  ∃ this' ev,
    _onImageLoadingError arg this tr = (this', tr ++ ev)
    ∧ progressCalls ev = [] ∧ pauses ev = []
    ∧ (cancelled this = true → ev = [])
    ∧ (cancelled this = false → done this = false →
       done this' = true ∧ numLabelsFound this' = numLabelsFound this
       ∧ completionCalls ev = (if loadCompleteCb this is Some _ then [this'] else [])
       ∧ errors this'
         = Some match arg with
                | ReaderArg fileName => "Error loading image " +:+ fileName
                | Exception message =>
                    if bool_decide (message = "") then "Error loading image."
                    else message
                end).
Proof.
  unfold _onImageLoadingError.
  destruct (cancelled this) eqn:Hc; simpl.
  { exists this, []. rewrite app_nil_r. done. }
  destruct (done this) eqn:Hd; simpl.
  { exists this, []. rewrite app_nil_r. done. }
  match goal with
  | |- context [SafeInvoke_complete ?t ?l] =>
      destruct (SafeInvoke_complete_eq t l) as (ev & -> & Hp & Hz & Hcc)
  end.
  eexists _, ev. split; [done|]. split_and!; [done|done|done|].
  intros _ _. destruct arg as [message|fileName]; [case_bool_decide|]; by rewrite Hcc.
Qed.

(* Every run of the handler gives a result; the events it adds hold a
   completion call only if the flag was clear on entry and stayed clear
   through every pause. *)
Lemma handler_trace js ext cancelAt decoded this tr :
  ∃ this' ev,
    _handleMultiImageTiff js ext cancelAt decoded this tr = Some (this', tr ++ ev)
    ∧ (completionCalls ev = []
       ∨ (cancelled this = false
          ∧ Forall (fun z => cancelAt z = false) (pauses ev))).
Proof.
  unfold _handleMultiImageTiff.
  destruct (cancelled this) eqn:Hc.
  { exists this, []. rewrite app_nil_r. split; [done|by left]. }
  destruct decoded as [ex|ifds].
  { exists this, []. rewrite app_nil_r. split; [done|by left]. }
  unfold tryBlock. unfold bind at 1.
  change 0 with (Z.of_nat 0). rewrite decodeImage_eq.
  assert (Herr : ∀ ex this1 ev1,
            Forall (fun z => cancelAt z = false) (pauses ev1) →
            ∃ this' ev,
              Some (_onImageLoadingError ex this1 (tr ++ ev1)) = Some (this', tr ++ ev)
              ∧ (completionCalls ev = []
                 ∨ false = false ∧ Forall (fun z => cancelAt z = false) (pauses ev))).
  { intros ex this1 ev1 Hev1.
    destruct (onImageLoadingError_trace ex this1 (tr ++ ev1))
      as (this' & ev2 & -> & _ & Hz & _).
    exists this', (ev1 ++ ev2). split; [by rewrite app_assoc|]. right.
    split; [done|]. unfold pauses in *. rewrite omap_app, Hz, app_nil_r. done. }
  destruct (ifds !! 0%nat) as [ifd0|] eqn:H0.
  2:{ specialize (Herr (Exception "Cannot read properties of undefined") this []).
      rewrite app_nil_r in Herr. by apply Herr. }
  destruct (data ifd0) as [ex|bytes0] eqn:Hd0.
  { specialize (Herr ex this []). rewrite app_nil_r in Herr. by apply Herr. }
  cbn [fst]. case_bool_decide as Hbpp.
  { unfold bind, modify, return_.
    match goal with
    | |- context [SafeInvoke_complete ?t ?l] =>
        destruct (SafeInvoke_complete_eq t l) as (ev & -> & Hp & Hz & _)
    end.
    eexists _, ev. split; [done|]. right. split; [done|]. by rewrite Hz. }
  unfold bind at 1.
  pose proof (remapImages_spec ifds (Z.of_nat (length ifds))
                (width ifd0 * height ifd0) cancelAt (length ifds) 0 [] this tr Hc)
    as Hspec.
  destruct (remapImages _ _ ifds _ _ cancelAt [] this tr)
    as [bufs this1 tr1|this1 tr1|ex this1 tr1|].
  - destruct Hspec as (-> & ev1 & frames & -> & Hcc1 & Hp1 & _).
    unfold bind at 1.
    destruct (labelPhase_cases js (width ifd0) (height ifd0) bufs this (tr ++ ev1))
      as [(g & c & _ & ->)|(g & c & _ & ->)].
    + destruct (uploadPhase_trace ext (width ifd0) (height ifd0)
                  (Z.of_nat (length ifds)) (t258 ifd0) g
                  (setNumLabelsFound (c - 3) this) (tr ++ ev1))
        as (this' & ev2 & [-> | ->] & _ & Hz).
      * exists this', (ev1 ++ ev2). split; [by rewrite app_assoc|]. right.
        split; [done|]. unfold pauses in *. by rewrite omap_app, Hz, app_nil_r.
      * exists this', (ev1 ++ ev2). split; [by rewrite app_assoc|]. right.
        split; [done|]. unfold pauses in *. by rewrite omap_app, Hz, app_nil_r.
    + by apply Herr.
  - destruct Hspec as (ev1 & -> & Hcc1 & _).
    exists this1, ev1. split; [done|by left].
  - destruct Hspec as (-> & (ev1 & -> & Hcc1 & Hp1) & _). by apply Herr.
  - done.
Qed.

(** ** The load request *)

Lemma loadImagesIntoVolume_cases imgFiles ccb pcb this :
  let this0 := mkLoader imgFiles None None false (cancelled this) 0 ccb pcb in
  (imgFiles = []
   ∧ ∃ this', this' = setWarnings (Some "LabelLoader: No files were loaded, because the supplied file list was empty.") (setDone true this0)
       ∧ loadImagesIntoVolume imgFiles ccb pcb this
         = (this', match ccb with Some cb => [CompleteCb cb this'] | None => [] end))
  ∨ (existsb (fun f => negb (isFileLike f)) imgFiles = true
     ∧ ∃ this', this' = setErrors (Some "LabelLoader: Invalid item in file list.") (setDone true this0)
         ∧ loadImagesIntoVolume imgFiles ccb pcb this
           = (this', match ccb with Some cb => [CompleteCb cb this'] | None => [] end))
  ∨ (existsb (fun f => negb (isFileLike f)) imgFiles = false
     ∧ ∃ f rest, imgFiles = f :: rest
         ∧ loadImagesIntoVolume imgFiles ccb pcb this
           = (this0,
              match pcb with
              | Some cb => [ProgressCb cb 0 (Z.of_nat (length imgFiles))]
              | None => []
              end
              ++ [match f with
                  | FileSystemFileHandle _ => GetFile f
                  | _ => ReadAsArrayBuffer f
                  end])).
Proof.
  intros this0. unfold loadImagesIntoVolume. fold this0.
  destruct imgFiles as [|f rest].
  { left. split; [done|]. eexists. split; [done|].
    unfold this0. simpl. unfold bind, modify, SafeInvoke_complete, return_. simpl.
    by destruct ccb. }
  right. destruct (existsb (fun f => negb (isFileLike f)) (f :: rest)) eqn:Hex.
  - left. split; [done|]. eexists. split; [done|].
    unfold this0 in *. cbn [fileList length bool_decide]. unfold bind at 1.
    rewrite bool_decide_eq_false_2 by done. unfold ret at 1. unfold bind at 1.
    cbn [fileList]. rewrite Hex.
    unfold bind, modify, SafeInvoke_complete, return_. simpl. by destruct ccb.
  - right. split; [done|]. exists f, rest. split; [done|].
    unfold this0 in *. cbn [fileList]. unfold bind at 1.
    rewrite bool_decide_eq_false_2 by done. unfold ret at 1. unfold bind at 1.
    rewrite Hex. unfold ret at 1. unfold bind at 1.
    unfold SafeInvoke_progress. cbn [loadProgressCb].
    destruct pcb as [cb|]; destruct f; reflexivity.
Qed.

Lemma elem_of_pauses z tr : z ∈ pauses tr ↔ Pause z ∈ tr.
Proof.
  unfold pauses. rewrite list_elem_of_omap. split.
  - intros (e & He & Hz). destruct e; by simplify_eq.
  - intros Hz. by exists (Pause z).
Qed.

(** C9: a list with an item that is neither a File nor a
    FileSystemFileHandle fails inside the load request itself: the loader
    is marked done with the error text set, the completion callback (when
    one was given) is called once, with the loader, no read is started, and
    nothing follows however the session continues. *)
Theorem invalid_item_fails_synchronously imgFiles ccb pcb this :
  (∃ f, f ∈ imgFiles ∧ isFileLike f = false) →
  ∃ this' tr,
    loadImagesIntoVolume imgFiles ccb pcb this = (this', tr)
    ∧ done this' = true
    ∧ errors this' = Some "LabelLoader: Invalid item in file list."
    ∧ completionCalls tr = (if ccb is Some _ then [this'] else [])
    ∧ readStarted tr = false
    ∧ ∀ js ext cancelEarly cancelAt rr,
        session js ext imgFiles ccb pcb cancelEarly cancelAt rr this = Some (this', tr).
Proof.
  intros (f & Hf & Hbad).
  assert (Hex : existsb (fun f => negb (isFileLike f)) imgFiles = true).
  { apply existsb_exists. exists f. split; [by apply list_elem_of_In|].
    by rewrite Hbad. }
  destruct (loadImagesIntoVolume_cases imgFiles ccb pcb this)
    as [(-> & _)|[(_ & t & Ht & Hload)|(Hno & _)]].
  - by apply elem_of_nil in Hf.
  - exists t, (match ccb with Some cb => [CompleteCb cb t] | None => [] end).
    assert (Hrs : readStarted (match ccb with Some cb => [CompleteCb cb t] | None => [] end)
                  = false) by (by destruct ccb).
    split_and!; [done|by subst t|by subst t|by destruct ccb|done|].
    intros js ext cancelEarly cancelAt rr. unfold session. rewrite Hload.
    by rewrite Hrs.
  - congruence.
Qed.

Lemma invalid_item_fails_synchronously_witness :
  ∃ this' tr,
    loadImagesIntoVolume [File "a.tif"; OtherItem "a string"] (Some (Fn 1)) None freshLoader
    = (this', tr)
    ∧ done this' = true
    ∧ errors this' = Some "LabelLoader: Invalid item in file list."
    ∧ completionCalls tr = [this']
    ∧ readStarted tr = false
    ∧ ∀ js ext cancelEarly cancelAt rr,
        session js ext [File "a.tif"; OtherItem "a string"] (Some (Fn 1)) None
          cancelEarly cancelAt rr freshLoader = Some (this', tr).
Proof.
  apply (invalid_item_fails_synchronously [File "a.tif"; OtherItem "a string"]
           (Some (Fn 1)) None freshLoader).
  exists (OtherItem "a string"). split; [|reflexivity].
  apply list_elem_of_In. simpl. tauto.
Defined.

(** ** Progress reports *)

Lemma all_decoded_lookup (ifds : list Ifd) (frames : list (list Z)) i ifd :
  data <$> ifds = inr <$> frames → ifds !! i = Some ifd →
  ∃ bytes, data ifd = inr bytes.
Proof.
  intros Hdata Hi.
  assert (Hl : (data <$> ifds) !! i = Some (data ifd)) by (by rewrite list_lookup_fmap, Hi).
  rewrite Hdata, list_lookup_fmap in Hl.
  destruct (frames !! i) as [bytes|]; simplify_eq/=. by exists bytes.
Qed.

(* The progress calls of the handler when every frame decodes, the first
   frame has 8 bits per sample and no cancellation is requested. *)
Lemma handler_progress js ext cancelAt ifds frames cb this tr :
  cancelled this = false →
  loadProgressCb this = Some cb →
  (∀ z, cancelAt z = false) →
  data <$> ifds = inr <$> frames →
  (∀ ifd0, ifds !! 0%nat = Some ifd0 → t258 ifd0 = 8) →
  ∃ this' ev,
    _handleMultiImageTiff js ext cancelAt (inr ifds) this tr = Some (this', tr ++ ev)
    ∧ progressCalls ev
      = (fun z => (z, Z.of_nat (length ifds))) <$> seqZ 0 (Z.of_nat (length ifds)).
Proof.
  intros Hc Hcb Hquiet Hdata Hbpp.
  unfold _handleMultiImageTiff. rewrite Hc.
  unfold tryBlock. unfold bind at 1.
  change 0 with (Z.of_nat 0) at 1. rewrite decodeImage_eq.
  destruct (ifds !! 0%nat) as [ifd0|] eqn:H0.
  2:{ destruct ifds; [|done].
      destruct (onImageLoadingError_trace
                  (Exception "Cannot read properties of undefined") this tr)
        as (this' & ev & -> & Hp & _).
      by exists this', ev. }
  destruct (all_decoded_lookup ifds frames 0 ifd0 Hdata H0) as [bytes0 Hd0].
  rewrite Hd0. cbn [fst]. rewrite bool_decide_eq_false_2 by (rewrite (Hbpp _ eq_refl); lia).
  unfold bind at 1.
  pose proof (remapImages_spec ifds (Z.of_nat (length ifds))
                (width ifd0 * height ifd0) cancelAt (length ifds) 0 [] this tr Hc)
    as Hspec.
  change (Z.of_nat 0) with 0 in Hspec.
  destruct (remapImages _ _ ifds _ _ cancelAt [] this tr)
    as [bufs this1 tr1|this1 tr1|ex this1 tr1|].
  - destruct Hspec as (-> & ev1 & frames' & -> & _ & _ & Hpr & _).
    rewrite Hcb in Hpr. unfold bind at 1.
    destruct (labelPhase_cases js (width ifd0) (height ifd0) bufs this (tr ++ ev1))
      as [(g & c & _ & ->)|(g & c & _ & ->)].
    + destruct (uploadPhase_trace ext (width ifd0) (height ifd0)
                  (Z.of_nat (length ifds)) (t258 ifd0) g
                  (setNumLabelsFound (c - 3) this) (tr ++ ev1))
        as (this' & ev2 & [-> | ->] & Hp2 & _);
        exists this', (ev1 ++ ev2); (split; [by rewrite app_assoc|]);
        unfold progressCalls in *; by rewrite omap_app, Hp2, app_nil_r.
    + destruct (onImageLoadingError_trace
                  (Exception (undeclaredAssignment js "tooManyComponents")) this
                  (tr ++ ev1)) as (this' & ev2 & -> & Hp2 & _).
      exists this', (ev1 ++ ev2). split; [by rewrite app_assoc|].
      unfold progressCalls in *. by rewrite omap_app, Hp2, app_nil_r.
  - exfalso. destruct Hspec as (ev1 & _ & _ & Hex).
    apply Exists_exists in Hex as (z & _ & Hz). by rewrite Hquiet in Hz.
  - exfalso. destruct Hspec as (_ & _ & i & Hi & Hbad).
    destruct (ifds !! i) as [ifd|] eqn:Hifd.
    + destruct (all_decoded_lookup ifds frames i ifd Hdata Hifd) as [bytes Hd].
      by apply (Hbad ifd bytes).
    + apply lookup_ge_None in Hifd. lia.
  - done.
Qed.


(** ** The capacity limit *)

Lemma component_ids_unique_increasing_below_seed_witness :
  idsSpec 3 2 [[2; 1; 2; 2; 1; 1]; [1; 1; 1; 1; 1; 2]]
              [[3; 1; 4; 3; 1; 1]; [1; 1; 1; 1; 1; 4]] 5.
Proof.
  exact (component_ids_unique_increasing_below_seed 3 2
           [[2; 1; 2; 2; 1; 1]; [1; 1; 1; 1; 1; 2]]).
Defined.

(* With 251 blobs the load still succeeds and reports 251 components. *)
Example load_with_251_components :
  ∃ this' tr,
    session v8 acceptingExtern [File "labels.tif"] (Some (Fn 1)) None false
      (fun _ => false) (Loaded (inr [mkIfd 502 1 8 (inr (blobRow 251))])) freshLoader
    = Some (this', tr)
    ∧ errors this' = None ∧ done this' = true ∧ numLabelsFound this' = 251
    ∧ completionCalls tr = [this'].
Proof. eexists _, _. split; [vm_compute; reflexivity|]. done. Qed.

(** C1: a row of 252 single-voxel Foreground blobs, no two adjacent.  The
    scan is left at line 185; the first statement there assigns to
    [tooManyComponents], a name the file never declares, which in strict
    mode throws; the catch block hands the exception to
    [_onImageLoadingError], so the loader ends done, with the completion
    callback called once and no component count set, but with the error
    text of the ReferenceError instead of the text of line 187. *)
Theorem too_many_components_error_text_is_lost :
  ∃ this' tr,
    session v8 acceptingExtern [File "labels.tif"] (Some (Fn 1)) None false
      (fun _ => false) (Loaded (inr [mkIfd 504 1 8 (inr (blobRow 252))])) freshLoader
    = Some (this', tr)
    ∧ errors this' = Some "tooManyComponents is not defined"
    ∧ errors this' ≠ Some "LabelLoader: Volume has too many connected components."
    ∧ done this' = true
    ∧ numLabelsFound this' = 0
    ∧ completionCalls tr = [this'].
Proof. eexists _, _. split; [vm_compute; reflexivity|]. done. Qed.

(** * Further properties of the labeling code *)

(** ** One fill *)

(** X1: the fill that lines 139-183 run from a Foreground voxel ends with
    an empty worklist, keeps the number of images, gives the component
    value to every voxel of the start voxel's maximal 26-connected
    Foreground region and leaves every other voxel of the grid as it was. *)
Theorem fill_labels_exactly_the_region W H g s c :
  isFg W H g s → 3 ≤ c < 255 →
  ∃ g', floodFill (fillFuel (setVoxel W g s seedVal)) W H c (startFill W g s)
        = Some (g', [])
        ∧ length g' = length g
        ∧ ∀ q, inBounds W H (numImgsOf g) q →
               (sameRegion W H g s q ∧ getVoxel W g' q = Some c)
               ∨ (¬ sameRegion W H g s q ∧ getVoxel W g' q = getVoxel W g q).
Proof. apply floodFill_region. Qed.

Lemma fill_labels_exactly_the_region_witness :
  ∃ g', floodFill (fillFuel (setVoxel 3 [[2; 2; 1]] (0, 0, 0) seedVal)) 3 1 7
          (startFill 3 [[2; 2; 1]] (0, 0, 0))
        = Some (g', [])
        ∧ length g' = length [[2; 2; 1]]
        ∧ ∀ q, inBounds 3 1 (numImgsOf [[2; 2; 1]]) q →
               (sameRegion 3 1 [[2; 2; 1]] (0, 0, 0) q ∧ getVoxel 3 g' q = Some 7)
               ∨ (¬ sameRegion 3 1 [[2; 2; 1]] (0, 0, 0) q
                  ∧ getVoxel 3 g' q = getVoxel 3 [[2; 2; 1]] q).
Proof.
  apply (fill_labels_exactly_the_region 3 1 [[2; 2; 1]] (0, 0, 0) 7); [|lia].
  split; [unfold numImgsOf; simpl; lia|reflexivity].
Defined.

(** ** The neighbour loops *)

Lemma rowNeighbours_NoDup W seedX yp zp : NoDup (rowNeighbours W seedX yp zp).
Proof.
  unfold rowNeighbours. repeat case_bool_decide; simpl;
    repeat (apply NoDup_cons; split;
            [rewrite ?elem_of_cons, ?elem_of_nil; intros H';
             repeat destruct H' as [H'|H']; try done; simplify_eq; lia|]);
    apply NoDup_nil_2.
Qed.

Lemma planeNeighbours_NoDup W H seedX seedY zp :
  NoDup (planeNeighbours W H seedX seedY zp).
Proof.
  unfold planeNeighbours. apply NoDup_bind.
  - intros dy1 dy2 q _ _ Hq1 Hq2.
    simpl in Hq1, Hq2.
    repeat case_bool_decide;
      try (by apply elem_of_nil in Hq1); try (by apply elem_of_nil in Hq2).
    apply elem_of_rowNeighbours in Hq1 as (x1 & -> & _).
    apply elem_of_rowNeighbours in Hq2 as (x2 & Heq & _). simplify_eq. lia.
  - intros dy _. case_bool_decide; [apply NoDup_nil_2|apply rowNeighbours_NoDup].
  - repeat (apply NoDup_cons; split;
            [rewrite ?elem_of_cons, ?elem_of_nil; intros H';
             repeat destruct H' as [H'|H']; done|]).
    apply NoDup_nil_2.
Qed.

Lemma neighbours_NoDup W H D seed : NoDup (neighbours W H D seed).
Proof.
  destruct seed as [[seedX seedY] seedZ]. unfold neighbours. apply NoDup_bind.
  - intros dz1 dz2 q _ _ Hq1 Hq2.
    simpl in Hq1, Hq2.
    repeat case_bool_decide;
      try (by apply elem_of_nil in Hq1); try (by apply elem_of_nil in Hq2).
    apply elem_of_planeNeighbours in Hq1 as (x1 & y1 & -> & _).
    apply elem_of_planeNeighbours in Hq2 as (x2 & y2 & Heq & _). simplify_eq. lia.
  - intros dz _. case_bool_decide; [apply NoDup_nil_2|apply planeNeighbours_NoDup].
  - repeat (apply NoDup_cons; split;
            [rewrite ?elem_of_cons, ?elem_of_nil; intros H';
             repeat destruct H' as [H'|H']; done|]).
    apply NoDup_nil_2.
Qed.

(** X2: for a voxel inside the grid the three neighbour loops (lines
    148-182) run the probe of lines 162-165 on a list of coordinates
    without repetition that holds exactly the coordinates inside the grid
    at offsets in {-1,0,1}³ from the voxel; so every such neighbour, and
    the voxel itself, is probed once, and nothing outside the grid is
    addressed. *)
Theorem neighbour_loops_probe_each_neighbour_once W H D st seed :
  inBounds W H D seed →
  ∃ L, visitNeighbours W H D st seed = foldl (probeAt W) st L
       ∧ NoDup L
       ∧ (length L ≤ 27)%nat
       ∧ ∀ q, q ∈ L ↔ adjacent seed q ∧ inBounds W H D q.
Proof.
  intros Hseed. exists (neighbours W H D seed). split_and!.
  - apply visitNeighbours_eq.
  - apply neighbours_NoDup.
  - destruct seed as [[seedX seedY] seedZ]. unfold neighbours, planeNeighbours, rowNeighbours.
    simpl. repeat case_bool_decide; simpl; lia.
  - intros q. by apply elem_of_neighbours.
Qed.

Lemma neighbour_loops_probe_each_neighbour_once_witness :
  ∃ L, visitNeighbours 2 2 1 ([[2; 2; 1; 2]], []) (0, 0, 0)
       = foldl (probeAt 2) ([[2; 2; 1; 2]], []) L
       ∧ NoDup L
       ∧ (length L ≤ 27)%nat
       ∧ ∀ q, q ∈ L ↔ adjacent (0, 0, 0) q ∧ inBounds 2 2 1 q.
Proof.
  apply (neighbour_loops_probe_each_neighbour_once 2 2 1 ([[2; 2; 1; 2]], []) (0, 0, 0)).
  simpl. lia.
Defined.

(** ** The scan as a whole, further *)

Lemma labelComponents_idle W H g :
  (∀ p, inBounds W H (numImgsOf g) p → getVoxel W g p ≠ Some foreground) →
  labelComponents W H g = inr (g, 3).
Proof.
  intros Hno. unfold labelComponents. apply forRange_id. intros z Hz.
  unfold scanImage. apply forRange_id. intros y Hy.
  unfold scanRow. apply forRange_id. intros x Hx.
  apply scanVoxel_no_foreground. apply Hno. simpl. lia.
Qed.

(** X3: a scan that has run to its end leaves no voxel of the grid holding
    Foreground, and a second scan of its result finds nothing to do: it
    returns that grid unchanged with the counter still at 3. *)
Theorem finished_scan_leaves_no_foreground W H G0 g c :
  labelComponents W H G0 = inr (g, c) →
  (∀ p, inBounds W H (numImgsOf G0) p → getVoxel W g p ≠ Some foreground)
  ∧ labelComponents W H g = inr (g, 3).
Proof.
  intros Hrun. pose proof (labelComponents_post W H G0) as Hpost.
  rewrite Hrun in Hpost. destruct Hpost as [Hinv [_ HScan]]. simpl in HScan.
  destruct Hinv as (Hlen & _ & HF & _).
  assert (Hno : ∀ p, inBounds W H (numImgsOf G0) p → getVoxel W g p ≠ Some foreground).
  { intros p Hp. destruct (decide (getVoxel W G0 p = Some foreground)) as [Hfg|Hfg].
    - apply HScan; [by split|]. destruct p as [[x y] z]. simpl in *. lia.
    - rewrite HF; [done|done|]. by intros [_ ?]. }
  split; [done|]. apply labelComponents_idle.
  by rewrite (numImgsOf_length g G0 Hlen).
Qed.

Lemma finished_scan_leaves_no_foreground_witness :
  (∀ p, inBounds 3 2 (numImgsOf [[2; 1; 2; 2; 1; 1]; [1; 1; 1; 1; 1; 2]]) p →
        getVoxel 3 [[3; 1; 4; 3; 1; 1]; [1; 1; 1; 1; 1; 4]] p ≠ Some foreground)
  ∧ labelComponents 3 2 [[3; 1; 4; 3; 1; 1]; [1; 1; 1; 1; 1; 4]]
    = inr ([[3; 1; 4; 3; 1; 1]; [1; 1; 1; 1; 1; 4]], 3).
Proof.
  apply (finished_scan_leaves_no_foreground 3 2
           [[2; 1; 2; 2; 1; 1]; [1; 1; 1; 1; 1; 2]] _ 5).
  vm_compute. reflexivity.
Defined.

(** X4: the capacity of the value range.  A scan that runs to its end has
    its counter between 3 and 254, so it reports at most 251 components,
    and holds every value from 3 up to the counter at some voxel that was
    Foreground; a scan is left at line 185 exactly with the counter at 255,
    when each of the 252 values 3..254 has been given to some voxel. *)
Theorem count_at_most_251_and_every_value_used W H G0 :
  match labelComponents W H G0 with
  | inr (g, c) =>
      3 ≤ c ≤ 254 ∧ 0 ≤ c - 3 ≤ 251
      ∧ ∀ k, 3 ≤ k < c → ∃ q, isFg W H G0 q ∧ getVoxel W g q = Some k
  | inl (TooMany g c) =>
      c = 255
      ∧ ∀ k, 3 ≤ k ≤ 254 → ∃ q, isFg W H G0 q ∧ getVoxel W g q = Some k
  | inl FuelExhausted => False
  end.
Proof.
  pose proof (labelComponents_post W H G0) as Hpost.
  destruct (labelComponents W H G0) as [[g c|]|[g c]]; simpl in Hpost.
  - destruct Hpost as [-> [pos (_ & _ & _ & _ & _ & _ & _ & _ & HUsed)]].
    split; [done|]. intros k Hk. apply HUsed. lia.
  - done.
  - destruct Hpost as [(_ & Hc & _ & _ & _ & _ & _ & _ & HUsed) [Hc' _]]. simpl in Hc'.
    split_and!; try lia. done.
Qed.

(** ** What the scan keeps *)

Lemma setCell_shape g k v : length <$> setCell g k v = length <$> g.
Proof.
  unfold setCell. destruct (plane g k.1) as [buf|] eqn:Hp; [|done].
  apply plane_Some in Hp as [_ Hg].
  rewrite list_fmap_insert. apply list_insert_id.
  rewrite list_lookup_fmap, Hg. simpl. f_equal.
  unfold writePx. case_bool_decide; [symmetry; apply length_insert|done].
Qed.

Lemma setCell_bytes g k v :
  Forall (Forall isByte) g → Forall (Forall isByte) (setCell g k v).
Proof.
  intros Hg. unfold setCell. destruct (plane g k.1) as [buf|] eqn:Hp; [|done].
  apply plane_Some in Hp as [_ Hbuf].
  apply Forall_insert; [done|].
  pose proof (Forall_lookup_1 _ _ _ _ Hg Hbuf) as Hb.
  unfold writePx. case_bool_decide; [|done].
  apply Forall_insert; [done|]. unfold isByte, toUint8.
  apply Z.mod_pos_bound. lia.
Qed.

(* Whatever every single write keeps, the scan keeps. *)
Lemma labelComponents_preserves (P : Grid → Prop) W H :
  (∀ g k v, P g → P (setCell g k v)) →
  ∀ g, P g →
       match labelComponents W H g with
       | inr (g', _) | inl (TooMany g' _) => P g'
       | inl FuelExhausted => True
       end.
Proof.
  intros Hset.
  assert (Hprobes : ∀ L g seeds, P g → P (foldl (probeAt W) (g, seeds) L).1).
  { induction L as [|p L IH]; intros g seeds Hg; simpl; [done|].
    rewrite probeAt_eq. case_bool_decide; apply IH; [|done].
    rewrite setVoxel_cell. by apply Hset. }
  assert (Hfill : ∀ fuel c g seeds r,
            P g → floodFill fuel W H c (g, seeds) = Some r → P r.1).
  { induction fuel as [|fuel IH]; intros c g seeds r Hg Hrun.
    - destruct seeds; by simplify_eq/=.
    - destruct seeds as [|seed rest]; simpl in Hrun; [by simplify_eq/=|].
      destruct (fillStep W H c g seed rest) as [g1 s1] eqn:Hstep.
      eapply (IH c g1 s1); [|done].
      replace g1 with (fillStep W H c g seed rest).1 by (by rewrite Hstep).
      unfold fillStep. rewrite visitNeighbours_eq. apply Hprobes.
      rewrite setVoxel_cell. by apply Hset. }
  set (Q := fun e : ScanExit => match e with TooMany g' _ => P g' | FuelExhausted => True end).
  assert (Hvoxel : ∀ x y z (t : ScanState), P t.1 →
            match scanVoxel W H x y z t with
            | inl e => Q e
            | inr t' => P t'.1
            end).
  { intros x y z [g c] Hg. unfold scanVoxel. case_bool_decide; [done|].
    destruct (floodFill _ W H c _) as [[g2 s2]|] eqn:Hrun; [|done].
    assert (P g2).
    { apply (Hfill _ _ _ _ _ (Hset g (cellOf W (x, y, z)) seedVal Hg)) in Hrun.
      - done. }
    by case_bool_decide. }
  intros g Hg. unfold labelComponents.
  pose proof (forRange_inv (fun _ (t : ScanState) => P t.1) Q
                (fun z => scanImage W H z) (numImgsOf g) (g, 3) Hg) as Hz.
  assert (Hbody : ∀ z (t : ScanState), P t.1 →
            match scanImage W H z t with inl e => Q e | inr t' => P t'.1 end).
  { intros z t Ht. unfold scanImage.
    pose proof (forRange_inv (fun _ (t : ScanState) => P t.1) Q
                  (fun y => scanRow W H y z) H t Ht) as Hy.
    assert (Hrow : ∀ y (u : ScanState), P u.1 →
              match scanRow W H y z u with inl e => Q e | inr u' => P u'.1 end).
    { intros y u Hu. unfold scanRow.
      pose proof (forRange_inv (fun _ (t : ScanState) => P t.1) Q
                    (fun x => scanVoxel W H x y z) W u Hu) as Hx.
      destruct (forRange 0 W _ u); apply Hx; intros x v _ Hv; apply Hvoxel, Hv. }
    destruct (forRange 0 H _ t); apply Hy; intros y u _ Hu; apply Hrow, Hu. }
  destruct (forRange 0 (numImgsOf g) _ (g, 3)) as [[g' c|]|[g' c]] eqn:Hrun.
  - apply Hz. intros z t _ Ht. by apply Hbody.
  - done.
  - apply Hz. intros z t _ Ht. by apply Hbody.
Qed.

(** X5: the scan writes inside the buffers it is given only: whether it
    runs to its end or is left at line 185, the grid has as many images as
    before, each buffer has the length it had, and if every entry was a
    byte every entry still is. *)
Theorem scan_keeps_buffer_lengths_and_bytes W H g :
  match labelComponents W H g with
  | inr (g', _) | inl (TooMany g' _) =>
      length <$> g' = length <$> g
      ∧ (Forall (Forall isByte) g → Forall (Forall isByte) g')
  | inl FuelExhausted => False
  end.
Proof.
  pose proof (labelComponents_post W H g) as Hpost.
  pose proof (labelComponents_preserves (fun g' => length <$> g' = length <$> g) W H
                (fun g0 k v Hg0 => eq_trans (setCell_shape g0 k v) Hg0) g eq_refl) as Hshape.
  pose proof (labelComponents_preserves
                (fun g' => Forall (Forall isByte) g → Forall (Forall isByte) g') W H
                (fun g0 k v Hg0 Hb => setCell_bytes g0 k v (Hg0 Hb)) g (fun Hb => Hb))
    as Hbytes.
  destruct (labelComponents W H g) as [[g' c|]|[g' c]]; simpl in Hpost; done.
Qed.

(** ** Remapping, further *)

(** X6: the remap table is a cycle of length three on {0,1,2}: applying
    it three times gives back every value, so the raw code of an entry can
    be recovered from its remapped value. *)
Theorem remap_three_times_is_identity v : remap (remap (remap v)) = v.
Proof.
  destruct (decide (v = 0)) as [->|?]; [done|].
  destruct (decide (v = 1)) as [->|?]; [done|].
  destruct (decide (v = 2)) as [->|?]; [done|].
  assert (Hv : remap v = v).
  { unfold remap. repeat (case_match; [lia|]). done. }
  by rewrite !Hv.
Qed.

(** X7: the loop over j (lines 118-121) keeps the length of the buffer,
    replaces each of its first width*height entries by the remapped value
    (reduced to a byte), and leaves every entry from index width*height on
    as it was. *)
Theorem remapFrame_touches_first_wh_entries wh arr :
  length (remapFrame wh arr) = length arr
  ∧ (∀ i v, (i < Z.to_nat wh)%nat → arr !! i = Some v →
            remapFrame wh arr !! i = Some (toUint8 (remap v)))
  ∧ (∀ i, (Z.to_nat wh ≤ i)%nat → remapFrame wh arr !! i = arr !! i).
Proof.
  unfold remapFrame.
  assert (Hlook := remapLoop_lookup (Z.to_nat wh) 0%nat arr).
  change (Z.of_nat 0) with 0 in Hlook. split_and!.
  - destruct (decide (length (remapLoop (Z.to_nat wh) 0 arr) = length arr)) as [|Hne];
      [done|]. exfalso.
    destruct (Nat.lt_ge_cases (length (remapLoop (Z.to_nat wh) 0 arr)) (length arr))
      as [Hlt|Hge].
    + pose proof (Hlook (length (remapLoop (Z.to_nat wh) 0 arr))) as Hl.
      rewrite (proj2 (lookup_ge_None _ _)) in Hl by lia.
      apply lookup_lt_is_Some_2 in Hlt as [a Ha]. rewrite Ha in Hl.
      by case_bool_decide.
    + pose proof (Hlook (length arr)) as Hl.
      rewrite (lookup_ge_None_2 arr (length arr)) in Hl by lia.
      assert (is_Some (remapLoop (Z.to_nat wh) 0 arr !! length arr)) as [a Ha]
        by (apply lookup_lt_is_Some_2; lia).
      rewrite Ha in Hl. by case_bool_decide.
  - intros i v Hi Hv. rewrite Hlook, bool_decide_eq_true_2 by lia. by rewrite Hv.
  - intros i Hi. rewrite Hlook, bool_decide_eq_false_2 by lia. done.
Qed.

Lemma getVoxel_fmap W (f : Z → Z) (frames : Grid) p :
  getVoxel W (map (map f) frames) p = f <$> getVoxel W frames p.
Proof.
  destruct p as [[x y] z]. unfold getVoxel, plane, readPx.
  case_bool_decide; [|done].
  change (map (map f) frames) with (map f <$> frames). rewrite list_lookup_fmap.
  destruct (frames !! Z.to_nat z) as [buf|]; simpl; [|done].
  case_bool_decide; [|done].
  change (map f buf) with (f <$> buf). by rewrite list_lookup_fmap.
Qed.

(** X8: remapping and labeling together, voxel by voxel.  When the scan of
    the remapped frames runs to its end, a voxel whose raw code was 1 holds
    a component value from 3 up to the counter, and a voxel with any other
    raw code holds the remapped code: 1 for raw 0, 0 for raw 2, and the raw
    code itself otherwise, so that a raw code from 3 to 254 cannot be told
    from a component value. *)
Theorem remap_then_label_per_voxel W H frames g c p v :
  labelComponents W H (map (map remap) frames) = inr (g, c) →
  inBounds W H (numImgsOf frames) p →
  getVoxel W frames p = Some v →
  (v = 1 → ∃ k, 3 ≤ k < c ∧ getVoxel W g p = Some k)
  ∧ (v ≠ 1 → getVoxel W g p = Some (remap v)).
Proof.
  intros Hrun Hp Hv. set (G0 := map (map remap) frames) in *.
  assert (HD : numImgsOf G0 = numImgsOf frames).
  { unfold numImgsOf, G0. by rewrite length_map. }
  assert (HG0 : getVoxel W G0 p = Some (remap v)).
  { unfold G0. by rewrite getVoxel_fmap, Hv. }
  pose proof (labelComponents_post W H G0) as Hpost. rewrite Hrun in Hpost.
  destruct Hpost as [(_ & _ & HF & HV & _) [_ HScan]]. simpl in HScan.
  split.
  - intros ->. assert (Hfg : isFg W H G0 p) by (split; [by rewrite HD|done]).
    destruct (HV p Hfg) as [H2|Hk]; [|done]. exfalso.
    apply (HScan p Hfg); [|done]. destruct p as [[x y] z]. simpl in *. lia.
  - intros Hne. rewrite HF; [done|by rewrite HD|]. intros [_ Hfg].
    rewrite HG0 in Hfg. injection Hfg as Hfg. unfold remap in Hfg.
    repeat case_match; vals.
Qed.

Lemma remap_then_label_per_voxel_witness :
  (7 = 1 → ∃ k, 3 ≤ k < 4 ∧ getVoxel 3 [[1; 3; 7]] (2, 0, 0) = Some k)
  ∧ (7 ≠ 1 → getVoxel 3 [[1; 3; 7]] (2, 0, 0) = Some (remap 7)).
Proof.
  apply (remap_then_label_per_voxel 3 1 [[0; 1; 7]] [[1; 3; 7]] 4 (2, 0, 0) 7).
  - vm_compute. reflexivity.
  - unfold numImgsOf. simpl. lia.
  - reflexivity.
Defined.

(** * Further properties of the loader *)

(** ** Building blocks *)

Lemma remapEvents_silent ev :
  Forall remapEvent ev → completionCalls ev = [] ∧ readItems ev = [].
Proof.
  induction 1 as [|e ev He _ [IH1 IH2]]; [done|].
  destruct e; try done; simpl; by rewrite ?IH1, ?IH2.
Qed.

Lemma completeEvents_calls this :
  completionCalls (completeEvents this) = (if loadCompleteCb this is Some _ then [this] else [])
  ∧ readItems (completeEvents this) = []
  ∧ progressCalls (completeEvents this) = []
  ∧ pauses (completeEvents this) = [].
Proof. unfold completeEvents. by destruct (loadCompleteCb this). Qed.

Lemma SafeInvoke_complete_events this tr :
  SafeInvoke_complete this tr = Next tt this (tr ++ completeEvents this).
Proof.
  unfold SafeInvoke_complete, completeEvents.
  destruct (loadCompleteCb this); [done|by rewrite app_nil_r].
Qed.

Lemma onImageLoadingError_eq arg this tr :
  _onImageLoadingError arg this tr
  = if cancelled this || done this then (this, tr)
    else
      let this' := setErrors (Some (errorText arg)) (setDone true this) in
      (this', tr ++ completeEvents this').
Proof.
  unfold _onImageLoadingError. destruct (cancelled this || done this); [done|].
  destruct arg as [message|fileName]; simpl; [case_bool_decide|];
    by rewrite SafeInvoke_complete_events.
Qed.

Lemma uploadPhase_eq ext W H n bpp g this tr :
  let dims := [W; H; n] in
  let this1 := setErrors (vol_loadBegin ext dims bpp) this in
  let this2 := copyImagesToTexture ext g this1 in
  uploadPhase ext W H n bpp g this tr
  = if truthy (vol_loadBegin ext dims bpp)
    then Return (setDone true this1)
           (tr ++ [VolLoadBegin dims bpp] ++ completeEvents (setDone true this1))
    else if done this2
         then Next tt this2 (tr ++ [VolLoadBegin dims bpp; CopyImagesToTexture 0 n g])
         else Return (setDone true this2)
                (tr ++ [VolLoadBegin dims bpp; CopyImagesToTexture 0 n g; VolLoadEnd]
                    ++ completeEvents (setDone true this2)).
Proof.
  intros dims this1 this2.
  unfold uploadPhase, bind, emit, modify, get, return_, ret. fold dims. fold this1.
  replace (errors this1) with (vol_loadBegin ext dims bpp) by done.
  destruct (truthy _).
  - rewrite SafeInvoke_complete_events. by rewrite <- !app_assoc.
  - fold this2. destruct (done this2); simpl.
    + by rewrite <- !app_assoc.
    + rewrite SafeInvoke_complete_events. by rewrite <- !app_assoc.
Qed.

Lemma decodeImage_cases ifds z this tr :
  (∃ d, decodeImage ifds z this tr = Next d this tr
        ∧ ∃ i : nat, z = Z.of_nat i ∧ ifds !! i = Some d.1 ∧ data d.1 = inr d.2)
  ∨ (∃ ex, decodeImage ifds z this tr = Throw ex this tr).
Proof.
  unfold decodeImage. case_bool_decide as Hz.
  - destruct (ifds !! Z.to_nat z) as [ifd|] eqn:Hi; [|right; by eexists].
    destruct (data ifd) as [ex|bytes] eqn:Hd; [right; by eexists|].
    left. exists (ifd, bytes). split; [done|]. exists (Z.to_nat z).
    split; [lia|done].
  - right. by eexists.
Qed.

(* The loop over the images adds progress reports and pauses only, and
   changes the loader at most by the cancellation flag. *)
Lemma remapImages_events ifds numImgs wh cancelAt n :
  ∀ z acc this tr,
    match remapImages n z ifds numImgs wh cancelAt acc this tr with
    | Next _ t' tr' => t' = this ∧ ∃ ev, tr' = tr ++ ev ∧ Forall remapEvent ev
    | Return t' tr' =>
        cancelled t' = true ∧ (t' = this ∨ t' = setCancelled true this)
        ∧ ∃ ev, tr' = tr ++ ev ∧ Forall remapEvent ev
    | Throw _ t' tr' => t' = this ∧ ∃ ev, tr' = tr ++ ev ∧ Forall remapEvent ev
    | OutOfFuel => False
    end.
Proof.
  induction n as [|n IH]; intros z acc this tr.
  { simpl. split; [done|]. exists []. by rewrite app_nil_r. }
  cbn [remapImages]. unfold bind at 1.
  destruct (decodeImage_cases ifds z this tr) as [(d & -> & _)|(ex & ->)].
  2:{ split; [done|]. exists []. by rewrite app_nil_r. }
  unfold bind at 1. rewrite maybeReportProgress_eq.
  destruct (loadProgressCb this) as [cb|] eqn:Hcb.
  - cbv zeta.
    assert (Hev : Forall remapEvent [ProgressCb cb z numImgs; Pause z]).
    { by repeat constructor. }
    destruct (cancelAt z).
    { split_and!; [done|by right|]. by eexists. }
    destruct (cancelled this) eqn:Hc.
    { split_and!; [done|by left|]. by eexists. }
    specialize (IH (z + 1) (acc ++ [remapFrame wh d.2]) this
                  (tr ++ [ProgressCb cb z numImgs; Pause z])).
    destruct (remapImages n _ ifds numImgs wh cancelAt _ this _)
      as [bufs t' tr'|t' tr'|ex t' tr'|]; [| | |done].
    + destruct IH as (-> & ev & -> & Hf). split; [done|].
      eexists. split; [by rewrite <- app_assoc|]. by apply Forall_app.
    + destruct IH as (Hc' & Ht & ev & -> & Hf). split_and!; [done|done|].
      eexists. split; [by rewrite <- app_assoc|]. by apply Forall_app.
    + destruct IH as (-> & ev & -> & Hf). split; [done|].
      eexists. split; [by rewrite <- app_assoc|]. by apply Forall_app.
  - apply IH.
Qed.

(* Without a progress callback the loop over the images never consults the
   cancellation requests. *)
Lemma remapImages_no_progress ifds numImgs wh cancelAt cancelAt' n :
  ∀ z acc this tr,
    loadProgressCb this = None →
    remapImages n z ifds numImgs wh cancelAt acc this tr
    = remapImages n z ifds numImgs wh cancelAt' acc this tr.
Proof.
  induction n as [|n IH]; intros z acc this tr Hcb; [done|].
  cbn [remapImages]. unfold bind at 1 3.
  destruct (decodeImage_cases ifds z this tr) as [(d & -> & _)|(ex & ->)]; [|done].
  unfold bind at 1 2. rewrite !maybeReportProgress_eq, Hcb. by apply IH.
Qed.

Lemma all_decoded_frame (ifds : list Ifd) (frames : list (list Z)) i ifd :
  data <$> ifds = inr <$> frames → ifds !! i = Some ifd →
  ∃ bytes, frames !! i = Some bytes ∧ data ifd = inr bytes.
Proof.
  intros Hdata Hi.
  assert (Hl : (data <$> ifds) !! i = Some (data ifd)) by (by rewrite list_lookup_fmap, Hi).
  rewrite Hdata, list_lookup_fmap in Hl.
  destruct (frames !! i) as [bytes|]; simplify_eq/=. by exists bytes.
Qed.

(* The loop over the images when every frame decodes and no cancellation
   is requested. *)
Lemma remapImages_quiet ifds frames numImgs wh cancelAt n :
  (∀ z, cancelAt z = false) →
  data <$> ifds = inr <$> frames →
  ∀ (k : nat) acc this tr,
    cancelled this = false →
    (k + n ≤ length ifds)%nat →
    remapImages n (Z.of_nat k) ifds numImgs wh cancelAt acc this tr
    = Next (acc ++ (remapFrame wh <$> take n (drop k frames))) this
        (tr ++ reportEvents (loadProgressCb this) numImgs (Z.of_nat k) n).
Proof.
  intros Hquiet Hdata. induction n as [|n IH]; intros k acc this tr Hc Hk.
  { simpl. unfold ret, reportEvents. rewrite !app_nil_r.
    destruct (loadProgressCb this); simpl; by rewrite app_nil_r. }
  cbn [remapImages]. unfold bind at 1. rewrite decodeImage_eq.
  destruct (lookup_lt_is_Some_2 ifds k ltac:(lia)) as [ifd Hifd]. rewrite Hifd.
  destruct (all_decoded_frame ifds frames k ifd Hdata Hifd) as (bytes & Hfr & ->).
  cbn [snd]. unfold bind at 1. rewrite maybeReportProgress_eq.
  replace (Z.of_nat k + 1) with (Z.of_nat (S k)) by lia.
  rewrite (drop_S _ _ _ Hfr). cbn [take]. rewrite fmap_cons.
  assert (Hev : ∀ cb, reportEvents (Some cb) numImgs (Z.of_nat k) (S n)
                      = [ProgressCb cb (Z.of_nat k) numImgs; Pause (Z.of_nat k)]
                        ++ reportEvents (Some cb) numImgs (Z.of_nat (S k)) n).
  { intros cb. unfold reportEvents. rewrite seqZ_cons by lia. rewrite bind_cons.
    do 3 f_equal; lia. }
  destruct (loadProgressCb this) as [cb|] eqn:Hcb.
  - cbv zeta. rewrite Hquiet, Hc. rewrite IH by (done || lia).
    rewrite Hcb, Hev. by rewrite <- !app_assoc.
  - rewrite IH by (done || lia). rewrite Hcb. by rewrite <- !app_assoc.
Qed.

(* The try block, up to the loop over the images. *)
Lemma tryBlock_cases js ext cancelAt ifds this tr :
  (∃ ex, tryBlock js ext cancelAt ifds this tr = Throw ex this tr
         ∧ ∀ ifd0 bytes, ifds !! 0%nat = Some ifd0 → data ifd0 ≠ inr bytes)
  ∨ (∃ ifd0 bytes,
       ifds !! 0%nat = Some ifd0 ∧ data ifd0 = inr bytes ∧ t258 ifd0 ≠ 8
       ∧ let this' := setDone true
                        (setErrors (Some "LabelLoader: Only 8-bit images are supported.") this) in
         tryBlock js ext cancelAt ifds this tr = Return this' (tr ++ completeEvents this'))
  ∨ (∃ ifd0 bytes,
       ifds !! 0%nat = Some ifd0 ∧ data ifd0 = inr bytes ∧ t258 ifd0 = 8
       ∧ tryBlock js ext cancelAt ifds this tr
         = (imgBufferArray <- remapImages (length ifds) 0 ifds (Z.of_nat (length ifds))
                                (width ifd0 * height ifd0) cancelAt [] ;;
            imgBufferArray <- labelPhase js (width ifd0) (height ifd0) imgBufferArray ;;
            uploadPhase ext (width ifd0) (height ifd0) (Z.of_nat (length ifds)) 8
              imgBufferArray) this tr).
Proof.
  assert (Hstart : ∀ this tr,
            decodeImage ifds 0 this tr
            = match ifds !! 0%nat with
              | None => Throw (Exception "Cannot read properties of undefined") this tr
              | Some ifd =>
                  match data ifd with
                  | inl ex => Throw ex this tr
                  | inr bytes => Next (ifd, bytes) this tr
                  end
              end).
  { intros t l. apply (decodeImage_eq ifds 0). }
  destruct (ifds !! 0%nat) as [ifd0|] eqn:H0.
  2:{ left. eexists. split; [|done].
      unfold tryBlock. unfold bind at 1. by rewrite Hstart. }
  destruct (data ifd0) as [ex|bytes] eqn:Hd0.
  { left. exists ex. split; [|intros ifd bytes ?; congruence].
    unfold tryBlock. unfold bind at 1. by rewrite Hstart. }
  right. destruct (decide (t258 ifd0 = 8)) as [Hbpp|Hbpp].
  - right. exists ifd0, bytes. split_and!; [done|done|done|].
    unfold tryBlock. unfold bind at 1. rewrite Hstart. cbn [fst].
    rewrite bool_decide_eq_false_2 by (intros ?; done). by rewrite Hbpp.
  - left. exists ifd0, bytes. split_and!; [done|done|done|].
    cbv zeta. unfold tryBlock. unfold bind at 1. rewrite Hstart. cbn [fst].
    rewrite bool_decide_eq_true_2 by done.
    unfold bind, modify, return_. by rewrite SafeInvoke_complete_events.
Qed.

Lemma loadImagesIntoVolume_valid f rest ccb pcb this :
  (∀ g, g ∈ f :: rest → isFileLike g = true) →
  loadImagesIntoVolume (f :: rest) ccb pcb this
  = (mkLoader (f :: rest) None None false (cancelled this) 0 ccb pcb,
     match pcb with
     | Some cb => [ProgressCb cb 0 (Z.of_nat (length (f :: rest)))]
     | None => []
     end
     ++ [match f with
         | FileSystemFileHandle _ => GetFile f
         | _ => ReadAsArrayBuffer f
         end]).
Proof.
  intros Hvalid.
  destruct (loadImagesIntoVolume_cases (f :: rest) ccb pcb this)
    as [(? & _)|[(Hex & _)|(_ & f' & rest' & Heq & ->)]].
  - done.
  - apply existsb_exists in Hex as (g & Hg & Hbad).
    apply list_elem_of_In in Hg. by rewrite (Hvalid g Hg) in Hbad.
  - by simplify_eq.
Qed.

Lemma remapImages_no_callback ifds numImgs wh cancelAt n :
  ∀ z acc this tr,
    loadProgressCb this = None →
    match remapImages n z ifds numImgs wh cancelAt acc this tr with
    | Next _ _ tr' | Throw _ _ tr' => tr' = tr
    | Return _ _ | OutOfFuel => False
    end.
Proof.
  induction n as [|n IH]; intros z acc this tr Hcb; [done|].
  cbn [remapImages]. unfold bind at 1.
  destruct (decodeImage_cases ifds z this tr) as [(d & -> & _)|(ex & ->)]; [|done].
  unfold bind at 1. rewrite maybeReportProgress_eq, Hcb. by apply IH.
Qed.

(* The shape of every run of the handler: what it adds to the trace and
   how it leaves the loader. *)
Lemma handler_shape js ext cancelAt decoded this tr :
  ∃ this' ev,
    _handleMultiImageTiff js ext cancelAt decoded this tr = Some (this', tr ++ ev)
    ∧ readItems ev = []
    ∧ completesAtMostOnce this' ev
    ∧ (loadProgressCb this = None → pauses ev = [] ∧ progressCalls ev = [])
    ∧ (done this' = true ∨ cancelled this' = true ∨ (this' = this ∧ ev = [])).
Proof.
  set (quiet := fun ev : list Event =>
         completionCalls ev = [] ∧ readItems ev = []
         ∧ (loadProgressCb this = None → pauses ev = [] ∧ progressCalls ev = [])).
  assert (Hnil : quiet []) by done.
  assert (Hsil : ∀ ev0 t,
            quiet ev0 →
            done t = true ∨ cancelled t = true ∨ (t = this ∧ ev0 = []) →
            readItems ev0 = [] ∧ completesAtMostOnce t ev0
            ∧ (loadProgressCb this = None → pauses ev0 = [] ∧ progressCalls ev0 = [])
            ∧ (done t = true ∨ cancelled t = true ∨ (t = this ∧ ev0 = []))).
  { intros ev0 t (Hc0 & Hr0 & Hp0) Hend. split_and!; try done. by left. }
  assert (Hfin : ∀ ev0 t,
            quiet ev0 → done t = true →
            readItems (ev0 ++ completeEvents t) = []
            ∧ completesAtMostOnce t (ev0 ++ completeEvents t)
            ∧ (loadProgressCb this = None →
               pauses (ev0 ++ completeEvents t) = []
               ∧ progressCalls (ev0 ++ completeEvents t) = [])
            ∧ (done t = true ∨ cancelled t = true
               ∨ (t = this ∧ ev0 ++ completeEvents t = []))).
  { intros ev0 t (Hc0 & Hr0 & Hp0) Hd.
    destruct (completeEvents_calls t) as (Hcc & Hcr & Hcp & Hcz).
    split_and!.
    - unfold readItems in *. by rewrite omap_app, Hr0, Hcr.
    - unfold completeEvents in *. destruct (loadCompleteCb t) as [cb|].
      + right. by exists ev0, cb.
      + left. by rewrite app_nil_r.
    - intros Hcb. destruct (Hp0 Hcb) as [Hz Hp]. unfold pauses, progressCalls in *.
      by rewrite !omap_app, Hz, Hp, Hcz, Hcp.
    - by left. }
  assert (Herr : ∀ ex ev0,
            cancelled this = false → quiet ev0 →
            ∃ this' ev,
              Some (_onImageLoadingError ex this (tr ++ ev0)) = Some (this', tr ++ ev)
              ∧ readItems ev = []
              ∧ completesAtMostOnce this' ev
              ∧ (loadProgressCb this = None → pauses ev = [] ∧ progressCalls ev = [])
              ∧ (done this' = true ∨ cancelled this' = true ∨ (this' = this ∧ ev = []))).
  { intros ex ev0 Hc Hq. rewrite onImageLoadingError_eq, Hc. simpl.
    destruct (done this) eqn:Hd.
    - exists this, ev0. split; [done|]. apply Hsil; [done|by left].
    - eexists _, (ev0 ++ completeEvents _). split; [by rewrite app_assoc|].
      by apply Hfin. }
  unfold _handleMultiImageTiff. destruct (cancelled this) eqn:Hc.
  { exists this, []. rewrite app_nil_r. split; [done|]. apply Hsil; auto. }
  destruct decoded as [ex|ifds].
  { exists this, []. rewrite app_nil_r. split; [done|]. apply Hsil; auto. }
  destruct (tryBlock_cases js ext cancelAt ifds this tr)
    as [(ex & -> & _)|[(i0 & b0 & _ & _ & _ & ->)|(i0 & b0 & _ & _ & _ & ->)]].
  - destruct (Herr ex [] eq_refl Hnil) as (t & ev & Hrun & Hev).
    rewrite app_nil_r in Hrun. by exists t, ev.
  - cbv zeta. eexists _, ([] ++ completeEvents _). split; [done|]. by apply Hfin.
  - unfold bind at 1.
    pose proof (remapImages_events ifds (Z.of_nat (length ifds)) (width i0 * height i0)
                  cancelAt (length ifds) 0 [] this tr) as Hev.
    pose proof (remapImages_no_callback ifds (Z.of_nat (length ifds)) (width i0 * height i0)
                  cancelAt (length ifds) 0 [] this tr) as Hno.
    destruct (remapImages _ _ ifds _ _ cancelAt [] this tr)
      as [bufs t1 tr1|t1 tr1|ex t1 tr1|]; [| | |done].
    + destruct Hev as (-> & ev1 & -> & Hev1).
      assert (Hq1 : quiet ev1).
      { destruct (remapEvents_silent ev1 Hev1) as [Hc1 Hr1]. split_and!; try done.
        intros Hcb. specialize (Hno Hcb). simpl in Hno.
        assert (ev1 = []) as -> by (apply (app_inv_head tr); by rewrite app_nil_r).
        done. }
      unfold bind at 1.
      destruct (labelPhase_cases js (width i0) (height i0) bufs this (tr ++ ev1))
        as [(g & c & _ & ->)|(g & c & _ & ->)]; [|by apply Herr].
      rewrite uploadPhase_eq.
      set (dims := [width i0; height i0; Z.of_nat (length ifds)]).
      set (t1 := setErrors (vol_loadBegin ext dims 8) (setNumLabelsFound (c - 3) this)).
      set (t2 := copyImagesToTexture ext g t1).
      assert (Hqb : quiet (ev1 ++ [VolLoadBegin dims 8])).
      { destruct Hq1 as (Hc1 & Hr1 & Hp1). split_and!.
        - unfold completionCalls in *. by rewrite omap_app, Hc1.
        - unfold readItems in *. by rewrite omap_app, Hr1.
        - intros Hcb. destruct (Hp1 Hcb) as [Hz Hp]. unfold pauses, progressCalls in *.
          by rewrite !omap_app, Hz, Hp. }
      assert (Hqc : quiet (ev1 ++ [VolLoadBegin dims 8;
                                   CopyImagesToTexture 0 (Z.of_nat (length ifds)) g])).
      { destruct Hq1 as (Hc1 & Hr1 & Hp1). split_and!.
        - unfold completionCalls in *. by rewrite omap_app, Hc1.
        - unfold readItems in *. by rewrite omap_app, Hr1.
        - intros Hcb. destruct (Hp1 Hcb) as [Hz Hp]. unfold pauses, progressCalls in *.
          by rewrite !omap_app, Hz, Hp. }
      assert (Hqe : quiet (ev1 ++ [VolLoadBegin dims 8;
                                   CopyImagesToTexture 0 (Z.of_nat (length ifds)) g;
                                   VolLoadEnd])).
      { destruct Hq1 as (Hc1 & Hr1 & Hp1). split_and!.
        - unfold completionCalls in *. by rewrite omap_app, Hc1.
        - unfold readItems in *. by rewrite omap_app, Hr1.
        - intros Hcb. destruct (Hp1 Hcb) as [Hz Hp]. unfold pauses, progressCalls in *.
          by rewrite !omap_app, Hz, Hp. }
      destruct (truthy (vol_loadBegin ext dims 8)); [|destruct (done t2) eqn:Hd2].
      * eexists _, ((ev1 ++ [VolLoadBegin dims 8]) ++ completeEvents _).
        split; [by rewrite <- !app_assoc|]. by apply Hfin.
      * eexists _, (ev1 ++ _). split; [by rewrite <- !app_assoc|]. apply Hsil; [done|by left].
      * eexists _, ((ev1 ++ [VolLoadBegin dims 8;
                             CopyImagesToTexture 0 (Z.of_nat (length ifds)) g;
                             VolLoadEnd]) ++ completeEvents _).
        split; [by rewrite <- !app_assoc|]. by apply Hfin.
    + destruct Hev as (Hc1 & _ & ev1 & -> & Hev1).
      exists t1, ev1. split; [done|]. apply Hsil; [|by right; left].
      destruct (remapEvents_silent ev1 Hev1) as [Hcc Hr1]. split_and!; try done.
    + destruct Hev as (-> & ev1 & -> & Hev1). apply Herr; [done|].
      destruct (remapEvents_silent ev1 Hev1) as [Hc1 Hr1]. split_and!; try done.
      intros Hcb. specialize (Hno Hcb). simpl in Hno.
      assert (ev1 = []) as -> by (apply (app_inv_head tr); by rewrite app_nil_r).
      done.
Qed.

(** ** The load request, further *)

(** X9: an empty list ends the session inside the load request: the
    loader is marked done with a warning and no error, the count is 0, the
    completion callback (when one was given) is called once, with the
    loader, the progress callback is not called and no read is started,
    whatever state the loader was in. *)
Theorem empty_list_completes_with_warning ccb pcb this :
  ∃ this' tr,
    loadImagesIntoVolume [] ccb pcb this = (this', tr)
    ∧ done this' = true
    ∧ errors this' = None
    ∧ warnings this'
      = Some "LabelLoader: No files were loaded, because the supplied file list was empty."
    ∧ numLabelsFound this' = 0
    ∧ completionCalls tr = (if ccb is Some _ then [this'] else [])
    ∧ progressCalls tr = []
    ∧ readStarted tr = false
    ∧ ∀ js ext cancelEarly cancelAt rr,
        session js ext [] ccb pcb cancelEarly cancelAt rr this = Some (this', tr).
Proof.
  destruct (loadImagesIntoVolume_cases [] ccb pcb this)
    as [(_ & t & Ht & Hload)|[(Hex & _)|(_ & f & rest & Heq & _)]]; [|done|done].
  exists t, (match ccb with Some cb => [CompleteCb cb t] | None => [] end).
  assert (Hrs : readStarted (match ccb with Some cb => [CompleteCb cb t] | None => [] end)
                = false) by (by destruct ccb).
  split_and!; try (by subst t); try (by destruct ccb).
  intros js ext cancelEarly cancelAt rr. unfold session. by rewrite Hload, Hrs.
Qed.

(** ** _onImageLoadingError, further *)

(** X10: the error handler is guarded and reports once.  On a loader that
    is cancelled or already done it does nothing; otherwise it marks the
    loader done, sets an error text that is never empty, leaves the count
    and the cancellation flag alone and calls the completion callback (when
    one was given) once, with the loader; and a second error after a first
    is never reported. *)
Theorem error_report_is_guarded_and_happens_once arg arg' this tr :
  (cancelled this = true ∨ done this = true →
   _onImageLoadingError arg this tr = (this, tr))
  ∧ (cancelled this = false → done this = false →
     ∃ this', _onImageLoadingError arg this tr = (this', tr ++ completeEvents this')
              ∧ done this' = true
              ∧ errors this' = Some (errorText arg)
              ∧ truthy (errors this') = true
              ∧ cancelled this' = false
              ∧ numLabelsFound this' = numLabelsFound this)
  ∧ (let r := _onImageLoadingError arg this tr in
     _onImageLoadingError arg' r.1 r.2 = r).
Proof.
  assert (Htext : truthy (Some (errorText arg)) = true).
  { destruct arg as [message|fileName]; unfold truthy, errorText.
    - destruct (decide (message = "")) as [Hm|Hm].
      + by rewrite (bool_decide_eq_true_2 _ Hm).
      + by rewrite !(bool_decide_eq_false_2 _ Hm).
    - done. }
  split_and!.
  - intros Hguard. rewrite onImageLoadingError_eq.
    destruct Hguard as [-> | ->]; [done|]. by rewrite orb_true_r.
  - intros Hc Hd. rewrite onImageLoadingError_eq, Hc, Hd. simpl.
    eexists. split; [done|]. split_and!; try done.
  - cbv zeta. rewrite !(onImageLoadingError_eq arg).
    destruct (cancelled this || done this) eqn:Hg.
    + simpl. by rewrite onImageLoadingError_eq, Hg.
    + simpl. rewrite onImageLoadingError_eq. simpl. by rewrite orb_true_r.
Qed.

(** ** The handler, further *)

(** X11: a first frame whose bit depth is not 8 ends the load before any
    frame is remapped: the loader is marked done with the error text of
    line 106, the completion callback (when one was given) is called once,
    and nothing else happens: no progress report, no pause, no call of the
    volume, and the count stays as it was. *)
Theorem unsupported_bit_depth_fails_before_remap js ext cancelAt ifds ifd0 bytes this tr :
  cancelled this = false →
  ifds !! 0%nat = Some ifd0 → data ifd0 = inr bytes → t258 ifd0 ≠ 8 →
  let this' := setDone true
                 (setErrors (Some "LabelLoader: Only 8-bit images are supported.") this) in
  _handleMultiImageTiff js ext cancelAt (inr ifds) this tr
  = Some (this', tr ++ completeEvents this').
Proof.
  intros Hc H0 Hd Hbpp this'. unfold _handleMultiImageTiff. rewrite Hc.
  destruct (tryBlock_cases js ext cancelAt ifds this tr)
    as [(ex & _ & Hbad)|[(i0 & b0 & Hi & _ & _ & ->)|(i0 & b0 & Hi & _ & H8 & _)]].
  - by destruct (Hbad ifd0 bytes H0).
  - done.
  - rewrite H0 in Hi. by simplify_eq.
Qed.

Lemma unsupported_bit_depth_fails_before_remap_witness :
  _handleMultiImageTiff v8 acceptingExtern (fun _ => false)
    (inr [mkIfd 2 1 16 (inr [1; 0; 0; 0]); mkIfd 2 1 8 (inr [1; 0])])
    (mkLoader [File "a.tif"] None None false false 0 (Some (Fn 1)) (Some (Fn 2))) []
  = Some (mkLoader [File "a.tif"] (Some "LabelLoader: Only 8-bit images are supported.")
            None true false 0 (Some (Fn 1)) (Some (Fn 2)),
          [CompleteCb (Fn 1)
             (mkLoader [File "a.tif"] (Some "LabelLoader: Only 8-bit images are supported.")
                None true false 0 (Some (Fn 1)) (Some (Fn 2)))]).
Proof.
  apply (unsupported_bit_depth_fails_before_remap v8 acceptingExtern (fun _ => false)
           [mkIfd 2 1 16 (inr [1; 0; 0; 0]); mkIfd 2 1 8 (inr [1; 0])]
           (mkIfd 2 1 16 (inr [1; 0; 0; 0])) [1; 0; 0; 0]
           (mkLoader [File "a.tif"] None None false false 0 (Some (Fn 1)) (Some (Fn 2))) []);
    [reflexivity|reflexivity|reflexivity|discriminate].
Defined.

(** X12: cancellation is polled only when a progress callback was given.
    On a loader without one the handler never pauses and reports no
    progress, and requests to cancel that arrive once the handler runs
    change nothing: the handler does the same whatever they are. *)
Theorem without_progress_callback_cancellation_is_not_polled
  js ext cancelAt cancelAt' decoded this tr :
  loadProgressCb this = None →
  _handleMultiImageTiff js ext cancelAt decoded this tr
  = _handleMultiImageTiff js ext cancelAt' decoded this tr
  ∧ ∃ this' ev, _handleMultiImageTiff js ext cancelAt decoded this tr = Some (this', tr ++ ev)
                ∧ pauses ev = [] ∧ progressCalls ev = [].
Proof.
  intros Hcb.
  assert (Heq : ∀ ifds, tryBlock js ext cancelAt ifds this tr
                        = tryBlock js ext cancelAt' ifds this tr).
  { intros ifds. unfold tryBlock, bind.
    destruct (decodeImage_cases ifds 0 this tr) as [(d & -> & _)|(ex & ->)]; [|done].
    case_bool_decide; [done|].
    by rewrite (remapImages_no_progress _ _ _ cancelAt cancelAt'). }
  split.
  { unfold _handleMultiImageTiff. destruct (cancelled this); [done|].
    destruct decoded as [ex|ifds]; [done|]. by rewrite Heq. }
  destruct (handler_shape js ext cancelAt decoded this tr)
    as (this' & ev & Hrun & _ & _ & Hquiet & _).
  exists this', ev. split; [done|]. by apply Hquiet.
Qed.

Lemma without_progress_callback_cancellation_is_not_polled_witness :
  _handleMultiImageTiff v8 acceptingExtern (fun _ => true)
    (inr [mkIfd 2 1 8 (inr [1; 0])]) freshLoader []
  = _handleMultiImageTiff v8 acceptingExtern (fun _ => false)
      (inr [mkIfd 2 1 8 (inr [1; 0])]) freshLoader []
  ∧ ∃ this' ev, _handleMultiImageTiff v8 acceptingExtern (fun _ => true)
                  (inr [mkIfd 2 1 8 (inr [1; 0])]) freshLoader [] = Some (this', [] ++ ev)
                ∧ pauses ev = [] ∧ progressCalls ev = [].
Proof.
  apply (without_progress_callback_cancellation_is_not_polled v8 acceptingExtern
           (fun _ => true) (fun _ => false) (inr [mkIfd 2 1 8 (inr [1; 0])]) freshLoader []).
  reflexivity.
Defined.

(** ** Whole sessions *)

Lemma valid_existsb (l : list Item) :
  (∀ g, g ∈ l → isFileLike g = true) ↔ existsb (fun f => negb (isFileLike f)) l = false.
Proof.
  split.
  - intros Hvalid. apply not_true_is_false. intros Hex.
    apply existsb_exists in Hex as (g & Hg & Hbad).
    apply list_elem_of_In in Hg. by rewrite (Hvalid g Hg) in Hbad.
  - intros Hex g Hg. destruct (isFileLike g) eqn:Hv; [done|].
    assert (existsb (fun f => negb (isFileLike f)) l = true); [|congruence].
    apply existsb_exists. exists g. split; [by apply list_elem_of_In|by rewrite Hv].
Qed.

Lemma session_valid js ext f rest ccb pcb (cancelEarly : bool) cancelAt rr this :
  (∀ g, g ∈ f :: rest → isFileLike g = true) →
  let this0 := mkLoader (f :: rest) None None false (cancelled this) 0 ccb pcb in
  let this1 := if cancelEarly then setCancelled true this0 else this0 in
  let tr0 := requestEvents pcb f (length (f :: rest)) in
  session js ext (f :: rest) ccb pcb cancelEarly cancelAt rr this
  = match rr with
    | Loaded decoded =>
        _handleMultiImageTiff js ext cancelAt decoded this1 (tr0 ++ loadedEvents f)
    | ReadFailed =>
        Some (_onImageLoadingError (ReaderArg "") this1 (tr0 ++ loadedEvents f))
    | GetFileRejected =>
        match f with
        | FileSystemFileHandle _ => Some (_onImageLoadingError (ReaderArg "") this1 tr0)
        | _ => Some (this1, tr0)
        end
    end.
Proof.
  intros Hvalid this0 this1 tr0. unfold session.
  rewrite (loadImagesIntoVolume_valid f rest ccb pcb this Hvalid).
  fold this0. fold (requestEvents pcb f (length (f :: rest))). fold tr0.
  assert (Hrs : readStarted tr0 = true).
  { unfold tr0, requestEvents, readStarted. rewrite existsb_app.
    destruct f; simpl; by rewrite orb_true_r. }
  rewrite Hrs. cbn [negb]. fold this1.
  assert (Hfl : fileList this1 = f :: rest) by (unfold this1; by destruct cancelEarly).
  rewrite Hfl. destruct rr as [decoded| |]; [| |done];
    destruct f; simpl; by rewrite ?app_nil_r.
Qed.

Lemma requestEvents_calls pcb f n :
  readItems (requestEvents pcb f n) = [f]
  ∧ completionCalls (requestEvents pcb f n) = []
  ∧ pauses (requestEvents pcb f n) = [].
Proof. unfold requestEvents. by destruct pcb, f. Qed.

Lemma loadedEvents_calls f :
  (readItems (loadedEvents f) = [] ∨ readItems (loadedEvents f) = [f])
  ∧ completionCalls (loadedEvents f) = []
  ∧ pauses (loadedEvents f) = [].
Proof. destruct f; simpl; auto. Qed.

Lemma completesAtMostOnce_app this' pre ev :
  completionCalls pre = [] →
  completesAtMostOnce this' ev → completesAtMostOnce this' (pre ++ ev).
Proof.
  intros Hpre [Hev|(tr0 & cb & -> & Hev & Hd)].
  - left. unfold completionCalls in *. by rewrite omap_app, Hpre, Hev.
  - right. exists (pre ++ tr0), cb. split_and!; [by rewrite app_assoc| |done].
    unfold completionCalls in *. by rewrite omap_app, Hpre, Hev.
Qed.

Lemma completesAtMostOnce_length this' tr :
  completesAtMostOnce this' tr → (length (completionCalls tr) ≤ 1)%nat.
Proof.
  intros [Htr|(tr0 & cb & -> & Htr & _)].
  - rewrite Htr. simpl. lia.
  - unfold completionCalls in *. rewrite omap_app, Htr. simpl. lia.
Qed.

(* How every session ends, and what its trace holds. *)
Lemma session_shape js ext imgFiles ccb pcb cancelEarly cancelAt rr this :
  ∃ this' tr,
    session js ext imgFiles ccb pcb cancelEarly cancelAt rr this = Some (this', tr)
    ∧ completesAtMostOnce this' tr
    ∧ match imgFiles with
      | f :: _ => ∀ i, i ∈ readItems tr → i = f
      | [] => readItems tr = []
      end
    ∧ ((∀ g, g ∈ imgFiles → isFileLike g = true) →
       match imgFiles with
       | f :: _ => f ∈ readItems tr
       | [] => True
       end).
Proof.
  destruct (loadImagesIntoVolume_cases imgFiles ccb pcb this)
    as [(Hnil & t & Ht & Hload)|[(Hex & t & Ht & Hload)|(Hex & f & rest & -> & _)]].
  - exists t, (match ccb with Some cb => [CompleteCb cb t] | None => [] end).
    assert (Hrs : readStarted (match ccb with Some cb => [CompleteCb cb t] | None => [] end)
                  = false) by (by destruct ccb).
    split; [unfold session; by rewrite Hload, Hrs|]. subst imgFiles. split_and!.
    + destruct ccb as [cb|]; [|by left]. right. exists [], cb. by subst t.
    + by destruct ccb.
    + done.
  - exists t, (match ccb with Some cb => [CompleteCb cb t] | None => [] end).
    assert (Hrs : readStarted (match ccb with Some cb => [CompleteCb cb t] | None => [] end)
                  = false) by (by destruct ccb).
    split; [unfold session; by rewrite Hload, Hrs|]. split_and!.
    + destruct ccb as [cb|]; [|by left]. right. exists [], cb. by subst t.
    + destruct imgFiles as [|f rest]; [by destruct ccb|].
      intros i Hi. destruct ccb; simpl in Hi; by apply elem_of_nil in Hi.
    + intros Hvalid. apply valid_existsb in Hvalid. congruence.
  - pose proof (proj2 (valid_existsb (f :: rest)) Hex) as Hvalid.
    rewrite (session_valid _ _ _ _ _ _ _ _ _ _ Hvalid).
    set (this0 := mkLoader (f :: rest) None None false (cancelled this) 0 ccb pcb).
    set (this1 := if cancelEarly then setCancelled true this0 else this0).
    set (tr0 := requestEvents pcb f (length (f :: rest))).
    destruct (requestEvents_calls pcb f (length (f :: rest))) as (Hr0 & Hc0 & _).
    destruct (loadedEvents_calls f) as (Hr1 & Hc1 & _).
    fold tr0 in Hr0, Hc0.
    assert (Hpre : ∀ pre, pre = tr0 ∨ pre = tr0 ++ loadedEvents f →
              completionCalls pre = []
              ∧ (∀ i, i ∈ readItems pre → i = f) ∧ f ∈ readItems pre).
    { intros pre [-> | ->].
      - rewrite Hr0. split_and!; [done| |by apply list_elem_of_singleton].
        by intros i ->%list_elem_of_singleton.
      - unfold completionCalls, readItems in *. rewrite !omap_app, Hc0, Hc1, Hr0.
        split_and!; [done| |].
        + intros i Hi. apply elem_of_app in Hi as [Hi|Hi].
          * by apply list_elem_of_singleton in Hi.
          * destruct Hr1 as [Hr1|Hr1]; rewrite Hr1 in Hi;
              [by apply elem_of_nil in Hi|by apply list_elem_of_singleton in Hi].
        + apply elem_of_app. left. by apply list_elem_of_singleton. }
    assert (Hend : ∀ pre t ev,
              (pre = tr0 ∨ pre = tr0 ++ loadedEvents f) →
              readItems ev = [] → completesAtMostOnce t ev →
              ∃ this' tr,
                Some (t, pre ++ ev) = Some (this', tr)
                ∧ completesAtMostOnce this' tr
                ∧ (∀ i, i ∈ readItems tr → i = f)
                ∧ ((∀ g, g ∈ f :: rest → isFileLike g = true) → f ∈ readItems tr)).
    { intros pre t ev Hp Hr Hc. destruct (Hpre pre Hp) as (Hcp & Honly & Hin).
      exists t, (pre ++ ev). split; [done|]. split_and!.
      - by apply completesAtMostOnce_app.
      - unfold readItems in *. by rewrite omap_app, Hr, app_nil_r.
      - intros _. unfold readItems in *. by rewrite omap_app, Hr, app_nil_r. }
    assert (Herr : ∀ pre,
              (pre = tr0 ∨ pre = tr0 ++ loadedEvents f) →
              ∃ this' tr,
                Some (_onImageLoadingError (ReaderArg "") this1 pre) = Some (this', tr)
                ∧ completesAtMostOnce this' tr
                ∧ (∀ i, i ∈ readItems tr → i = f)
                ∧ ((∀ g, g ∈ f :: rest → isFileLike g = true) → f ∈ readItems tr)).
    { intros pre Hp. rewrite onImageLoadingError_eq.
      destruct (cancelled this1 || done this1); cbv zeta.
      - rewrite <- (app_nil_r pre). apply Hend; [done|done|by left].
      - apply Hend; [done|apply completeEvents_calls|].
        unfold completeEvents. destruct (loadCompleteCb _) as [cb|]; [|by left].
        right. by exists [], cb. }
    destruct rr as [decoded| |].
    + destruct (handler_shape js ext cancelAt decoded this1 (tr0 ++ loadedEvents f))
        as (t & ev & -> & Hr & Hc & _).
      apply Hend; [by right|done|done].
    + apply Herr. by right.
    + destruct f; try (apply Herr; by left);
        rewrite <- (app_nil_r tr0); (apply Hend; [by left|done|by left]).
Qed.

(** X13: of a valid list only the first item is ever read.  Every session
    on a list of files and handles returns, its trace starts a read of the
    first item, and no read of any other item appears in it, however the
    read ends and whatever the file holds. *)
Theorem only_the_first_item_is_read
  js ext f rest ccb pcb cancelEarly cancelAt rr this :
  (∀ g, g ∈ f :: rest → isFileLike g = true) →
  ∃ this' tr,
    session js ext (f :: rest) ccb pcb cancelEarly cancelAt rr this = Some (this', tr)
    ∧ f ∈ readItems tr
    ∧ ∀ i, i ∈ readItems tr → i = f.
Proof.
  intros Hvalid.
  destruct (session_shape js ext (f :: rest) ccb pcb cancelEarly cancelAt rr this)
    as (this' & tr & Hrun & _ & Honly & Hread).
  exists this', tr. split_and!; [done|by apply Hread|done].
Qed.

Lemma only_the_first_item_is_read_witness :
  ∃ this' tr,
    session v8 acceptingExtern [File "a.tif"; File "b.tif"] None None false (fun _ => false)
      (Loaded (inr [mkIfd 2 1 8 (inr [1; 0])])) freshLoader = Some (this', tr)
    ∧ File "a.tif" ∈ readItems tr
    ∧ ∀ i, i ∈ readItems tr → i = File "a.tif".
Proof.
  apply (only_the_first_item_is_read v8 acceptingExtern (File "a.tif") [File "b.tif"]
           None None false (fun _ => false) (Loaded (inr [mkIfd 2 1 8 (inr [1; 0])]))
           freshLoader).
  intros g Hg. apply list_elem_of_In in Hg. simpl in Hg.
  destruct Hg as [<- | [<- | []]]; reflexivity.
Defined.

(** X14: every session returns, and the completion callback is called at
    most once in it: when it is called, that is the last event of the
    session, the loader is marked done, and the callback is given the
    loader as the session leaves it.  (_copyImagesToTexture, which this
    file does not define, is taken to change fields of the loader only.) *)
Theorem completion_callback_called_at_most_once
  js ext imgFiles ccb pcb cancelEarly cancelAt rr this :
  ∃ this' tr,
    session js ext imgFiles ccb pcb cancelEarly cancelAt rr this = Some (this', tr)
    ∧ (completionCalls tr = []
       ∨ (completionCalls tr = [this'] ∧ done this' = true
          ∧ ∃ tr0 cb, tr = tr0 ++ [CompleteCb cb this'])).
Proof.
  destruct (session_shape js ext imgFiles ccb pcb cancelEarly cancelAt rr this)
    as (this' & tr & Hrun & [Hnone|(tr0 & cb & -> & Hnone & Hdone)] & _).
  - exists this', tr. split; [done|by left].
  - exists this', (tr0 ++ [CompleteCb cb this']). split; [done|]. right.
    split_and!; [|done|by exists tr0, cb].
    unfold completionCalls in *. by rewrite omap_app, Hnone.
Qed.

(** X15: the load request resets the errors, the warnings, the done flag
    and the count, but not the cancellation flag.  On a loader that was
    cancelled once, a later request with a valid list starts the read of
    the first item (for a handle: getFile(), and then, unless getFile() is
    rejected, readAsArrayBuffer) and nothing more happens, however the read
    ends: the loader stays cancelled and is never marked done, and the
    completion callback is not called. *)
Theorem cancelled_loader_stays_cancelled
  js ext f rest ccb pcb cancelEarly cancelAt rr this :
  cancelled this = true →
  (∀ g, g ∈ f :: rest → isFileLike g = true) →
  ∃ tr,
    session js ext (f :: rest) ccb pcb cancelEarly cancelAt rr this
    = Some (mkLoader (f :: rest) None None false true 0 ccb pcb, tr)
    ∧ tr = requestEvents pcb f (length (f :: rest))
           ++ match rr with GetFileRejected => [] | _ => loadedEvents f end
    ∧ completionCalls tr = [] ∧ pauses tr = [].
Proof.
  intros Hc Hvalid. rewrite (session_valid _ _ _ _ _ _ _ _ _ _ Hvalid), Hc.
  destruct (requestEvents_calls pcb f (length (f :: rest))) as (_ & Hc0 & Hz0).
  destruct (loadedEvents_calls f) as (_ & Hc1 & Hz1).
  assert (Hsame : (if cancelEarly then
                     setCancelled true (mkLoader (f :: rest) None None false true 0 ccb pcb)
                   else mkLoader (f :: rest) None None false true 0 ccb pcb)
                  = mkLoader (f :: rest) None None false true 0 ccb pcb)
    by (by destruct cancelEarly).
  rewrite Hsame.
  exists (requestEvents pcb f (length (f :: rest))
          ++ match rr with GetFileRejected => [] | _ => loadedEvents f end).
  split_and!.
  - destruct rr as [decoded| |].
    + done.
    + by rewrite onImageLoadingError_eq.
    + destruct f; try (rewrite onImageLoadingError_eq; simpl); by rewrite app_nil_r.
  - done.
  - unfold completionCalls in *. rewrite omap_app, Hc0. by destruct rr.
  - unfold pauses in *. rewrite omap_app, Hz0. by destruct rr.
Qed.

Lemma cancelled_loader_stays_cancelled_witness :
  ∃ tr,
    session v8 acceptingExtern [FileSystemFileHandle "a.tif"] (Some (Fn 1)) (Some (Fn 2))
      false (fun _ => false) ReadFailed (mkLoader [] None None true true 0 None None)
    = Some (mkLoader [FileSystemFileHandle "a.tif"] None None false true 0
              (Some (Fn 1)) (Some (Fn 2)), tr)
    ∧ tr = requestEvents (Some (Fn 2)) (FileSystemFileHandle "a.tif")
             (length [FileSystemFileHandle "a.tif"])
           ++ loadedEvents (FileSystemFileHandle "a.tif")
    ∧ completionCalls tr = [] ∧ pauses tr = [].
Proof.
  apply (cancelled_loader_stays_cancelled v8 acceptingExtern (FileSystemFileHandle "a.tif")
           [] (Some (Fn 1)) (Some (Fn 2)) false (fun _ => false) ReadFailed
           (mkLoader [] None None true true 0 None None)).
  - reflexivity.
  - intros g Hg. apply list_elem_of_In in Hg. simpl in Hg.
    destruct Hg as [<- | []]; reflexivity.
Defined.

(** X16: a read that fails ends the session with one report: the loader is
    marked done with the text "Error loading image " (the reader has no
    fileName, so nothing follows the blank), the count is 0, and the
    completion callback is called once, with that loader.  When the
    reader's onerror fires, the read had been started: for a handle the
    trace is getFile(), readAsArrayBuffer, completion callback; when a
    handle's getFile() is rejected, readAsArrayBuffer was never called. *)
Theorem failed_read_is_reported_once js ext f rest ccb pcb cancelAt rr this :
  cancelled this = false →
  (∀ g, g ∈ f :: rest → isFileLike g = true) →
  rr = ReadFailed ∨ (rr = GetFileRejected ∧ ∃ name, f = FileSystemFileHandle name) →
  let this' := mkLoader (f :: rest) (Some "Error loading image ") None true false 0 ccb pcb in
  session js ext (f :: rest) ccb pcb false cancelAt rr this
  = Some (this',
          requestEvents pcb f (length (f :: rest))
          ++ match rr with ReadFailed => loadedEvents f | _ => [] end
          ++ completeEvents this').
Proof.
  intros Hc Hvalid Hrr this'. rewrite (session_valid _ _ _ _ _ _ _ _ _ _ Hvalid), Hc.
  destruct Hrr as [-> | (-> & name & ->)]; rewrite onImageLoadingError_eq; cbn [app];
    by rewrite <- ?app_assoc.
Qed.

Lemma failed_read_is_reported_once_witness :
  session v8 acceptingExtern [FileSystemFileHandle "a.tif"] (Some (Fn 1)) None false
    (fun _ => false) ReadFailed freshLoader
  = Some (mkLoader [FileSystemFileHandle "a.tif"] (Some "Error loading image ") None true
            false 0 (Some (Fn 1)) None,
          [GetFile (FileSystemFileHandle "a.tif");
           ReadAsArrayBuffer (FileSystemFileHandle "a.tif");
           CompleteCb (Fn 1)
             (mkLoader [FileSystemFileHandle "a.tif"] (Some "Error loading image ") None true
                false 0 (Some (Fn 1)) None)]).
Proof.
  apply (failed_read_is_reported_once v8 acceptingExtern (FileSystemFileHandle "a.tif") []
           (Some (Fn 1)) None (fun _ => false) ReadFailed freshLoader).
  - reflexivity.
  - intros g Hg. apply list_elem_of_In in Hg. simpl in Hg.
    destruct Hg as [<- | []]; reflexivity.
  - by left.
Defined.

(** X17: where the decoder throws decides whether the session ever ends.
    UTIF.decode is called before the try block: when it throws, nothing is
    caught, the loader is left not done and without an error, and the
    completion callback is never called.  UTIF.decodeImage is called inside
    the try block: when it throws the same exception for the first frame,
    the loader is marked done with the exception's text and the completion
    callback is called once. *)
Theorem decode_error_is_reported_only_inside_try
  js ext f rest ccb pcb cancelAt ex ifds ifd0 this :
  cancelled this = false →
  (∀ g, g ∈ f :: rest → isFileLike g = true) →
  ifds !! 0%nat = Some ifd0 → data ifd0 = inl ex →
  session js ext (f :: rest) ccb pcb false cancelAt (Loaded (inl ex)) this
  = Some (mkLoader (f :: rest) None None false false 0 ccb pcb,
          requestEvents pcb f (length (f :: rest)) ++ loadedEvents f)
  ∧ (let this' := mkLoader (f :: rest) (Some (errorText ex)) None true false 0 ccb pcb in
     session js ext (f :: rest) ccb pcb false cancelAt (Loaded (inr ifds)) this
     = Some (this', (requestEvents pcb f (length (f :: rest)) ++ loadedEvents f)
                    ++ completeEvents this')).
Proof.
  intros Hc Hvalid H0 Hd. rewrite !(session_valid _ _ _ _ _ _ _ _ _ _ Hvalid), Hc.
  split; [done|]. unfold _handleMultiImageTiff. cbn [cancelled].
  unfold tryBlock. unfold bind at 1. change 0 with (Z.of_nat 0).
  rewrite decodeImage_eq, H0, Hd. by rewrite onImageLoadingError_eq.
Qed.

Lemma decode_error_is_reported_only_inside_try_witness :
  session v8 acceptingExtern [File "a.tif"] (Some (Fn 1)) None false (fun _ => false)
    (Loaded (inl (Exception "bad strip"))) freshLoader
  = Some (mkLoader [File "a.tif"] None None false false 0 (Some (Fn 1)) None,
          requestEvents None (File "a.tif") (length [File "a.tif"])
          ++ loadedEvents (File "a.tif"))
  ∧ (let this' := mkLoader [File "a.tif"] (Some (errorText (Exception "bad strip"))) None
                    true false 0 (Some (Fn 1)) None in
     session v8 acceptingExtern [File "a.tif"] (Some (Fn 1)) None false (fun _ => false)
       (Loaded (inr [mkIfd 2 1 8 (inl (Exception "bad strip"))])) freshLoader
     = Some (this', (requestEvents None (File "a.tif") (length [File "a.tif"])
                     ++ loadedEvents (File "a.tif"))
                    ++ completeEvents this')).
Proof.
  apply (decode_error_is_reported_only_inside_try v8 acceptingExtern (File "a.tif") []
           (Some (Fn 1)) None (fun _ => false) (Exception "bad strip")
           [mkIfd 2 1 8 (inl (Exception "bad strip"))]
           (mkIfd 2 1 8 (inl (Exception "bad strip"))) freshLoader).
  - reflexivity.
  - intros g Hg. apply list_elem_of_In in Hg. simpl in Hg.
    destruct Hg as [<- | []]; reflexivity.
  - reflexivity.
  - reflexivity.
Defined.

(** ** Whole runs of the handler *)

Lemma tryBlock_eq js ext cancelAt ifds this tr :
  tryBlock js ext cancelAt ifds this tr
  = match ifds !! 0%nat with
    | None => Throw (Exception "Cannot read properties of undefined") this tr
    | Some ifd0 =>
        match data ifd0 with
        | inl ex => Throw ex this tr
        | inr _ =>
            if decide (t258 ifd0 = 8) then
              (imgBufferArray <- remapImages (length ifds) 0 ifds (Z.of_nat (length ifds))
                                   (width ifd0 * height ifd0) cancelAt [] ;;
               imgBufferArray <- labelPhase js (width ifd0) (height ifd0) imgBufferArray ;;
               uploadPhase ext (width ifd0) (height ifd0) (Z.of_nat (length ifds)) 8
                 imgBufferArray) this tr
            else
              let this' := setDone true
                             (setErrors (Some "LabelLoader: Only 8-bit images are supported.")
                                this) in
              Return this' (tr ++ completeEvents this')
        end
    end.
Proof.
  pose proof (decodeImage_eq ifds 0 this tr) as Hstart.
  change (Z.of_nat 0) with 0 in Hstart.
  unfold tryBlock. unfold bind at 1. rewrite Hstart.
  destruct (ifds !! 0%nat) as [ifd0|]; [|done].
  destruct (data ifd0) as [ex|bytes]; [done|]. cbn [fst].
  destruct (decide (t258 ifd0 = 8)) as [Hbpp|Hbpp].
  - rewrite bool_decide_eq_false_2 by (intros ?; done). by rewrite Hbpp.
  - rewrite bool_decide_eq_true_2 by done.
    unfold bind, modify, return_. by rewrite SafeInvoke_complete_events.
Qed.

(* The images before image [k + c] that all decode, with no cancellation
   in their pauses, are remapped and reported in turn. *)
Lemma remapImages_prefix ifds numImgs wh cancelAt (m c : nat) :
  ∀ (k : nat) acc this tr,
    cancelled this = false →
    (∀ j : nat, (k ≤ j < k + c)%nat → cancelAt (Z.of_nat j) = false) →
    (∀ i : nat, (k ≤ i < k + c)%nat →
                ∃ ifd bytes, ifds !! i = Some ifd ∧ data ifd = inr bytes) →
    ∃ bufs,
      remapImages (c + m) (Z.of_nat k) ifds numImgs wh cancelAt acc this tr
      = remapImages m (Z.of_nat (k + c)) ifds numImgs wh cancelAt (acc ++ bufs) this
          (tr ++ reportEvents (loadProgressCb this) numImgs (Z.of_nat k) c).
Proof.
  induction c as [|c IH]; intros k acc this tr Hc Hquiet Hdec.
  { exists []. rewrite Nat.add_0_r, app_nil_r. cbn [Nat.add].
    unfold reportEvents. destruct (loadProgressCb this); simpl; by rewrite app_nil_r. }
  cbn [Nat.add remapImages]. unfold bind at 1. rewrite decodeImage_eq.
  destruct (Hdec k ltac:(lia)) as (ifd & bytes & -> & ->).
  cbn [snd]. unfold bind at 1. rewrite maybeReportProgress_eq.
  replace (Z.of_nat k + 1) with (Z.of_nat (S k)) by lia.
  assert (Hev : ∀ cb, reportEvents (Some cb) numImgs (Z.of_nat k) (S c)
                      = [ProgressCb cb (Z.of_nat k) numImgs; Pause (Z.of_nat k)]
                        ++ reportEvents (Some cb) numImgs (Z.of_nat (S k)) c).
  { intros cb. unfold reportEvents. rewrite seqZ_cons by lia. rewrite bind_cons.
    do 3 f_equal; lia. }
  replace (k + S c)%nat with (S k + c)%nat by lia.
  destruct (loadProgressCb this) as [cb|] eqn:Hcb.
  - cbv zeta. rewrite (Hquiet k) by lia. rewrite Hc.
    destruct (IH (S k) (acc ++ [remapFrame wh bytes]) this
                (tr ++ [ProgressCb cb (Z.of_nat k) numImgs; Pause (Z.of_nat k)]) Hc)
      as (bufs & ->).
    { intros j Hj. apply Hquiet. lia. }
    { intros i Hi. apply Hdec. lia. }
    exists (remapFrame wh bytes :: bufs). rewrite Hcb, Hev. by rewrite <- !app_assoc.
  - destruct (IH (S k) (acc ++ [remapFrame wh bytes]) this tr Hc) as (bufs & ->).
    { intros j Hj. apply Hquiet. lia. }
    { intros i Hi. apply Hdec. lia. }
    exists (remapFrame wh bytes :: bufs). rewrite Hcb. by rewrite <- !app_assoc.
Qed.

(* A run in which every frame decodes, nothing is cancelled and at most
   251 components are found reaches the copy to the volume. *)
Lemma handler_after_labeling js ext cancelAt ifds ifd0 frames g c this tr :
  cancelled this = false →
  (∀ z, cancelAt z = false) →
  ifds !! 0%nat = Some ifd0 → t258 ifd0 = 8 →
  data <$> ifds = inr <$> frames →
  labelComponents (width ifd0) (height ifd0)
    (remapFrame (width ifd0 * height ifd0) <$> frames) = inr (g, c) →
  _handleMultiImageTiff js ext cancelAt (inr ifds) this tr
  = match uploadPhase ext (width ifd0) (height ifd0) (Z.of_nat (length ifds)) 8 g
            (setNumLabelsFound (c - 3) this)
            (tr ++ reportEvents (loadProgressCb this) (Z.of_nat (length ifds)) 0
                     (length ifds)) with
    | Next _ this' tr' | Return this' tr' => Some (this', tr')
    | Throw ex this' tr' => Some (_onImageLoadingError ex this' tr')
    | OutOfFuel => None
    end.
Proof.
  intros Hc Hquiet H0 Hbpp Hdata Hlabel.
  unfold _handleMultiImageTiff. rewrite Hc, tryBlock_eq, H0.
  destruct (all_decoded_frame ifds frames 0 ifd0 Hdata H0) as (bytes & _ & ->).
  rewrite decide_True by done. unfold bind at 1.
  pose proof (remapImages_quiet ifds frames (Z.of_nat (length ifds))
                (width ifd0 * height ifd0) cancelAt (length ifds) Hquiet Hdata
                0%nat [] this tr Hc ltac:(lia)) as Hremap.
  change (Z.of_nat 0) with 0 in Hremap. rewrite Hremap. clear Hremap.
  assert (Hlen : length frames = length ifds).
  { apply (f_equal length) in Hdata. by rewrite !length_fmap in Hdata. }
  rewrite drop_0, <- Hlen, firstn_all, app_nil_l, Hlen.
  unfold bind at 1.
  destruct (labelPhase_cases js (width ifd0) (height ifd0)
              (remapFrame (width ifd0 * height ifd0) <$> frames) this
              (tr ++ reportEvents (loadProgressCb this) (Z.of_nat (length ifds)) 0
                       (length ifds)))
    as [(g' & c' & Hl & ->)|(g' & c' & Hl & _)]; rewrite Hlabel in Hl; by simplify_eq.
Qed.

Lemma remapImages_cancel_at ifds numImgs wh cancelAt cb (m c : nat) acc this tr :
  cancelled this = false →
  loadProgressCb this = Some cb →
  (∀ i : nat, (i ≤ c)%nat → ∃ ifd bytes, ifds !! i = Some ifd ∧ data ifd = inr bytes) →
  (∀ j : nat, (j < c)%nat → cancelAt (Z.of_nat j) = false) →
  cancelAt (Z.of_nat c) = true →
  remapImages (c + S m) 0 ifds numImgs wh cancelAt acc this tr
  = Return (setCancelled true this)
      (tr ++ reportEvents (Some cb) numImgs 0 c
          ++ [ProgressCb cb (Z.of_nat c) numImgs; Pause (Z.of_nat c)]).
Proof.
  intros Hc Hcb Hdec Hquiet Hcancel.
  destruct (remapImages_prefix ifds numImgs wh cancelAt (S m) c 0 acc this tr Hc)
    as (bufs & Hpre).
  { intros j Hj. apply Hquiet. lia. }
  { intros i Hi. apply Hdec. lia. }
  change (Z.of_nat 0) with 0 in Hpre. cbn [Nat.add] in Hpre. rewrite Hpre, Hcb.
  cbn [remapImages]. unfold bind at 1. rewrite decodeImage_eq.
  destruct (Hdec c ltac:(lia)) as (ifd & bytes & -> & ->).
  unfold bind at 1. rewrite maybeReportProgress_eq, Hcb. cbv zeta.
  by rewrite Hcancel, <- app_assoc.
Qed.

Lemma remapImages_throw_at ifds numImgs wh cancelAt ifdc ex (m c : nat) acc this tr :
  cancelled this = false →
  (∀ i : nat, (i < c)%nat → ∃ ifd bytes, ifds !! i = Some ifd ∧ data ifd = inr bytes) →
  (∀ j : nat, (j < c)%nat → cancelAt (Z.of_nat j) = false) →
  ifds !! c = Some ifdc → data ifdc = inl ex →
  remapImages (c + S m) 0 ifds numImgs wh cancelAt acc this tr
  = Throw ex this (tr ++ reportEvents (loadProgressCb this) numImgs 0 c).
Proof.
  intros Hc Hdec Hquiet Hifd Hex.
  destruct (remapImages_prefix ifds numImgs wh cancelAt (S m) c 0 acc this tr Hc)
    as (bufs & Hpre).
  { intros j Hj. apply Hquiet. lia. }
  { intros i Hi. apply Hdec. lia. }
  change (Z.of_nat 0) with 0 in Hpre. cbn [Nat.add] in Hpre. rewrite Hpre.
  cbn [remapImages]. unfold bind at 1. by rewrite decodeImage_eq, Hifd, Hex.
Qed.

(** X18: the order of a load that succeeds.  When every frame decodes,
    nothing is cancelled, at most 251 components are found and the volume
    accepts the data, the handler reports each frame in turn (with a
    progress callback), then calls loadBegin with the first frame's width
    and height, the number of frames and 8 bits, then copies the labelled
    frames 0 to numImgs, then calls loadEnd, and last calls the completion
    callback, with the loader marked done and holding the count. *)
Theorem successful_load_calls_volume_in_order
  js ext cancelAt ifds ifd0 frames g c this tr :
  cancelled this = false →
  (∀ z, cancelAt z = false) →
  ifds !! 0%nat = Some ifd0 → t258 ifd0 = 8 →
  data <$> ifds = inr <$> frames →
  labelComponents (width ifd0) (height ifd0)
    (remapFrame (width ifd0 * height ifd0) <$> frames) = inr (g, c) →
  let numImgs := Z.of_nat (length ifds) in
  let dims := [width ifd0; height ifd0; numImgs] in
  let this2 := copyImagesToTexture ext g
                 (setErrors (vol_loadBegin ext dims 8) (setNumLabelsFound (c - 3) this)) in
  truthy (vol_loadBegin ext dims 8) = false →
  done this2 = false →
  _handleMultiImageTiff js ext cancelAt (inr ifds) this tr
  = Some (setDone true this2,
          tr ++ reportEvents (loadProgressCb this) numImgs 0 (length ifds)
             ++ [VolLoadBegin dims 8; CopyImagesToTexture 0 numImgs g; VolLoadEnd]
             ++ completeEvents (setDone true this2)).
Proof.
  intros Hc Hquiet H0 Hbpp Hdata Hlabel numImgs dims this2 Hok Hdone.
  rewrite (handler_after_labeling js ext cancelAt ifds ifd0 frames g c this tr)
    by done.
  rewrite uploadPhase_eq. fold numImgs. fold dims. rewrite Hok. fold this2.
  by rewrite Hdone, <- app_assoc.
Qed.

Lemma successful_load_calls_volume_in_order_witness :
  _handleMultiImageTiff v8 acceptingExtern (fun _ => false)
    (inr [mkIfd 2 1 8 (inr [1; 0]); mkIfd 2 1 8 (inr [2; 1])])
    (mkLoader [File "a.tif"] None None false false 0 (Some (Fn 1)) (Some (Fn 2))) []
  = Some (mkLoader [File "a.tif"] None None true false 1 (Some (Fn 1)) (Some (Fn 2)),
          [ProgressCb (Fn 2) 0 2; Pause 0; ProgressCb (Fn 2) 1 2; Pause 1;
           VolLoadBegin [2; 1; 2] 8; CopyImagesToTexture 0 2 [[3; 1]; [0; 3]]; VolLoadEnd;
           CompleteCb (Fn 1)
             (mkLoader [File "a.tif"] None None true false 1 (Some (Fn 1)) (Some (Fn 2)))]).
Proof.
  apply (successful_load_calls_volume_in_order v8 acceptingExtern (fun _ => false)
           [mkIfd 2 1 8 (inr [1; 0]); mkIfd 2 1 8 (inr [2; 1])] (mkIfd 2 1 8 (inr [1; 0]))
           [[1; 0]; [2; 1]] [[3; 1]; [0; 3]] 4
           (mkLoader [File "a.tif"] None None false false 0 (Some (Fn 1)) (Some (Fn 2))) []);
    reflexivity.
Defined.

(** X19: a volume that refuses the data.  In the same run, when loadBegin
    returns an error text, that text becomes the loader's error, the count
    of components is already set, nothing is copied and loadEnd is not
    called; the completion callback is called once. *)
Theorem volume_refusal_ends_load_after_count
  js ext cancelAt ifds ifd0 frames g c e this tr :
  cancelled this = false →
  (∀ z, cancelAt z = false) →
  ifds !! 0%nat = Some ifd0 → t258 ifd0 = 8 →
  data <$> ifds = inr <$> frames →
  labelComponents (width ifd0) (height ifd0)
    (remapFrame (width ifd0 * height ifd0) <$> frames) = inr (g, c) →
  let numImgs := Z.of_nat (length ifds) in
  let dims := [width ifd0; height ifd0; numImgs] in
  vol_loadBegin ext dims 8 = Some e → e ≠ "" →
  let this' := setDone true (setErrors (Some e) (setNumLabelsFound (c - 3) this)) in
  _handleMultiImageTiff js ext cancelAt (inr ifds) this tr
  = Some (this',
          tr ++ reportEvents (loadProgressCb this) numImgs 0 (length ifds)
             ++ [VolLoadBegin dims 8] ++ completeEvents this').
Proof.
  intros Hc Hquiet H0 Hbpp Hdata Hlabel numImgs dims He Hne this'.
  rewrite (handler_after_labeling js ext cancelAt ifds ifd0 frames g c this tr)
    by done.
  rewrite uploadPhase_eq. fold numImgs. fold dims. rewrite He.
  unfold truthy. rewrite bool_decide_eq_false_2 by done. cbn [negb].
  by rewrite <- app_assoc.
Qed.

Lemma volume_refusal_ends_load_after_count_witness :
  _handleMultiImageTiff v8 (mkExtern (fun _ _ => Some "too large") (fun _ this => this))
    (fun _ => false) (inr [mkIfd 2 1 8 (inr [1; 0])])
    (mkLoader [File "a.tif"] None None false false 0 (Some (Fn 1)) None) []
  = Some (mkLoader [File "a.tif"] (Some "too large") None true false 1 (Some (Fn 1)) None,
          [VolLoadBegin [2; 1; 1] 8;
           CompleteCb (Fn 1)
             (mkLoader [File "a.tif"] (Some "too large") None true false 1
                (Some (Fn 1)) None)]).
Proof.
  apply (volume_refusal_ends_load_after_count v8
           (mkExtern (fun _ _ => Some "too large") (fun _ this => this)) (fun _ => false)
           [mkIfd 2 1 8 (inr [1; 0])] (mkIfd 2 1 8 (inr [1; 0])) [[1; 0]] [[3; 1]] 4
           "too large"
           (mkLoader [File "a.tif"] None None false false 0 (Some (Fn 1)) None) []);
    try reflexivity.
  discriminate.
Defined.

(** X20: a cancellation that arrives during the pause after frame c stops
    the load there.  Frames 0 to c have been reported, each followed by
    its pause; no later frame is decoded (so an undecodable later frame
    goes unnoticed), nothing is labelled, the count is not set, the volume
    is not called, the loader is not marked done and the completion
    callback is not called. *)
Theorem cancel_during_pause_stops_the_load
  js ext cancelAt ifds ifd0 cb (c : nat) this tr :
  cancelled this = false →
  loadProgressCb this = Some cb →
  ifds !! 0%nat = Some ifd0 → t258 ifd0 = 8 →
  (∀ i : nat, (i ≤ c)%nat → ∃ ifd bytes, ifds !! i = Some ifd ∧ data ifd = inr bytes) →
  (∀ j : nat, (j < c)%nat → cancelAt (Z.of_nat j) = false) →
  cancelAt (Z.of_nat c) = true →
  let numImgs := Z.of_nat (length ifds) in
  _handleMultiImageTiff js ext cancelAt (inr ifds) this tr
  = Some (setCancelled true this,
          tr ++ reportEvents (Some cb) numImgs 0 c
             ++ [ProgressCb cb (Z.of_nat c) numImgs; Pause (Z.of_nat c)]).
Proof.
  intros Hc Hcb H0 Hbpp Hdec Hquiet Hcancel numImgs.
  unfold _handleMultiImageTiff. rewrite Hc, tryBlock_eq, H0.
  destruct (Hdec 0%nat ltac:(lia)) as (ifd & bytes & Hi & Hd).
  rewrite H0 in Hi. simplify_eq. rewrite Hd, decide_True by done.
  destruct (Hdec c ltac:(lia)) as (ifdc & _ & Hlt%lookup_lt_Some & _).
  fold numImgs. unfold bind at 1.
  replace (length ifds) with (c + S (length ifds - S c))%nat by lia.
  by rewrite (remapImages_cancel_at ifds numImgs _ cancelAt cb _ c [] this tr).
Qed.

Lemma cancel_during_pause_stops_the_load_witness :
  _handleMultiImageTiff v8 acceptingExtern (fun z => bool_decide (z = 1))
    (inr [mkIfd 2 1 8 (inr [1; 0]); mkIfd 2 1 8 (inr [2; 1]);
          mkIfd 2 1 8 (inl (Exception "bad strip"))])
    (mkLoader [File "a.tif"] None None false false 0 (Some (Fn 1)) (Some (Fn 2))) []
  = Some (mkLoader [File "a.tif"] None None false true 0 (Some (Fn 1)) (Some (Fn 2)),
          [ProgressCb (Fn 2) 0 3; Pause 0; ProgressCb (Fn 2) 1 3; Pause 1]).
Proof.
  apply (cancel_during_pause_stops_the_load v8 acceptingExtern (fun z => bool_decide (z = 1))
           [mkIfd 2 1 8 (inr [1; 0]); mkIfd 2 1 8 (inr [2; 1]);
            mkIfd 2 1 8 (inl (Exception "bad strip"))]
           (mkIfd 2 1 8 (inr [1; 0])) (Fn 2) 1%nat
           (mkLoader [File "a.tif"] None None false false 0 (Some (Fn 1)) (Some (Fn 2))) []);
    try reflexivity.
  - intros [|[|i]] Hi; [by eexists _, _|by eexists _, _|lia].
  - intros [|j] Hj; [reflexivity|lia].
Defined.

(** X21: a later frame that fails to decode.  When frames 0 to c-1 decode
    and frame c throws, frames 0 to c-1 have been reported, the loader is
    marked done with the exception's text (or "Error loading image." when
    it has none), the count is not set, the volume is not called, and the
    completion callback is called once. *)
Theorem frame_decode_error_is_reported_after_earlier_frames
  js ext cancelAt ifds ifd0 ifdc ex (c : nat) this tr :
  cancelled this = false → done this = false →
  ifds !! 0%nat = Some ifd0 → t258 ifd0 = 8 →
  (0 < c)%nat →
  (∀ i : nat, (i < c)%nat → ∃ ifd bytes, ifds !! i = Some ifd ∧ data ifd = inr bytes) →
  (∀ j : nat, (j < c)%nat → cancelAt (Z.of_nat j) = false) →
  ifds !! c = Some ifdc → data ifdc = inl ex →
  let this' := setErrors (Some (errorText ex)) (setDone true this) in
  _handleMultiImageTiff js ext cancelAt (inr ifds) this tr
  = Some (this',
          tr ++ reportEvents (loadProgressCb this) (Z.of_nat (length ifds)) 0 c
             ++ completeEvents this').
Proof.
  intros Hc Hd H0 Hbpp Hpos Hdec Hquiet Hifd Hex this'.
  unfold _handleMultiImageTiff. rewrite Hc, tryBlock_eq, H0.
  destruct (Hdec 0%nat Hpos) as (ifd & bytes & Hi & Hd0).
  rewrite H0 in Hi. simplify_eq. rewrite Hd0, decide_True by done.
  pose proof (lookup_lt_Some _ _ _ Hifd) as Hlt.
  unfold bind at 1.
  replace (length ifds) with (c + S (length ifds - S c))%nat at 1 by lia.
  rewrite (remapImages_throw_at ifds _ _ cancelAt ifdc ex _ c [] this tr) by done.
  rewrite onImageLoadingError_eq, Hc, Hd. cbn [orb]. cbv zeta.
  by rewrite <- app_assoc.
Qed.

Lemma frame_decode_error_is_reported_after_earlier_frames_witness :
  _handleMultiImageTiff v8 acceptingExtern (fun _ => false)
    (inr [mkIfd 2 1 8 (inr [1; 0]); mkIfd 2 1 8 (inl (Exception "bad strip"))])
    (mkLoader [File "a.tif"] None None false false 0 (Some (Fn 1)) (Some (Fn 2))) []
  = Some (mkLoader [File "a.tif"] (Some "bad strip") None true false 0
            (Some (Fn 1)) (Some (Fn 2)),
          [ProgressCb (Fn 2) 0 2; Pause 0;
           CompleteCb (Fn 1)
             (mkLoader [File "a.tif"] (Some "bad strip") None true false 0
                (Some (Fn 1)) (Some (Fn 2)))]).
Proof.
  apply (frame_decode_error_is_reported_after_earlier_frames v8 acceptingExtern
           (fun _ => false)
           [mkIfd 2 1 8 (inr [1; 0]); mkIfd 2 1 8 (inl (Exception "bad strip"))]
           (mkIfd 2 1 8 (inr [1; 0])) (mkIfd 2 1 8 (inl (Exception "bad strip")))
           (Exception "bad strip") 1%nat
           (mkLoader [File "a.tif"] None None false false 0 (Some (Fn 1)) (Some (Fn 2))) []);
    try reflexivity.
  - lia.
  - intros [|i] Hi; [by eexists _, _|lia].
Defined.

Lemma decodeImage_data_only ifds ifds' z this tr :
  data <$> ifds = data <$> ifds' →
  (∃ ex, decodeImage ifds z this tr = Throw ex this tr
         ∧ decodeImage ifds' z this tr = Throw ex this tr)
  ∨ (∃ ifd ifd' bytes, decodeImage ifds z this tr = Next (ifd, bytes) this tr
                       ∧ decodeImage ifds' z this tr = Next (ifd', bytes) this tr).
Proof.
  intros Hdata. unfold decodeImage.
  destruct (bool_decide (0 ≤ z)); [|left; by eexists].
  assert (Hi : data <$> (ifds !! Z.to_nat z) = data <$> (ifds' !! Z.to_nat z))
    by (by rewrite <- !list_lookup_fmap, Hdata).
  destruct (ifds !! Z.to_nat z) as [ifd|], (ifds' !! Z.to_nat z) as [ifd'|];
    simplify_eq/=; [|left; by eexists].
  rewrite Hi. destruct (data ifd') as [ex|bytes]; [left; by eexists|].
  right. by exists ifd, ifd', bytes.
Qed.

Lemma remapImages_data_only ifds ifds' numImgs wh cancelAt n :
  data <$> ifds = data <$> ifds' →
  ∀ z acc this tr,
    remapImages n z ifds numImgs wh cancelAt acc this tr
    = remapImages n z ifds' numImgs wh cancelAt acc this tr.
Proof.
  intros Hdata. induction n as [|n IH]; intros z acc this tr; [done|].
  cbn [remapImages]. unfold bind at 1 3.
  destruct (decodeImage_data_only ifds ifds' z this tr Hdata)
    as [(ex & -> & ->)|(ifd & ifd' & bytes & -> & ->)]; [done|].
  cbn [snd]. unfold bind at 1 2.
  destruct (maybeReportProgress cancelAt z numImgs this tr); try done.
Qed.

(** X22: only the first frame's header is read.  The width, the height and
    the bit depth are taken from frame 0 and used for every frame: two
    decoded files with the same pixel data in every frame and the same
    header in frame 0 are handled alike, whatever the headers of the later
    frames say; a later frame of another size or bit depth is not
    detected. *)
Theorem later_frame_headers_are_ignored js ext cancelAt ifds ifds' this tr :
  data <$> ifds = data <$> ifds' →
  (∀ a b, ifds !! 0%nat = Some a → ifds' !! 0%nat = Some b →
          width a = width b ∧ height a = height b ∧ t258 a = t258 b) →
  _handleMultiImageTiff js ext cancelAt (inr ifds) this tr
  = _handleMultiImageTiff js ext cancelAt (inr ifds') this tr.
Proof.
  intros Hdata Hhdr. unfold _handleMultiImageTiff.
  destruct (cancelled this); [done|]. rewrite !tryBlock_eq.
  assert (Hlen : length ifds = length ifds').
  { apply (f_equal length) in Hdata. by rewrite !length_fmap in Hdata. }
  assert (H0 : data <$> (ifds !! 0%nat) = data <$> (ifds' !! 0%nat))
    by (by rewrite <- !list_lookup_fmap, Hdata).
  destruct (ifds !! 0%nat) as [a|], (ifds' !! 0%nat) as [b|]; simplify_eq/=; [|done].
  destruct (Hhdr a b eq_refl eq_refl) as (-> & -> & ->). rewrite H0, Hlen.
  destruct (data b) as [ex|bytes]; [done|].
  destruct (decide (t258 b = 8)); [|done].
  unfold bind.
  by rewrite (remapImages_data_only ifds ifds' _ _ cancelAt (length ifds') Hdata).
Qed.

Lemma later_frame_headers_are_ignored_witness :
  _handleMultiImageTiff v8 acceptingExtern (fun _ => false)
    (inr [mkIfd 2 1 8 (inr [1; 0]); mkIfd 2 1 8 (inr [2; 1])]) freshLoader []
  = _handleMultiImageTiff v8 acceptingExtern (fun _ => false)
      (inr [mkIfd 2 1 8 (inr [1; 0]); mkIfd 5 7 16 (inr [2; 1])]) freshLoader [].
Proof.
  apply (later_frame_headers_are_ignored v8 acceptingExtern (fun _ => false)
           [mkIfd 2 1 8 (inr [1; 0]); mkIfd 2 1 8 (inr [2; 1])]
           [mkIfd 2 1 8 (inr [1; 0]); mkIfd 5 7 16 (inr [2; 1])] freshLoader []).
  - reflexivity.
  - intros a b Ha Hb. simpl in Ha, Hb. by simplify_eq.
Defined.

(** * Cancellation and progress over whole sessions *)

(* The loop over the images, seen from the cancellation requests: it goes
   on as long as no request arrives in a pause, and returns in the pause in
   which one arrives. *)
Lemma remapImages_cancel_shape ifds numImgs wh cancelAt n :
  ∀ z acc this tr,
    cancelled this = false →
    match remapImages n z ifds numImgs wh cancelAt acc this tr with
    | Next _ t' tr' | Throw _ t' tr' =>
        t' = this
        ∧ ∃ ev, tr' = tr ++ ev ∧ Forall remapEvent ev
                ∧ Forall (fun z => cancelAt z = false) (pauses ev)
    | Return t' tr' =>
        t' = setCancelled true this
        ∧ ∃ ev0 cb z',
            tr' = tr ++ ev0 ++ [ProgressCb cb z' numImgs; Pause z']
            ∧ cancelAt z' = true ∧ Forall remapEvent ev0
            ∧ Forall (fun z => cancelAt z = false) (pauses ev0)
    | OutOfFuel => False
    end.
Proof.
  induction n as [|n IH]; intros z acc this tr Hc.
  { simpl. split; [done|]. exists []. by rewrite app_nil_r. }
  cbn [remapImages]. unfold bind at 1.
  destruct (decodeImage_cases ifds z this tr) as [(d & -> & _)|(ex & ->)].
  2:{ split; [done|]. exists []. by rewrite app_nil_r. }
  unfold bind at 1. rewrite maybeReportProgress_eq.
  destruct (loadProgressCb this) as [cb|] eqn:Hcb; [|by apply IH].
  cbv zeta.
  assert (Hev : Forall remapEvent [ProgressCb cb z numImgs; Pause z]).
  { by repeat constructor. }
  destruct (cancelAt z) eqn:Hz.
  { split; [done|]. by exists [], cb, z. }
  rewrite Hc.
  specialize (IH (z + 1) (acc ++ [remapFrame wh d.2]) this
                (tr ++ [ProgressCb cb z numImgs; Pause z]) Hc).
  destruct (remapImages n _ ifds numImgs wh cancelAt _ this _)
    as [bufs t' tr'|t' tr'|ex t' tr'|]; [| | |done].
  - destruct IH as (-> & ev & -> & Hf & Hp). split; [done|].
    exists ([ProgressCb cb z numImgs; Pause z] ++ ev).
    split_and!; [by rewrite <- app_assoc|by apply Forall_app|].
    simpl. by constructor.
  - destruct IH as (-> & ev0 & cb' & z' & -> & Hz' & Hf & Hp). split; [done|].
    exists ([ProgressCb cb z numImgs; Pause z] ++ ev0), cb', z'.
    split_and!; [by rewrite <- !app_assoc|done|by apply Forall_app|].
    simpl. by constructor.
  - destruct IH as (-> & ev & -> & Hf & Hp). split; [done|].
    exists ([ProgressCb cb z numImgs; Pause z] ++ ev).
    split_and!; [by rewrite <- app_assoc|by apply Forall_app|].
    simpl. by constructor.
Qed.

(* The handler, seen from the cancellation requests. *)
Lemma handler_cancel_shape js ext cancelAt decoded this tr :
  ∃ this' ev,
    _handleMultiImageTiff js ext cancelAt decoded this tr = Some (this', tr ++ ev)
    ∧ (cancelled this = true → this' = this ∧ ev = [])
    ∧ (Forall (fun z => cancelAt z = false) (pauses ev)
       ∨ ∃ ev0 cb z n,
           ev = ev0 ++ [ProgressCb cb z n; Pause z] ∧ cancelAt z = true
           ∧ Forall (fun z => cancelAt z = false) (pauses ev0)
           ∧ completionCalls ev0 = []
           ∧ this' = setCancelled true this).
Proof.
  unfold _handleMultiImageTiff. destruct (cancelled this) eqn:Hc.
  { exists this, []. rewrite app_nil_r. split_and!; [done|done|by left]. }
  destruct decoded as [ex|ifds].
  { exists this, []. rewrite app_nil_r. split_and!; [done|done|by left]. }
  assert (Hlate : ∀ t ev1 ev2,
            Forall (fun z => cancelAt z = false) (pauses ev1) → pauses ev2 = [] →
            ∃ this' ev,
              Some (t, tr ++ ev1 ++ ev2) = Some (this', tr ++ ev)
              ∧ (false = true → this' = this ∧ ev = [])
              ∧ (Forall (fun z => cancelAt z = false) (pauses ev)
                 ∨ ∃ ev0 cb z n,
                     ev = ev0 ++ [ProgressCb cb z n; Pause z] ∧ cancelAt z = true
                     ∧ Forall (fun z => cancelAt z = false) (pauses ev0)
                     ∧ completionCalls ev0 = []
                     ∧ this' = setCancelled true this)).
  { intros t ev1 ev2 Hp1 Hp2. exists t, (ev1 ++ ev2). split_and!; [done|done|].
    left. unfold pauses in *. by rewrite omap_app, Hp2, app_nil_r. }
  assert (Herr : ∀ ex ev1,
            Forall (fun z => cancelAt z = false) (pauses ev1) →
            ∃ this' ev,
              Some (_onImageLoadingError ex this (tr ++ ev1)) = Some (this', tr ++ ev)
              ∧ (false = true → this' = this ∧ ev = [])
              ∧ (Forall (fun z => cancelAt z = false) (pauses ev)
                 ∨ ∃ ev0 cb z n,
                     ev = ev0 ++ [ProgressCb cb z n; Pause z] ∧ cancelAt z = true
                     ∧ Forall (fun z => cancelAt z = false) (pauses ev0)
                     ∧ completionCalls ev0 = []
                     ∧ this' = setCancelled true this)).
  { intros ex ev1 Hp1.
    destruct (onImageLoadingError_trace ex this (tr ++ ev1))
      as (t & ev2 & -> & _ & Hz & _).
    rewrite <- app_assoc. by apply Hlate. }
  rewrite tryBlock_eq.
  destruct (ifds !! 0%nat) as [ifd0|].
  2:{ destruct (Herr (Exception "Cannot read properties of undefined") [])
        as (t & ev & Hrun & Hev); [done|].
      rewrite app_nil_r in Hrun. by exists t, ev. }
  destruct (data ifd0) as [ex|bytes].
  { destruct (Herr ex []) as (t & ev & Hrun & Hev); [done|].
    rewrite app_nil_r in Hrun. by exists t, ev. }
  destruct (decide (t258 ifd0 = 8)) as [Hbpp|Hbpp].
  2:{ cbv zeta. apply (Hlate _ []); [done|]. apply completeEvents_calls. }
  unfold bind at 1.
  pose proof (remapImages_cancel_shape ifds (Z.of_nat (length ifds))
                (width ifd0 * height ifd0) cancelAt (length ifds) 0 [] this tr Hc) as Hsh.
  destruct (remapImages _ _ ifds _ _ cancelAt [] this tr)
    as [bufs t1 tr1|t1 tr1|ex t1 tr1|]; [| | |done].
  - destruct Hsh as (-> & ev1 & -> & _ & Hp1). unfold bind at 1.
    destruct (labelPhase_cases js (width ifd0) (height ifd0) bufs this (tr ++ ev1))
      as [(g & c & _ & ->)|(g & c & _ & ->)]; [|by apply Herr].
    destruct (uploadPhase_trace ext (width ifd0) (height ifd0) (Z.of_nat (length ifds)) 8 g
                (setNumLabelsFound (c - 3) this) (tr ++ ev1))
      as (t & ev2 & [-> | ->] & _ & Hz2); rewrite <- app_assoc; by apply Hlate.
  - destruct Hsh as (-> & ev0 & cb & z & -> & Hz & Hf & Hp0).
    eexists _, _. split_and!; [done|done|]. right.
    exists ev0, cb, z, (Z.of_nat (length ifds)). split_and!; try done.
    by apply remapEvents_silent.
  - destruct Hsh as (-> & ev1 & -> & _ & Hp1). by apply Herr.
Qed.

(* The pause in which a cancellation request arrives is the last event. *)
Lemma cancelling_pause_is_last (P : Prop) cancelAt ev z :
  (Forall (fun z => cancelAt z = false) (pauses ev)
   ∨ ∃ ev0 cb z' n,
       ev = ev0 ++ [ProgressCb cb z' n; Pause z'] ∧ cancelAt z' = true
       ∧ Forall (fun z => cancelAt z = false) (pauses ev0)
       ∧ completionCalls ev0 = [] ∧ P) →
  Pause z ∈ ev → cancelAt z = true →
  completionCalls ev = [] ∧ (∃ ev0, ev = ev0 ++ [Pause z]) ∧ P.
Proof.
  intros [Hquiet|(ev0 & cb & z' & n & -> & Hz' & Hquiet & Hcc & HP)] Hin Hz.
  - exfalso. apply elem_of_pauses in Hin. rewrite Forall_forall in Hquiet.
    rewrite (Hquiet z Hin) in Hz. done.
  - assert (z = z') as ->.
    { apply elem_of_pauses in Hin. unfold pauses in Hin. rewrite omap_app in Hin.
      apply elem_of_app in Hin as [Hin|Hin].
      - exfalso. rewrite Forall_forall in Hquiet. rewrite (Hquiet z Hin) in Hz. done.
      - simpl in Hin. by apply list_elem_of_singleton in Hin. }
    split_and!; [|by exists (ev0 ++ [ProgressCb cb z' n]); rewrite <- app_assoc|done].
    unfold completionCalls in *. by rewrite omap_app, Hcc.
Qed.

(** C2, as amended: cancellation before the labeling pass.  The handler
    tests the flag on entry and returns at once when it is set; after each
    pause that follows a progress report it tests the flag again and
    returns.  So in every run of the handler, and in every session whose
    list is not empty and holds only Files and FileSystemFileHandles (the
    sessions that start a read), whether the read succeeds or fails: when
    the flag is set on entry or while the read is pending, nothing is
    called after the first progress report and the start of the read, the
    loader stays cancelled and not done; and when a request arrives during
    a pause, that pause is the last event of the session; in both cases the
    completion callback is not called.  A session with an empty list or an
    invalid item never tests the flag: it calls the completion callback
    inside the load request, cancelled or not. *)
Theorem cancel_before_labeling_suppresses_completion :
  (∀ js ext cancelAt decoded this tr,
     cancelled this = true →
     _handleMultiImageTiff js ext cancelAt decoded this tr = Some (this, tr))
  ∧ (∀ cancelAt z numImgs cb this tr,
       loadProgressCb this = Some cb → cancelAt z = true →
       maybeReportProgress cancelAt z numImgs this tr
       = Return (setCancelled true this) (tr ++ [ProgressCb cb z numImgs; Pause z]))
  ∧ (∀ js ext cancelAt decoded this tr,
       ∃ this' ev,
         _handleMultiImageTiff js ext cancelAt decoded this tr = Some (this', tr ++ ev)
         ∧ (cancelled this = true → this' = this ∧ ev = [])
         ∧ (∀ z, Pause z ∈ ev → cancelAt z = true →
                 completionCalls ev = [] ∧ (∃ ev0, ev = ev0 ++ [Pause z])
                 ∧ this' = setCancelled true this))
  ∧ (∀ js ext f rest ccb pcb cancelEarly cancelAt rr this,
       (∀ g, g ∈ f :: rest → isFileLike g = true) →
       ∃ this' tr,
         session js ext (f :: rest) ccb pcb cancelEarly cancelAt rr this = Some (this', tr)
         ∧ (cancelled this = true ∨ cancelEarly = true →
            tr = requestEvents pcb f (length (f :: rest))
                 ++ match rr with GetFileRejected => [] | _ => loadedEvents f end
            ∧ completionCalls tr = []
            ∧ cancelled this' = true ∧ done this' = false)
         ∧ (∀ z, Pause z ∈ tr → cancelAt z = true →
                 completionCalls tr = [] ∧ (∃ tr0, tr = tr0 ++ [Pause z])
                 ∧ cancelled this' = true ∧ done this' = false))
  ∧ (∀ js ext imgFiles cb pcb cancelEarly cancelAt rr this,
       imgFiles = [] ∨ (∃ f, f ∈ imgFiles ∧ isFileLike f = false) →
       ∃ this',
         session js ext imgFiles (Some cb) pcb cancelEarly cancelAt rr this
         = Some (this', [CompleteCb cb this'])
         ∧ done this' = true ∧ cancelled this' = cancelled this).
Proof.
  split_and!.
  - intros js ext cancelAt decoded this tr Hc. unfold _handleMultiImageTiff.
    by rewrite Hc.
  - intros cancelAt z numImgs cb this tr Hcb Hz.
    rewrite maybeReportProgress_eq, Hcb. cbv zeta. by rewrite Hz.
  - intros js ext cancelAt decoded this tr.
    destruct (handler_cancel_shape js ext cancelAt decoded this tr)
      as (this' & ev & Hrun & Hentry & Hshape).
    exists this', ev. split_and!; [done|done|].
    intros z Hin Hz. by apply (cancelling_pause_is_last _ cancelAt).
  - intros js ext f rest ccb pcb cancelEarly cancelAt rr this Hvalid.
    rewrite (session_valid _ _ _ _ _ _ _ _ _ _ Hvalid).
    set (this0 := mkLoader (f :: rest) None None false (cancelled this) 0 ccb pcb).
    set (this1 := if cancelEarly then setCancelled true this0 else this0).
    set (tr0 := requestEvents pcb f (length (f :: rest))).
    destruct (requestEvents_calls pcb f (length (f :: rest))) as (_ & Hc0 & Hz0).
    destruct (loadedEvents_calls f) as (_ & Hc1 & Hz1).
    fold tr0 in Hc0, Hz0.
    assert (Hflag : cancelled this = true ∨ cancelEarly = true → cancelled this1 = true).
    { unfold this1, this0. intros [Hc | ->]; [by destruct cancelEarly|done]. }
    assert (Hd1 : done this1 = false) by (unfold this1; by destruct cancelEarly).
    assert (Hpre : ∀ pre, pre = tr0 ∨ pre = tr0 ++ loadedEvents f →
              completionCalls pre = [] ∧ pauses pre = []).
    { intros pre [-> | ->]; [done|].
      unfold completionCalls, pauses in *. by rewrite !omap_app, Hc0, Hc1, Hz0, Hz1. }
    (* a session that ends with the trace [pre] and the loader [this1] *)
    assert (Hsilent : ∀ pre,
              pre = tr0 ∨ pre = tr0 ++ loadedEvents f →
              (cancelled this = true ∨ cancelEarly = true → cancelled this1 = true) →
              (cancelled this = true ∨ cancelEarly = true →
               completionCalls pre = [] ∧ cancelled this1 = true ∧ done this1 = false)
              ∧ (∀ z, Pause z ∈ pre → cancelAt z = true →
                      completionCalls pre = [] ∧ (∃ tr1, pre = tr1 ++ [Pause z])
                      ∧ cancelled this1 = true ∧ done this1 = false)).
    { intros pre Hp Hf. destruct (Hpre pre Hp) as [Hcp Hzp]. split.
      - intros Hc. split_and!; [done|by apply Hf|done].
      - intros z Hin _. exfalso. apply elem_of_pauses in Hin. rewrite Hzp in Hin.
        by apply elem_of_nil in Hin. }
    (* the error handler on the loader [this1] after the trace [pre] *)
    assert (Herr : ∀ pre,
              pre = tr0 ∨ pre = tr0 ++ loadedEvents f →
              ∃ this' tr,
                Some (_onImageLoadingError (ReaderArg "") this1 pre) = Some (this', tr)
                ∧ (cancelled this = true ∨ cancelEarly = true →
                   tr = pre ∧ completionCalls tr = []
                   ∧ cancelled this' = true ∧ done this' = false)
                ∧ (∀ z, Pause z ∈ tr → cancelAt z = true →
                        completionCalls tr = [] ∧ (∃ tr1, tr = tr1 ++ [Pause z])
                        ∧ cancelled this' = true ∧ done this' = false)).
    { intros pre Hp. destruct (Hpre pre Hp) as [Hcp Hzp].
      rewrite onImageLoadingError_eq, Hd1, orb_false_r.
      assert (Hcases : cancelled this1 = true ∨ cancelled this1 = false)
        by (destruct (cancelled this1); auto).
      destruct Hcases as [Hc1'|Hc1']; rewrite Hc1'.
      - exists this1, pre. split; [done|].
        destruct (Hsilent pre Hp) as [Hs1 Hs2]; [done|]. split; [|done].
        intros Hc. by destruct (Hs1 Hc) as (? & _ & ?).
      - eexists _, _. split; [done|]. split.
        + intros Hc. rewrite Hflag in Hc1' by done. done.
        + intros z Hin _. exfalso. apply elem_of_pauses in Hin. unfold pauses in *.
          rewrite omap_app, Hzp in Hin.
          destruct (completeEvents_calls
                      (setErrors (Some (errorText (ReaderArg ""))) (setDone true this1)))
            as (_ & _ & _ & Hcz).
          unfold pauses in Hcz. rewrite Hcz in Hin. by apply elem_of_nil in Hin. }
    destruct rr as [decoded| |].
    + destruct (handler_cancel_shape js ext cancelAt decoded this1 (tr0 ++ loadedEvents f))
        as (t & ev & -> & Hentry & Hshape).
      destruct (Hpre (tr0 ++ loadedEvents f)) as [Hcp Hzp]; [by right|].
      exists t, ((tr0 ++ loadedEvents f) ++ ev). split; [done|]. split.
      * intros Hc. destruct (Hentry (Hflag Hc)) as [-> ->].
        rewrite app_nil_r. split_and!; [done|done|by apply Hflag|done].
      * intros z Hin Hz. apply elem_of_app in Hin as [Hin|Hin].
        { exfalso. apply elem_of_pauses in Hin. rewrite Hzp in Hin.
          by apply elem_of_nil in Hin. }
        destruct (cancelling_pause_is_last _ cancelAt ev z Hshape Hin Hz)
          as (Hcc & (ev0 & ->) & ->).
        split_and!; [|by exists ((tr0 ++ loadedEvents f) ++ ev0); rewrite <- !app_assoc
                     |done|done].
        unfold completionCalls in *. by rewrite omap_app, Hcp, Hcc.
    + destruct (Herr (tr0 ++ loadedEvents f)) as (t & tr & -> & Hs1 & Hs2); [by right|].
      exists t, tr. split; [done|]. split; [|done].
      intros Hc. by destruct (Hs1 Hc) as (-> & ? & ? & ?).
    + assert (Hnil : tr0 ++ [] = tr0) by apply app_nil_r.
      destruct f as [name|name|name].
      * exists this1, tr0. split; [done|]. rewrite Hnil.
        destruct (Hsilent tr0) as [Hs1 Hs2]; [by left|done|]. split; [|done].
        intros Hc. by destruct (Hs1 Hc) as (? & ? & ?).
      * destruct (Herr tr0) as (t & tr & -> & Hs1 & Hs2); [by left|].
        exists t, tr. split; [done|]. rewrite Hnil. split; [|done].
        intros Hc. by destruct (Hs1 Hc) as (-> & ? & ? & ?).
      * exists this1, tr0. split; [done|]. rewrite Hnil.
        destruct (Hsilent tr0) as [Hs1 Hs2]; [by left|done|]. split; [|done].
        intros Hc. by destruct (Hs1 Hc) as (? & ? & ?).
  - intros js ext imgFiles cb pcb cancelEarly cancelAt rr this Hbad.
    destruct (loadImagesIntoVolume_cases imgFiles (Some cb) pcb this)
      as [(Hnil & t & Ht & Hload)|[(Hex & t & Ht & Hload)|(Hex & f & rest & -> & _)]].
    + exists t. unfold session. rewrite Hload. cbn [readStarted existsb negb].
      by subst t.
    + exists t. unfold session. rewrite Hload. cbn [readStarted existsb negb].
      by subst t.
    + exfalso. destruct Hbad as [?|(g & Hg & Hv)]; [done|].
      pose proof (proj2 (valid_existsb (f :: rest)) Hex g Hg) as Hv'. congruence.
Qed.

Lemma cancel_before_labeling_suppresses_completion_witness :
  ∃ this' tr,
    session v8 acceptingExtern [File "a.tif"] (Some (Fn 1)) (Some (Fn 2)) false
      (fun z => bool_decide (z = 0))
      (Loaded (inr [mkIfd 2 1 8 (inr [1; 0]); mkIfd 2 1 8 (inr [0; 1])])) freshLoader
    = Some (this', tr)
    ∧ tr = [ProgressCb (Fn 2) 0 1; ReadAsArrayBuffer (File "a.tif");
            ProgressCb (Fn 2) 0 2; Pause 0]
    ∧ completionCalls tr = [] ∧ (∃ tr0, tr = tr0 ++ [Pause 0])
    ∧ cancelled this' = true ∧ done this' = false.
Proof.
  destruct (proj1 (proj2 (proj2 (proj2 cancel_before_labeling_suppresses_completion)))
              v8 acceptingExtern (File "a.tif") [] (Some (Fn 1)) (Some (Fn 2)) false
              (fun z => bool_decide (z = 0))
              (Loaded (inr [mkIfd 2 1 8 (inr [1; 0]); mkIfd 2 1 8 (inr [0; 1])]))
              freshLoader) as (this' & tr & Hrun & _ & Hpause).
  { intros g Hg. apply list_elem_of_In in Hg. simpl in Hg.
    destruct Hg as [<- | []]; reflexivity. }
  exists this', tr. split; [exact Hrun|].
  assert (Htr : tr = [ProgressCb (Fn 2) 0 1; ReadAsArrayBuffer (File "a.tif");
                      ProgressCb (Fn 2) 0 2; Pause 0]).
  { vm_compute in Hrun. congruence. }
  split; [exact Htr|]. apply Hpause; [|reflexivity].
  rewrite Htr. apply list_elem_of_In. simpl. tauto.
Defined.

(** C2, as the claim has it, fails: "every session" takes in the sessions
    that end inside the load request.  On a loader whose cancellation flag
    is set (the load request never resets it), a request with an empty
    list, or with an item that is neither a File nor a handle, calls the
    completion callback once; the flag is still set afterwards. *)
Lemma cancelled_session_still_completes_counterexample :
  (∃ this' tr,
     session v8 acceptingExtern [] (Some (Fn 1)) None false (fun _ => false) ReadFailed
       (mkLoader [] None None false true 0 None None) = Some (this', tr)
     ∧ cancelled this' = true
     ∧ completionCalls tr = [this'] ∧ completionCalls tr ≠ [])
  ∧ (∃ this' tr,
       session v8 acceptingExtern [OtherItem "a string"] (Some (Fn 1)) None false
         (fun _ => false) ReadFailed (mkLoader [] None None false true 0 None None)
       = Some (this', tr)
       ∧ cancelled this' = true
       ∧ completionCalls tr = [this'] ∧ completionCalls tr ≠ []).
Proof.
  split; (eexists _, _; split; [vm_compute; reflexivity|]); done.
Qed.




